(** * The heap of the churf garbage collector (src/GC/lib/heap.cpp)

    A shallow embedding of [GC::Heap]: the bump allocator with chunk
    recycling ([alloc], [try_recycle_chunks]) and the conservative
    mark-and-sweep collection ([collect], [mark], [sweep], [free],
    [free_overlap]), followed by the properties of the specification that
    concern them. *)

From stdpp Require Import strings numbers gmap.
From stdpp Require Import list.

Local Open Scope Z_scope.

Set Default Proof Using "Type".

(** ** Results of a call

    The code either returns, stops on a failed [assert], or does something the
    language leaves undefined (reading through a deleted [Chunk *], erasing at
    the end of a vector).  [OutOfFuel] is the result of a loop whose bound,
    computed by the model, was too small; [mark_total] shows that this never
    happens. *)

Inductive outcome (A : Type) : Type :=
  | Done (a : A)
  | Abort (msg : string)
  | Undefined
  | OutOfFuel.

Arguments Done {A} a.
Arguments Abort {A} msg.
Arguments Undefined {A}.
Arguments OutOfFuel {A}.

#[global] Instance outcome_ret : MRet outcome := λ A a, Done a.

#[global] Instance outcome_bind : MBind outcome := λ A B f m,
  match m with
  | Done a => f a
  | Abort msg => Abort msg
  | Undefined => Undefined
  | OutOfFuel => OutOfFuel
  end.

(** ** Machine integers

    [size_t] and [uintptr_t] are 64 bits wide; their sums wrap around. *)

Definition WORD_BITS : Z := 64.
Definition WORD_BYTES : Z := 8.
Definition wrap (z : Z) : Z := z mod 2 ^ WORD_BITS.

(** include/heap.hpp: [#define HEAP_SIZE 65536].  The header is that of an
    earlier [Heap]: it declares neither the members that heap.cpp uses nor
    [FREE_THRESH] and [get_at]. *)
Definition HEAP_SIZE : Z := 65536.

(** ** Chunks

    Modelled from the spec: chunk.hpp is missing.  heap.cpp constructs a chunk
    as [new Chunk(size, start)] and reads the members [m_start], [m_size] and
    [m_marked]; a new chunk is not marked. *)

Module Chunk.
Record t : Type := mk { m_marked : bool; m_start : Z; m_size : Z }.

Definition new (size start : Z) : t :=
  {| m_marked := false; m_start := start; m_size := size |}.

Definition set_marked (b : bool) (c : t) : t :=
  {| m_marked := b; m_start := m_start c; m_size := m_size c |}.
End Chunk.

(** A [Chunk *]: the identity of a chunk object on the free store. *)
Abbreviation chunk_ptr := nat (only parsing).

(** Modelled from the spec: event.hpp and profiler.cpp are missing.  The
    profiler appends each recorded event to its log; an event about a chunk
    holds a copy of the chunk as it was when recorded. *)
Inductive GCEvent : Type :=
  | HeapInit
  | AllocStart (size : Z)
  | NewChunk (c : Chunk.t)
  | ReusedChunk (c : Chunk.t)
  | CollectStart
  | MarkStart
  | ChunkMarked (c : Chunk.t)
  | ChunkSwept (c : Chunk.t)
  | ChunkFreed (c : Chunk.t).

(** What is written to [cout]. *)
Inductive output : Type :=
  | OutLine (s : string)
  | OutAddr (a : Z).

(** ** The state

    The members of the [Heap] singleton, and with them what the code reaches
    from it: the chunk objects made by [new Chunk] (the vectors hold pointers
    to them, so a chunk marked through one vector is marked in every other),
    the log of the profiler and the output stream.

    Modelled from the spec: the header that declares these members is
    missing.  heap.cpp names them; the region [m_heap] is a buffer of bytes,
    so that [m_heap + m_size] counts in bytes, and the counter [m_size] is
    added to a [size_t], which makes the sum a [size_t]. *)

Record State : Type := mkState {
  m_heap : Z;                              (* address of the region *)
  m_size : Z;                              (* bytes handed out by bumping *)
  m_allocated_chunks : list chunk_ptr;
  m_freed_chunks : list chunk_ptr;
  m_stack_top : Z;                         (* 0 is nullptr *)
  m_profiler_enable : bool;
  objects : gmap nat Chunk.t;              (* the live chunk objects *)
  events : list GCEvent;                   (* Profiler::m_events *)
  cout : list output
}.

Definition with_size (n : Z) (s : State) : State :=
  mkState (m_heap s) n (m_allocated_chunks s) (m_freed_chunks s)
    (m_stack_top s) (m_profiler_enable s) (objects s) (events s) (cout s).

Definition with_allocated (l : list chunk_ptr) (s : State) : State :=
  mkState (m_heap s) (m_size s) l (m_freed_chunks s)
    (m_stack_top s) (m_profiler_enable s) (objects s) (events s) (cout s).

Definition with_freed (l : list chunk_ptr) (s : State) : State :=
  mkState (m_heap s) (m_size s) (m_allocated_chunks s) l
    (m_stack_top s) (m_profiler_enable s) (objects s) (events s) (cout s).

Definition with_stack_top (a : Z) (s : State) : State :=
  mkState (m_heap s) (m_size s) (m_allocated_chunks s) (m_freed_chunks s)
    a (m_profiler_enable s) (objects s) (events s) (cout s).

Definition with_objects (o : gmap nat Chunk.t) (s : State) : State :=
  mkState (m_heap s) (m_size s) (m_allocated_chunks s) (m_freed_chunks s)
    (m_stack_top s) (m_profiler_enable s) o (events s) (cout s).

Definition with_events (e : list GCEvent) (s : State) : State :=
  mkState (m_heap s) (m_size s) (m_allocated_chunks s) (m_freed_chunks s)
    (m_stack_top s) (m_profiler_enable s) (objects s) e (cout s).

Definition with_cout (o : list output) (s : State) : State :=
  mkState (m_heap s) (m_size s) (m_allocated_chunks s) (m_freed_chunks s)
    (m_stack_top s) (m_profiler_enable s) (objects s) (events s) o.

(** [if (profiler_enabled) Profiler::record(e)] *)
Definition record (e : GCEvent) (s : State) : State :=
  if m_profiler_enable s then with_events (events s ++ [e]) s else s.

Definition print (o : output) (s : State) : State :=
  with_cout (cout s ++ [o]) s.

(** [chunk->m_marked = b], for a live chunk whose members are [c]. *)
Definition set_marked (p : chunk_ptr) (c : Chunk.t) (b : bool) (s : State) : State :=
  with_objects (<[p := Chunk.set_marked b c]> (objects s)) s.

(** [new Chunk(size, start)]: a chunk object at an address not in use. *)
Definition new_chunk (c : Chunk.t) (s : State) : chunk_ptr * State :=
  let p := fresh (dom (objects s)) in
  (p, with_objects (<[p := c]> (objects s)) s).

(** [delete chunk] *)
Definition delete_chunk (p : chunk_ptr) (s : State) : outcome State :=
  match objects s !! p with
  | Some _ => Done (with_objects (delete p (objects s)) s)
  | None => Undefined
  end.

(** ** Vectors under erasure

    [mark] takes the end iterator [stop] of the worklist before its inner loop
    and erases from the worklist inside the loop, itself and through the
    recursive call.  [erase] on a vector of pointers moves the elements behind
    the position one slot down and lowers the end by one; the slots from the
    new end up to [stop] keep what they held, and the loop, which runs until
    [stop], reads them.  A vector is therefore its slots together with the
    position of its end. *)

Record vector : Type := mkVector { slots : list chunk_ptr; finish : nat }.

Definition vector_of (l : list chunk_ptr) : vector :=
  {| slots := l; finish := length l |}.

Definition live (v : vector) : list chunk_ptr := take (finish v) (slots v).

Definition erase (i : nat) (v : vector) : outcome vector :=
  if decide (i < finish v)%nat then
    Done {| slots := take i (slots v)
                     ++ drop (S i) (take (finish v) (slots v))
                     ++ drop (finish v - 1) (slots v);
            finish := (finish v - 1)%nat |}
  else Undefined.

Section Machine.

(** The definition of [FREE_THRESH] is missing: it is a parameter. *)
Variable FREE_THRESH : nat.

(** [chunk->m_start + chunk->m_size] is pointer arithmetic: the sum advances
    by [m_size] objects of the type [m_start] points to, which chunk.hpp
    declares; [START_STRIDE] is the size of that type in bytes. *)
Variable START_STRIDE : Z.

(** [__builtin_frame_address(0)] inside [collect]. *)
Variable stack_bottom : Z.

(** [*start]: the word stored at an address.  While [mark] runs the code
    writes to chunk objects and to the worklist only, which lie outside the
    scanned part of the stack and outside the region: the words scanned do
    not change. *)
Variable mem : Z → Z.

(** *** mark *)

Definition c_end (chunk : Chunk.t) : Z :=
  wrap (Chunk.m_start chunk + Chunk.m_size chunk).

(** [c_start <= *start && *start < c_end] *)
Definition points_into (w : Z) (chunk : Chunk.t) : bool :=
  (Chunk.m_start chunk <=? w) && (w <? c_end chunk).

(** The inner loop [while (it != stop)] for the word [w = *start]; [rec] is
    the recursive call of [mark].  Every turn moves [it] forward or erases
    from the worklist, so [fuel] bounds the turns when it is at least
    [(stop - it) + finish wl]. *)
Fixpoint mark_worklist
    (rec : Z → Z → vector → State → outcome (vector * State))
    (w : Z) (fuel : nat) (it stop : nat) (wl : vector) (s : State)
    : outcome (vector * State) :=
  if decide (it = stop) then Done (wl, s)
  else
    match fuel with
    | O => OutOfFuel
    | S fuel =>
      match slots wl !! it with
      | None => Undefined
      | Some p =>
        match objects s !! p with
        | None => Undefined
        | Some chunk =>
          if points_into w chunk then
            if negb (Chunk.m_marked chunk) then
              let s := record (ChunkMarked chunk) s in
              let s := set_marked p chunk true s in
              wl ← erase it wl;
              '(wl, s) ← rec (Chunk.m_start chunk) (c_end chunk) wl s;
              mark_worklist rec w fuel it stop wl s
            else mark_worklist rec w fuel (S it) stop wl s
          else mark_worklist rec w fuel (S it) stop wl s
        end
      end
    end.

(** The outer loop [for (; start <= end; start++)]. *)
Fixpoint mark_words
    (body : Z → vector → State → outcome (vector * State))
    (fuel : nat) (start end_ : Z) (wl : vector) (s : State)
    : outcome (vector * State) :=
  if decide (start ≤ end_) then
    match fuel with
    | O => OutOfFuel
    | S fuel =>
      '(wl, s) ← body start wl s;
      mark_words body fuel (start + WORD_BYTES) end_ wl s
    end
  else Done (wl, s).

(** The number of words from [start] up to [end_]. *)
Definition words_between (start end_ : Z) : nat :=
  Z.to_nat ((end_ - start) `div` WORD_BYTES + 1).

(** [mark] at recursion depth at most [depth]: a recursive call is made
    after an erasure, with a shorter worklist. *)
Fixpoint mark_rec (depth : nat) (start end_ : Z) (wl : vector) (s : State)
    : outcome (vector * State) :=
  match depth with
  | O => OutOfFuel
  | S depth =>
    let s := record MarkStart s in
    mark_words
      (λ a wl s,
         mark_worklist (mark_rec depth) (mem a)
           (2 * finish wl) 0 (finish wl) wl s)
      (words_between start end_) start end_ wl s
  end.

Definition mark (start end_ : Z) (worklist : vector) (s : State)
    : outcome (vector * State) :=
  mark_rec (S (finish worklist)) start end_ worklist s.

(** *** sweep

    [iter] stands behind [kept]; the chunks still to visit are [todo]. *)
Fixpoint sweep_loop (kept todo : list chunk_ptr) (s : State) : outcome State :=
  match todo with
  | [] => Done s
  | p :: todo =>
    match objects s !! p with
    | None => Undefined
    | Some chunk =>
      if Chunk.m_marked chunk then
        sweep_loop (kept ++ [p]) todo (set_marked p chunk false s)
      else
        let s := record (ChunkSwept chunk) s in
        let s := with_freed (m_freed_chunks s ++ [p]) s in
        let s := with_allocated (kept ++ todo) s in
        sweep_loop kept todo s
    end
  end.

Definition sweep (s : State) : outcome State :=
  sweep_loop [] (m_allocated_chunks s) s.

(** *** free_overlap *)

(** Modelled from the spec: [Heap::get_at] is missing; it retrieves the
    element of a list at an index. *)
Definition get_at (l : list chunk_ptr) (n : nat) : option chunk_ptr := l !! n.

(** The loop over the chunks behind the first, which are [todo]. *)
Fixpoint overlap_filter (filtered todo : list chunk_ptr) (s : State)
    : outcome (list chunk_ptr * State) :=
  match todo with
  | [] => Done (filtered, s)
  | q :: todo =>
    match last filtered with
    | None => Undefined
    | Some pr =>
      match objects s !! pr, objects s !! q with
      | Some prev, Some next =>
        let p_start := Chunk.m_start prev in
        let p_size := Chunk.m_size prev in
        let n_start := Chunk.m_start next in
        if wrap (p_start + p_size) <=? n_start then
          overlap_filter (filtered ++ [q]) todo (set_marked q next true s)
        else overlap_filter filtered todo s
      | _, _ => Undefined
      end
    end
  end.

(** The loop over the former list: delete what was filtered away. *)
Fixpoint overlap_delete (l : list chunk_ptr) (s : State) : outcome State :=
  match l with
  | [] => Done s
  | p :: l =>
    match objects s !! p with
    | None => Undefined
    | Some chunk =>
      if negb (Chunk.m_marked chunk) then
        s ← delete_chunk p (record (ChunkFreed chunk) s);
        overlap_delete l s
      else overlap_delete l (set_marked p chunk false s)
    end
  end.

Definition free_overlap (s : State) : outcome State :=
  match get_at (m_freed_chunks s) 0 with
  | None => Undefined
  | Some p =>
    match objects s !! p with
    | None => Undefined
    | Some prev =>
      let all := m_freed_chunks s in
      let s := set_marked p prev true s in
      let s := print (OutAddr (Chunk.m_start prev)) s in
      '(filtered, s) ← overlap_filter [p] (drop 1 all) s;
      overlap_delete all (with_freed filtered s)
    end
  end.

(** *** free *)

(** [while (heap->m_freed_chunks.size())]: one turn for each chunk. *)
Fixpoint free_all (fuel : nat) (s : State) : outcome State :=
  match last (m_freed_chunks s) with
  | None => Done s
  | Some p =>
    match fuel with
    | O => OutOfFuel
    | S fuel =>
      let s := with_freed (removelast (m_freed_chunks s)) s in
      match objects s !! p with
      | None => Undefined
      | Some chunk =>
        s ← delete_chunk p (record (ChunkFreed chunk) s);
        free_all fuel s
      end
    end
  end.

Definition free (s : State) : outcome State :=
  if decide (FREE_THRESH < length (m_freed_chunks s))%nat then
    free_all (length (m_freed_chunks s)) s
  else if decide (length (m_freed_chunks s) ≠ 0%nat) then free_overlap s
  else Done s.

(** *** collect *)

Definition collect (s : State) : outcome State :=
  let s := record CollectStart s in
  if decide (m_stack_top s = 0) then
    Abort "Heap is not initialized, read the docs!"
  else
    let stack_top := m_stack_top s in
    let work_list := vector_of (m_allocated_chunks s) in
    '(_, s) ← mark stack_bottom stack_top work_list s;
    s ← sweep s;
    free s.

(** *** try_recycle_chunks

    The loop is at index [i]; [todo] are the freed chunks from [i] on. *)
Fixpoint recycle_from (size : Z) (i : nat) (todo : list chunk_ptr) (s : State)
    : outcome (option chunk_ptr * State) :=
  match todo with
  | [] => Done (None, s)
  | p :: todo =>
    match objects s !! p with
    | None => Undefined
    | Some chunk =>
      if size <? Chunk.m_size chunk then
        let diff := Chunk.m_size chunk - size in
        let '(chunk_complement, s) :=
          new_chunk
            (Chunk.new diff
               (Chunk.m_start chunk + START_STRIDE * Chunk.m_size chunk)) s in
        let s := with_freed (delete i (m_freed_chunks s)) s in
        let s := with_freed (m_freed_chunks s ++ [chunk_complement]) s in
        let s := with_allocated (m_allocated_chunks s ++ [p]) s in
        Done (Some p, s)
      else if Chunk.m_size chunk =? size then
        let s := with_freed (delete i (m_freed_chunks s)) s in
        let s := with_allocated (m_allocated_chunks s ++ [p]) s in
        Done (Some p, s)
      else recycle_from size (S i) todo s
    end
  end.

Definition try_recycle_chunks (size : Z) (s : State)
    : outcome (option chunk_ptr * State) :=
  recycle_from size 0 (m_freed_chunks s) s.

(** *** alloc

    The result is the address returned, 0 for [nullptr].  [alloc_chunk] is the
    part of [alloc] behind the check of the capacity: the request is served
    from a freed chunk or from a new chunk at the end of the used bytes. *)
Definition alloc_chunk (size : Z) (s : State) : outcome (Z * State) :=
  '(reused_chunk, s) ← try_recycle_chunks size s;
  match reused_chunk with
  | Some p =>
    match objects s !! p with
    | None => Undefined
    | Some chunk => Done (Chunk.m_start chunk, record (ReusedChunk chunk) s)
    end
  | None =>
    let chunk := Chunk.new size (m_heap s + m_size s) in
    let '(p, s) := new_chunk chunk s in
    let s := with_size (wrap (m_size s + size)) s in
    let s := with_allocated (m_allocated_chunks s ++ [p]) s in
    Done (Chunk.m_start chunk, record (NewChunk chunk) s)
  end.

Definition alloc (size : Z) (s : State) : outcome (Z * State) :=
  let s := record (AllocStart size) s in
  if decide (size = 0) then
    Done (0, print (OutLine "Heap: Cannot alloc 0B. No bytes allocated.") s)
  else if decide (HEAP_SIZE < wrap (m_size s + size)) then
    s ← collect s;
    (* assert(heap->m_size + size <= HEAP_SIZE && "Heap: Out Of Memory") *)
    if decide (wrap (m_size s + size) ≤ HEAP_SIZE) then alloc_chunk size s
    else Abort "Heap: Out Of Memory"
  else alloc_chunk size s.

(** [init]: [caller_frame] is [__builtin_frame_address(1)]. *)
Definition init (caller_frame : Z) (s : State) : State :=
  with_stack_top caller_frame (record HeapInit s).


(** ** The code for debugging (heap.cpp, [#ifdef DEBUG]) *)

Definition with_profiler_enable (b : bool) (s : State) : State :=
  mkState (m_heap s) (m_size s) (m_allocated_chunks s) (m_freed_chunks s)
    (m_stack_top s) b (objects s) (events s) (cout s).

(** [Heap::set_profiler] *)
Definition set_profiler (mode : bool) (s : State) : State :=
  with_profiler_enable mode s.

(** *** collect(CollectOption flags)

    The header that declares the enumerators of [CollectOption] is missing:
    their values are parameters.  [flags & MARK] is a condition: it holds
    when the two have a bit in common. *)
Variable MARK : Z.
Variable SWEEP : Z.
Variable FREE : Z.

Definition has_flag (flags opt : Z) : bool :=
  negb (Z.land flags opt =? 0).

(** The characters written as [\n] and [\t] in the source. *)
Definition NL : string := String (Ascii.ascii_of_nat 10) EmptyString.
Definition TAB : string := String (Ascii.ascii_of_nat 9) EmptyString.

(** Each value that the code inserts into [cout] is one entry of the output;
    [endl] adds none.  [frame] is [__builtin_frame_address(0)] inside this
    function. *)
Definition collect_flags (frame : Z) (flags : Z) (s : State) : outcome State :=
  let s := set_profiler true s in
  let s := record CollectStart s in
  let s := print (OutLine ("DEBUG COLLECT" +:+ NL +:+ "FLAGS: ")) s in
  let s := if has_flag flags MARK
           then print (OutLine (NL +:+ " - MARK")) s else s in
  let s := if has_flag flags SWEEP
           then print (OutLine (NL +:+ " - SWEEP")) s else s in
  let s := if has_flag flags FREE
           then print (OutLine (NL +:+ " - FREE")) s else s in
  let s := print (OutLine NL) s in
  let s := print (OutLine ("Stack bottom in collect:" +:+ TAB)) s in
  let s := print (OutAddr frame) s in
  let s := print (OutLine NL) s in
  let stack_top := m_stack_top s in
  let s := print (OutLine ("Stack end in collect:" +:+ TAB +:+ " ")) s in
  let s := print (OutAddr stack_top) s in
  let work_list := vector_of (m_allocated_chunks s) in
  s ← (if has_flag flags MARK then
         '(_, s) ← mark frame stack_top work_list s; Done s
       else Done s);
  s ← (if has_flag flags SWEEP then sweep s else Done s);
  if has_flag flags FREE then free s else Done s.

(** *** mark_test

    The worklist of [mark_test] may hold [nullptr], which is [None].  Every
    turn of the loop pops a pointer, and pushes it again only after marking
    its chunk: [fuel] bounds the turns when it is at least twice the length
    of the worklist. *)
Fixpoint mark_test_loop (fuel : nat) (worklist : list (option chunk_ptr))
    (s : State) : outcome (list (option chunk_ptr) * State) :=
  match last worklist with
  | None => Done (worklist, s)
  | Some ref =>
    match fuel with
    | O => OutOfFuel
    | S fuel =>
      let worklist := removelast worklist in
      match ref with
      | None => mark_test_loop fuel worklist s
      | Some child =>
        match objects s !! child with
        | None => Undefined
        | Some chunk =>
          if negb (Chunk.m_marked chunk) then
            let s := set_marked child chunk true s in
            let worklist := worklist ++ [Some child] in
            '(worklist, s) ← mark_test_loop fuel worklist s;
            mark_test_loop fuel worklist s
          else mark_test_loop fuel worklist s
        end
      end
    end
  end.

Definition mark_test (worklist : list (option chunk_ptr)) (s : State)
    : outcome (list (option chunk_ptr) * State) :=
  mark_test_loop (2 * length worklist) worklist s.

(** *** mark_from_roots

    The cast of [*start] to a pointer to a chunk takes a word of the stack
    for the address of a chunk object.  The chunk objects lie on the free
    store, where [new Chunk] put them: [chunk_at a] is the chunk object at
    the address [a], if there is one.  To read [m_marked] through an address
    that holds no chunk object is undefined. *)
Variable chunk_at : Z → option chunk_ptr.

(** The loop [for (; start > end; start--)]; [start] goes down by one word a
    turn. *)
Fixpoint mark_from_roots_loop (fuel : nat) (start end_ : Z)
    (worklist : list (option chunk_ptr)) (s : State) : outcome State :=
  if decide (end_ < start) then
    match fuel with
    | O => OutOfFuel
    | S fuel =>
      if decide (mem start `mod` 8 = 0) then
        if decide (mem start = 0) then
          mark_from_roots_loop fuel (start - WORD_BYTES) end_ worklist s
        else
          match chunk_at (mem start) with
          | None => Undefined
          | Some ref =>
            match objects s !! ref with
            | None => Undefined
            | Some chunk =>
              if negb (Chunk.m_marked chunk) then
                let s := set_marked ref chunk true s in
                let worklist := worklist ++ [Some ref] in
                '(worklist, s) ← mark_test worklist s;
                mark_from_roots_loop fuel (start - WORD_BYTES) end_ worklist s
              else
                mark_from_roots_loop fuel (start - WORD_BYTES) end_ worklist s
            end
          end
      else mark_from_roots_loop fuel (start - WORD_BYTES) end_ worklist s
    end
  else Done s.

Definition mark_from_roots (start end_ : Z) (s : State) : outcome State :=
  mark_from_roots_loop (Z.to_nat (start - end_)) start end_ [] s.

(** ** The size classes of the earlier heap (include/heap.hpp)

    allocator.hpp is missing.  [Heap::getAllocator] uses an allocator through
    [getSize()] only, and the constructor of [Heap] makes each allocator from
    a number: the type of the allocators and the two operations are
    parameters. *)

Section Allocators.

Variable Allocator : Type.
Variable getSize : Allocator → Z.
Variable new_Allocator : Z → Allocator.

(** The allocators that the constructor of [Heap] pushes to [h_allocs]. *)
Definition Heap_h_allocs : list Allocator :=
  [new_Allocator 16; new_Allocator 32; new_Allocator 64; new_Allocator 128;
   new_Allocator 256; new_Allocator 512; new_Allocator 1024].

(** [Heap::getAllocator]: the output written, and the allocator returned or
    the failed [assert(false)]. *)
Fixpoint getAllocator (h_allocs : list Allocator) (size : Z)
    : list output * outcome Allocator :=
  match h_allocs with
  | [] => ([OutLine "Object too big"], Abort "false")
  | alloc :: h_allocs =>
    if size <=? getSize alloc then ([], Done alloc)
    else getAllocator h_allocs size
  end.

End Allocators.

(** ** Predicates of the specification *)

(** The chunk a pointer leads to is marked. *)
Definition is_marked (s : State) (p : chunk_ptr) : bool :=
  match objects s !! p with
  | Some c => Chunk.m_marked c
  | None => false
  end.

(** Every pointer of a list leads to a chunk object. *)
Definition all_live (s : State) (l : list chunk_ptr) : Prop :=
  Forall (λ p, is_Some (objects s !! p)) l.

(** No chunk of [freed] can take a request of [size] bytes. *)
Definition no_fit (size : Z) (s : State) : Prop :=
  Forall (λ p, ∃ c, objects s !! p = Some c ∧ Chunk.m_size c < size)
    (m_freed_chunks s).

(** The address [a] lies in [[c.start, c.start + c.size)]. *)
Definition in_range (c : Chunk.t) (a : Z) : Prop :=
  Chunk.m_start c ≤ a < Chunk.m_start c + Chunk.m_size c.

(** The range of a chunk lies in the address space of the machine. *)
Definition in_address_space (c : Chunk.t) : Prop :=
  0 ≤ Chunk.m_start c ∧ 0 ≤ Chunk.m_size c
  ∧ Chunk.m_start c + Chunk.m_size c < 2 ^ WORD_BITS.

(** [c1] ends where [c2] starts, or below. *)
Definition before (c1 c2 : Chunk.t) : Prop :=
  Chunk.m_start c1 + Chunk.m_size c1 ≤ Chunk.m_start c2.

(** The ranges of two chunks have no address in common. *)
Definition disjoint (c1 c2 : Chunk.t) : Prop := before c1 c2 ∨ before c2 c1.

(** The chunks of a list are chunk objects whose ranges lie in the address
    space, and the ranges of different chunks are disjoint. *)
Definition separate_chunks (s : State) (l : list chunk_ptr) : Prop :=
  all_live s l
  ∧ (∀ p c, p ∈ l → objects s !! p = Some c → in_address_space c)
  ∧ (∀ p q cp cq, p ∈ l → q ∈ l → p ≠ q →
       objects s !! p = Some cp → objects s !! q = Some cq → disjoint cp cq).

(** The representation invariant of the heap: no chunk is twice in the lists,
    every chunk of the lists is a chunk object, and the allocated chunks are
    separate. *)
Definition heap_wf (s : State) : Prop :=
  NoDup (m_allocated_chunks s ++ m_freed_chunks s)
  ∧ all_live s (m_freed_chunks s)
  ∧ separate_chunks s (m_allocated_chunks s).

(** A heap as allocation builds it before the first collection: the region
    lies in the address space, nothing is freed, and every allocated chunk
    lies inside the used bytes of the region. *)
Definition bump_heap (s : State) : Prop :=
  heap_wf s ∧ m_freed_chunks s = []
  ∧ 0 ≤ m_heap s ∧ m_heap s + HEAP_SIZE < 2 ^ WORD_BITS
  ∧ 0 ≤ m_size s ≤ HEAP_SIZE
  ∧ ∀ p c, p ∈ m_allocated_chunks s → objects s !! p = Some c →
           m_heap s ≤ Chunk.m_start c ∧ 0 ≤ Chunk.m_size c
           ∧ Chunk.m_start c + Chunk.m_size c ≤ m_heap s + m_size s.

(** Modelled from the spec: the constructor of [Heap] is missing.  A new heap
    has used no byte of its region, holds no chunk and has no stack top
    yet. *)
Definition new_heap (region : Z) : State :=
  {| m_heap := region; m_size := 0;
     m_allocated_chunks := []; m_freed_chunks := [];
     m_stack_top := 0; m_profiler_enable := false;
     objects := ∅; events := []; cout := [] |}.

(** The members of the heap other than the chunk lists and the counter. *)
Definition same_setup (s s' : State) : Prop :=
  m_heap s' = m_heap s ∧ m_stack_top s' = m_stack_top s
  ∧ m_profiler_enable s' = m_profiler_enable s.

(** [mark] leaves the members of the heap and the output as they are. *)
Definition mark_frame (s s' : State) : Prop :=
  same_setup s s' ∧ m_size s' = m_size s
  ∧ m_allocated_chunks s' = m_allocated_chunks s
  ∧ m_freed_chunks s' = m_freed_chunks s ∧ cout s' = cout s.

(** The chunk objects of [s'] are those of [s], some of them marked since. *)
Definition marks_grow (s s' : State) : Prop :=
  ∀ p, objects s' !! p = objects s !! p
       ∨ ∃ c, objects s !! p = Some c
              ∧ objects s' !! p = Some (Chunk.set_marked true c).

(** The chunk objects of [s'] are those of [s] without the chunks of [l]. *)
Definition deleted (l : list chunk_ptr) (s s' : State) : Prop :=
  ∀ p, objects s' !! p = if decide (p ∈ l) then None else objects s !! p.

(** The chunk objects of [s'] are those of [s], the chunks of [l] not marked. *)
Definition unmarked (l : list chunk_ptr) (s s' : State) : Prop :=
  ∀ p, objects s' !! p =
       if decide (p ∈ l) then Chunk.set_marked false <$> objects s !! p
       else objects s !! p.

(** What [free_overlap] keeps of the chunks behind [prev], in the words of the
    specification: a chunk is kept when it starts at or above the end of the
    last chunk kept. *)
Fixpoint keep_after (o : gmap nat Chunk.t) (prev : Chunk.t) (l : list chunk_ptr)
    : list chunk_ptr :=
  match l with
  | [] => []
  | q :: l =>
    match o !! q with
    | Some next =>
      if decide (Chunk.m_start prev + Chunk.m_size prev ≤ Chunk.m_start next)
      then q :: keep_after o next l
      else keep_after o prev l
    | None => []
    end
  end.

(** The same with the end of the last chunk kept as the code computes it. *)
Fixpoint kept_after (o : gmap nat Chunk.t) (prev : Chunk.t) (l : list chunk_ptr)
    : list chunk_ptr :=
  match l with
  | [] => []
  | q :: l =>
    match o !! q with
    | Some next =>
      if c_end prev <=? Chunk.m_start next
      then q :: kept_after o next l
      else kept_after o prev l
    | None => []
    end
  end.

(** Each chunk of the list ends where the chunks behind it start, or below. *)
Definition ascending (o : gmap nat Chunk.t) (l : list chunk_ptr) : Prop :=
  ∀ i j p q cp cq, (i < j)%nat → l !! i = Some p → l !! j = Some q →
    o !! p = Some cp → o !! q = Some cq → before cp cq.

(** The chunk objects of [s'] are those of [s], the chunks of [l] marked. *)
Definition marked_in (l : list chunk_ptr) (s s' : State) : Prop :=
  ∀ p, objects s' !! p =
       if decide (p ∈ l) then Chunk.set_marked true <$> objects s !! p
       else objects s !! p.

(** The chunk objects of [s'] are those of [s], where of the chunks of [l]
    those not marked are gone and the others are no longer marked. *)
Definition cleaned (l : list chunk_ptr) (s s' : State) : Prop :=
  ∀ p, objects s' !! p =
       if decide (p ∈ l) then
         if is_marked s p then Chunk.set_marked false <$> objects s !! p
         else None
       else objects s !! p.

(** [free] leaves the counter and the allocated chunks as they are. *)
Definition free_frame (s s' : State) : Prop :=
  same_setup s s' ∧ m_size s' = m_size s
  ∧ m_allocated_chunks s' = m_allocated_chunks s.

(** The worklist during [mark], which began as the chunks [S] in [cap] slots:
    no slot was added, every slot holds a chunk of [S], the chunks of [S] are
    separate, and a chunk of [S] that left the worklist is marked. *)
Definition worklist_inv (S : list chunk_ptr) (cap : nat)
    (wl : vector) (s : State) : Prop :=
  length (slots wl) = cap ∧ (finish wl ≤ cap)%nat
  ∧ Forall (λ p, p ∈ S) (slots wl)
  ∧ separate_chunks s S
  ∧ (∀ p, p ∈ S → is_marked s p = true ∨ p ∈ live wl).

(** Every chunk of [S] whose range holds the address [w] is marked. *)
Definition reached (S : list chunk_ptr) (w : Z) (s : State) : Prop :=
  ∀ p c, p ∈ S → objects s !! p = Some c → in_range c w →
         Chunk.m_marked c = true.

(** A call on the worklist [wl] in the state [s] returned: the worklist did
    not grow, its invariant holds, and chunks were marked only. *)
Definition marked_from (S : list chunk_ptr) (cap : nat) (wl : vector) (s : State)
    (r : outcome (vector * State)) : Prop :=
  ∃ wl' s', r = Done (wl', s') ∧ worklist_inv S cap wl' s'
            ∧ marks_grow s s' ∧ (finish wl' ≤ finish wl)%nat.

(** ** States used as examples *)

(** One freed chunk of 256 bytes at address 4096. *)
Definition one_freed_256 : State :=
  {| m_heap := 4096; m_size := 256;
     m_allocated_chunks := []; m_freed_chunks := [0%nat];
     m_stack_top := 1000000; m_profiler_enable := false;
     objects := {[ 0%nat := Chunk.new 256 4096 ]};
     events := []; cout := [] |}.

(** Two allocated chunks of 100 bytes each. *)
Definition two_chunks : State :=
  {| m_heap := 4096; m_size := 200;
     m_allocated_chunks := [0%nat; 1%nat]; m_freed_chunks := [];
     m_stack_top := 100016; m_profiler_enable := false;
     objects := {[ 0%nat := Chunk.new 100 4096; 1%nat := Chunk.new 100 4196 ]};
     events := []; cout := [] |}.

(** A stack from 100000 to 100016 whose second word, at 100008, holds an
    address inside the second of the two chunks; every other word is 0. *)
Definition sample_stack (a : Z) : Z := if decide (a = 100008) then 4200 else 0.

(** The two chunks after the second one was marked. *)
Definition second_marked : State :=
  {| m_heap := 4096; m_size := 200;
     m_allocated_chunks := [0%nat; 1%nat]; m_freed_chunks := [];
     m_stack_top := 100016; m_profiler_enable := false;
     objects := {[ 0%nat := Chunk.new 100 4096;
                   1%nat := Chunk.set_marked true (Chunk.new 100 4196) ]};
     events := []; cout := [] |}.

(** Three freed chunks: 100 bytes at 0, 120 bytes at 50 and 20 bytes at 130;
    the second overlaps the first. *)
Definition three_freed : State :=
  {| m_heap := 0; m_size := 200;
     m_allocated_chunks := []; m_freed_chunks := [0%nat; 1%nat; 2%nat];
     m_stack_top := 100016; m_profiler_enable := false;
     objects := {[ 0%nat := Chunk.new 100 0; 1%nat := Chunk.new 120 50;
                   2%nat := Chunk.new 20 130 ]};
     events := []; cout := [] |}.

(** Two bytes handed out, the profiler at work. *)
Definition two_bytes_profiled : State :=
  {| m_heap := 4096; m_size := 2;
     m_allocated_chunks := [0%nat]; m_freed_chunks := [];
     m_stack_top := 1000000; m_profiler_enable := true;
     objects := {[ 0%nat := Chunk.new 2 4096 ]};
     events := []; cout := [] |}.

(** Two bytes handed out. *)
Definition two_bytes_used : State :=
  {| m_heap := 4096; m_size := 2;
     m_allocated_chunks := [0%nat]; m_freed_chunks := [];
     m_stack_top := 1000000; m_profiler_enable := false;
     objects := {[ 0%nat := Chunk.new 2 4096 ]};
     events := []; cout := [] |}.

(** ** Reachability

    The chunks of [S] that [mark] reaches from the words at [a0], [a0 + 8],
    ... up to [b0]: the chunks around the addresses these words hold, and
    the chunks around the addresses held by the words of a reached chunk [c],
    which are the words at [c.start], [c.start + 8], ... up to
    [c.start + c.size]. *)
Inductive reachable (o : gmap nat Chunk.t) (S : list chunk_ptr) (a0 b0 : Z)
    : chunk_ptr → Prop :=
  | reachable_root k p c :
      0 ≤ k → a0 + WORD_BYTES * k ≤ b0 →
      p ∈ S → o !! p = Some c →
      in_range c (mem (a0 + WORD_BYTES * k)) →
      reachable o S a0 b0 p
  | reachable_step k p c q cq :
      reachable o S a0 b0 p → o !! p = Some c →
      0 ≤ k → WORD_BYTES * k ≤ Chunk.m_size c →
      q ∈ S → o !! q = Some cq →
      in_range cq (mem (Chunk.m_start c + WORD_BYTES * k)) →
      reachable o S a0 b0 q.

(** No chunk of the list is marked. *)
Definition none_marked (s : State) (l : list chunk_ptr) : Prop :=
  ∀ p, p ∈ l → is_marked s p = false.

(** The words of every chunk of [S] that was marked between [s] and [s'] were
    scanned: the chunks of [S] around the addresses they hold are marked. *)
Definition closed_since (S : list chunk_ptr) (s s' : State) : Prop :=
  ∀ p c k, p ∈ S → objects s !! p = Some c → Chunk.m_marked c = false →
    is_marked s' p = true → 0 ≤ k → WORD_BYTES * k ≤ Chunk.m_size c →
    reached S (mem (Chunk.m_start c + WORD_BYTES * k)) s'.

(** What a call of [mark] on a worklist of chunks of [S] has done when it
    returns. *)
Definition mark_post (S : list chunk_ptr) (cap : nat) (wl : vector) (s : State)
    (wl' : vector) (s' : State) : Prop :=
  worklist_inv S cap wl' s' ∧ marks_grow s s'
  ∧ (finish wl' ≤ finish wl)%nat ∧ closed_since S s s'.

(** ** Sequences of requests

    A client that calls [alloc] once for each size of a list, in order, and
    keeps the addresses. *)
Fixpoint alloc_all (sizes : list Z) (s : State) : outcome (list Z * State) :=
  match sizes with
  | [] => Done ([], s)
  | size :: sizes =>
    '(a, s) ← alloc size s;
    '(l, s) ← alloc_all sizes s;
    Done (a :: l, s)
  end.

(** The addresses of blocks of the given sizes laid out one behind the other
    from [base] on. *)
Fixpoint bump_addresses (base : Z) (sizes : list Z) : list Z :=
  match sizes with
  | [] => []
  | size :: sizes => base :: bump_addresses (base + size) sizes
  end.

Definition total_size (sizes : list Z) : Z := foldr Z.add 0 sizes.

(** The profiler is switched off in [s'] as in [s], and has recorded
    nothing in between. *)
Definition silent (s s' : State) : Prop :=
  m_profiler_enable s' = false ∧ events s' = events s.

(** ** The worklist of mark_test *)

(** The chunks of a worklist: its pointers that are not null. *)
Definition chunks_of (worklist : list (option chunk_ptr)) : list chunk_ptr :=
  omap id worklist.

(** The turns that the loop of [mark_test] takes for a pointer: one to pop it
    and, when its chunk is not marked, one more to pop it again. *)
Definition mark_test_turns (s : State) (ref : option chunk_ptr) : nat :=
  match ref with
  | Some p => if is_marked s p then 1 else 2
  | None => 1
  end.

Definition mark_test_work (s : State) (worklist : list (option chunk_ptr))
    : nat :=
  sum_list_with (mark_test_turns s) worklist.

(** ** The words of mark_from_roots *)

(** The word at [a] is the address of the chunk object [p]: it is a multiple
    of 8, not null, and a chunk object lies there. *)
Definition root_word (a : Z) (p : chunk_ptr) : Prop :=
  mem a `mod` 8 = 0 ∧ mem a ≠ 0 ∧ chunk_at (mem a) = Some p.

(** [a] is one of the addresses [start], [start - 8], ... above [end_]. *)
Definition scanned_down (start end_ a : Z) : Prop :=
  ∃ k, 0 ≤ k ∧ a = start - WORD_BYTES * k ∧ end_ < a.

(** ** Results up to the output *)

(** The heap and the log of the profiler, without what was written to
    [cout]. *)
Definition without_cout (s : State) : State := with_cout [] s.

(** The result of a call seen through [f]. *)
Definition modulo {A : Type} (f : A → A) (m : outcome A) : outcome A :=
  a ← m; Done (f a).

(** The result of a call up to the output. *)
Definition heap_of (m : outcome State) : outcome State :=
  modulo without_cout m.

Definition worklist_and_heap_of (m : outcome (vector * State))
    : outcome (vector * State) :=
  modulo (λ r, (r.1, without_cout r.2)) m.

(** ** What the profiler sees *)

(** The events of [sweep] for a list of chunks: one for each chunk that is
    not marked, in the order of the list. *)
Definition swept_events (s : State) (l : list chunk_ptr) : list GCEvent :=
  omap (λ p, match objects s !! p with
             | Some c => if Chunk.m_marked c then None else Some (ChunkSwept c)
             | None => None
             end) l.

(** The events of [free] for a list of chunks that it deletes: one for each
    chunk, from the back of the list to its front. *)
Definition freed_events (s : State) (l : list chunk_ptr) : list GCEvent :=
  omap (λ p, ChunkFreed <$> objects s !! p) (reverse l).

(** ** More examples *)

(** The stack of [sample_stack], and in the second chunk of [two_chunks] a
    word, at 4204, that holds an address inside the first chunk. *)
Definition linked_stack (a : Z) : Z :=
  if decide (a = 100008) then 4200
  else if decide (a = 4204) then 4100 else 0.

(** A free store with the second chunk object of [two_chunks] at the address
    4200. *)
Definition sample_chunk_at (a : Z) : option chunk_ptr :=
  if decide (a = 4200) then Some 1%nat else None.

(** ** A client that asks for 2^64 - 1 bytes *)

(** A new heap at 4096 after [init] from a caller whose frame is at 100016. *)
Definition started_heap : State := init 100016 (new_heap 4096).

(** The heap after requests for 2 bytes and for 2^64 - 1 bytes, which
    returned 4096 and 4098: the counter wrapped around to 1. *)
Definition huge_chunk_heap : State :=
  {| m_heap := 4096; m_size := 1;
     m_allocated_chunks := [0%nat; 1%nat]; m_freed_chunks := [];
     m_stack_top := 100016; m_profiler_enable := false;
     objects := {[ 0%nat := Chunk.new 2 4096;
                   1%nat := Chunk.new (2 ^ 64 - 1) 4098 ]};
     events := []; cout := [] |}.

(** The heap after one more request, for 16 bytes, which returned 4097. *)
Definition wrapped_heap : State :=
  {| m_heap := 4096; m_size := 17;
     m_allocated_chunks := [0%nat; 1%nat; 2%nat]; m_freed_chunks := [];
     m_stack_top := 100016; m_profiler_enable := false;
     objects := {[ 0%nat := Chunk.new 2 4096;
                   1%nat := Chunk.new (2 ^ 64 - 1) 4098;
                   2%nat := Chunk.new 16 4097 ]};
     events := []; cout := [] |}.

(** The same heap after [mark] and [sweep] found no chunk marked. *)
Definition wrapped_heap_swept : State :=
  {| m_heap := 4096; m_size := 17;
     m_allocated_chunks := []; m_freed_chunks := [0%nat; 1%nat; 2%nat];
     m_stack_top := 100016; m_profiler_enable := false;
     objects := {[ 0%nat := Chunk.new 2 4096;
                   1%nat := Chunk.new (2 ^ 64 - 1) 4098;
                   2%nat := Chunk.new 16 4097 ]};
     events := []; cout := [] |}.

(** The stack of a client that keeps the two addresses it got, 4096 in the
    word at 100000 and 4098 in the word at 100008; every other word is 0. *)
Definition pinned_stack (a : Z) : Z :=
  if decide (a = 100000) then 4096
  else if decide (a = 100008) then 4098 else 0.

(** A stack that holds no address of the heap. *)
Definition idle_stack (a : Z) : Z := 0.

(** ** Properties *)

Lemma bind_Done {A B} (m : outcome A) (f : A → outcome B) (b : B) :
  m ≫= f = Done b ↔ ∃ a, m = Done a ∧ f a = Done b.
Proof.
  split.
  - destruct m as [a| | |]; simpl; try discriminate. eauto.
  - intros (a & -> & H). exact H.
Qed.

Lemma record_objects e s : objects (record e s) = objects s.
Proof. unfold record. by destruct (m_profiler_enable s). Qed.

Lemma record_size e s : m_size (record e s) = m_size s.
Proof. unfold record. by destruct (m_profiler_enable s). Qed.

Lemma record_allocated e s :
  m_allocated_chunks (record e s) = m_allocated_chunks s.
Proof. unfold record. by destruct (m_profiler_enable s). Qed.

Lemma record_freed e s : m_freed_chunks (record e s) = m_freed_chunks s.
Proof. unfold record. by destruct (m_profiler_enable s). Qed.

Lemma record_cout e s : cout (record e s) = cout s.
Proof. unfold record. by destruct (m_profiler_enable s). Qed.

Lemma record_setup e s : same_setup s (record e s).
Proof. unfold record, same_setup. by destruct (m_profiler_enable s) eqn:E. Qed.

Lemma record_events e s :
  events (record e s) = events s ++ (if m_profiler_enable s then [e] else []).
Proof.
  unfold record. destruct (m_profiler_enable s); simpl; [done|].
  by rewrite app_nil_r.
Qed.

Ltac simpl_state :=
  repeat (simpl;
          rewrite ?record_size, ?record_allocated, ?record_freed,
            ?record_objects, ?record_cout).

(** *** try_recycle_chunks *)

Lemma recycle_from_none size i todo s s' :
  recycle_from size i todo s = Done (None, s')
  ↔ s' = s ∧ Forall (λ p, ∃ c, objects s !! p = Some c ∧ Chunk.m_size c < size) todo.
Proof.
  revert i. induction todo as [|p todo IH]; intros i; simpl.
  - split.
    + intros [= ->]. by split.
    + by intros [-> _].
  - destruct (objects s !! p) as [chunk|] eqn:Hp.
    + destruct (Z.ltb_spec size (Chunk.m_size chunk)) as [Hlt|Hge].
      * split.
        -- unfold new_chunk. discriminate.
        -- intros [_ HF]. apply Forall_cons in HF as [(c & Hc & ?) _].
           rewrite Hp in Hc. injection Hc as <-. lia.
      * destruct (Z.eqb_spec (Chunk.m_size chunk) size) as [Heq|Hne].
        -- split; [discriminate|].
           intros [_ HF]. apply Forall_cons in HF as [(c & Hc & ?) _].
           rewrite Hp in Hc. injection Hc as <-. lia.
        -- rewrite IH. split; intros [-> HF]; split; try done.
           ++ apply Forall_cons. split; [|done]. exists chunk. split; [done|lia].
           ++ by apply Forall_cons in HF as [_ ?].
    + split; [discriminate|].
      intros [_ HF]. apply Forall_cons in HF as [(c & Hc & ?) _]. congruence.
Qed.

Lemma try_recycle_none size s s' :
  try_recycle_chunks size s = Done (None, s') ↔ s' = s ∧ no_fit size s.
Proof. apply recycle_from_none. Qed.

Lemma recycle_from_live size i todo s :
  Forall (λ p, is_Some (objects s !! p)) todo →
  ∃ r s', recycle_from size i todo s = Done (r, s').
Proof.
  revert i. induction todo as [|p todo IH]; intros i HF; simpl; [by eauto|].
  apply Forall_cons in HF as [[chunk Hp] HF]. rewrite Hp.
  destruct (size <? Chunk.m_size chunk); [unfold new_chunk; by eauto|].
  destruct (Chunk.m_size chunk =? size); by eauto.
Qed.

Lemma recycle_from_size size i todo s r s' :
  recycle_from size i todo s = Done (r, s') → m_size s' = m_size s.
Proof.
  revert i. induction todo as [|p todo IH]; intros i; simpl.
  - by intros [= _ <-].
  - destruct (objects s !! p) as [chunk|]; [|done].
    destruct (size <? Chunk.m_size chunk); [unfold new_chunk; by intros [= _ <-]|].
    destruct (Chunk.m_size chunk =? size); [by intros [= _ <-]|]. apply IH.
Qed.

(** *** alloc: a new chunk *)

Lemma alloc_fresh_chunk size s :
  size ≠ 0 → wrap (m_size s + size) ≤ HEAP_SIZE → no_fit size s →
  ∃ p s', alloc size s = Done (m_heap s + m_size s, s')
    ∧ objects s !! p = None
    ∧ objects s' = <[p := Chunk.new size (m_heap s + m_size s)]> (objects s)
    ∧ m_allocated_chunks s' = m_allocated_chunks s ++ [p]
    ∧ m_freed_chunks s' = m_freed_chunks s
    ∧ m_size s' = wrap (m_size s + size)
    ∧ m_heap s' = m_heap s.
Proof.
  intros Hsize Hcap Hno.
  assert (m_heap (record (AllocStart size) s) = m_heap s) as Hheap
    by apply record_setup.
  exists (fresh (dom (objects s))). eexists. split.
  - unfold alloc. destruct (decide (size = 0)) as [|_]; [done|].
    rewrite record_size. destruct (decide (HEAP_SIZE < _)) as [|_]; [lia|].
    unfold alloc_chunk.
    assert (no_fit size (record (AllocStart size) s)) as Hno'.
    { unfold no_fit. by rewrite record_freed, record_objects. }
    rewrite (proj2 (try_recycle_none size _ _) (conj eq_refl Hno')).
    simpl. rewrite record_objects, Hheap, record_size. reflexivity.
  - simpl_state. repeat split; try done.
    + apply not_elem_of_dom, is_fresh.
    + unfold record at 1. by destruct (m_profiler_enable _).
Qed.

(** C8: [alloc(0)] returns the null address after a line on the output
    stream; the counter, both chunk lists and the chunk objects are as before,
    and the profiler has seen no event of a collection. *)
Theorem alloc_zero_size (s : State) :
  ∃ s', alloc 0 s = Done (0, s')
    ∧ m_size s' = m_size s
    ∧ m_allocated_chunks s' = m_allocated_chunks s
    ∧ m_freed_chunks s' = m_freed_chunks s
    ∧ objects s' = objects s
    ∧ events s' = events s ++ (if m_profiler_enable s then [AllocStart 0] else [])
    ∧ cout s' = cout s ++ [OutLine "Heap: Cannot alloc 0B. No bytes allocated."].
Proof.
  eexists. split; [reflexivity|]. simpl_state.
  by rewrite record_events.
Qed.

(** C10: [try_recycle_chunks] returns null exactly when every freed chunk is
    smaller than the request, and then changes nothing; [alloc] then makes a
    chunk at [m_heap + m_size], appends it to the allocated chunks and returns
    its start. *)
Theorem recycle_null_then_fresh_chunk (size : Z) (s : State) :
  (all_live s (m_freed_chunks s) →
   ∃ r s', try_recycle_chunks size s = Done (r, s')
     ∧ (r = None ↔ ∀ p c, p ∈ m_freed_chunks s → objects s !! p = Some c →
                          Chunk.m_size c < size)
     ∧ (r = None → s' = s))
  ∧ (size ≠ 0 → wrap (m_size s + size) ≤ HEAP_SIZE → no_fit size s →
     ∃ p s', alloc size s = Done (m_heap s + m_size s, s')
       ∧ objects s !! p = None
       ∧ objects s' = <[p := Chunk.new size (m_heap s + m_size s)]> (objects s)
       ∧ m_allocated_chunks s' = m_allocated_chunks s ++ [p]
       ∧ m_freed_chunks s' = m_freed_chunks s
       ∧ m_size s' = wrap (m_size s + size)).
Proof.
  split.
  - intros Hlive.
    destruct (recycle_from_live size 0 _ s Hlive) as (r & s' & Hr).
    exists r, s'. split; [exact Hr|].
    destruct r as [p|].
    + split; [|done]. split; [done|]. intros Hsmall. exfalso.
      assert (no_fit size s) as Hno.
      { unfold no_fit. rewrite Forall_forall. intros q Hq.
        unfold all_live in Hlive. rewrite Forall_forall in Hlive.
        destruct (Hlive q Hq) as [c Hc]. exists c. eauto. }
      pose proof (proj2 (try_recycle_none size s s) (conj eq_refl Hno)) as Hn.
      unfold try_recycle_chunks in Hn. congruence.
    + apply try_recycle_none in Hr as [-> Hno]. split; [|done].
      split; [|done]. intros _ p c Hp Hc.
      unfold no_fit in Hno. rewrite Forall_forall in Hno.
      destruct (Hno p Hp) as (c' & Hc' & ?). congruence.
  - intros Hsize Hcap Hno.
    destruct (alloc_fresh_chunk size s Hsize Hcap Hno)
      as (p & s' & ? & ? & ? & ? & ? & ? & _).
    by exists p, s'.
Qed.

(** *** mark: a rule for invariants

    A property of the worklist and the state that survives the recording of an
    event and the marking of a chunk together with the erasure of its slot
    holds when [mark] returns. *)

Section mark_invariant.

Variable P : vector → State → Prop.

Hypothesis P_record : ∀ wl s e, P wl s → P wl (record e s).

Hypothesis P_mark : ∀ wl wl' s p c it,
  P wl s → slots wl !! it = Some p → objects s !! p = Some c →
  Chunk.m_marked c = false → erase it wl = Done wl' →
  P wl' (set_marked p c true s).

Lemma mark_worklist_invariant rec :
  (∀ a b wl s wl' s', P wl s → rec a b wl s = Done (wl', s') → P wl' s') →
  ∀ w fuel it stop wl s wl' s',
    P wl s → mark_worklist rec w fuel it stop wl s = Done (wl', s') → P wl' s'.
Proof using P_record P_mark.
  intros Hrec w fuel.
  induction fuel as [|fuel IH]; intros it stop wl s wl' s' HP; simpl.
  - destruct (decide (it = stop)); [|done]. by intros [= <- <-].
  - destruct (decide (it = stop)); [by intros [= <- <-]|].
    destruct (slots wl !! it) as [p|] eqn:Hit; [|done].
    destruct (objects s !! p) as [c|] eqn:Hp; [|done].
    destruct (points_into w c); [|by apply IH].
    destruct (Chunk.m_marked c) eqn:Hm; simpl; [by apply IH|].
    intros H. apply bind_Done in H as (wl1 & Herase & H).
    apply bind_Done in H as ([wl2 s2] & Hr & H).
    eapply IH; [|exact H]. eapply Hrec; [|exact Hr].
    eapply P_mark; eauto. by rewrite record_objects.
Qed.

Lemma mark_words_invariant body :
  (∀ a wl s wl' s', P wl s → body a wl s = Done (wl', s') → P wl' s') →
  ∀ fuel start end_ wl s wl' s',
    P wl s → mark_words body fuel start end_ wl s = Done (wl', s') → P wl' s'.
Proof using P_record P_mark.
  intros Hbody fuel.
  induction fuel as [|fuel IH]; intros start end_ wl s wl' s' HP; simpl.
  - destruct (decide (start ≤ end_)); [done|]. by intros [= <- <-].
  - destruct (decide (start ≤ end_)); [|by intros [= <- <-]].
    intros H. apply bind_Done in H as ([wl1 s1] & Hb & H).
    eapply IH; [|exact H]. eapply Hbody; eauto.
Qed.

Lemma mark_rec_invariant depth start end_ wl s wl' s' :
  P wl s → mark_rec depth start end_ wl s = Done (wl', s') → P wl' s'.
Proof using P_record P_mark.
  revert start end_ wl s wl' s'.
  induction depth as [|depth IH]; intros start end_ wl s wl' s' HP; [done|].
  simpl. apply mark_words_invariant; [|by apply P_record].
  intros a wl0 s0 wl0' s0' HP0. apply mark_worklist_invariant; [|done].
  intros ? ? ? ? ? ? ?. by apply IH.
Qed.

End mark_invariant.

(** *** mark: what it leaves alone *)

Lemma mark_frame_refl s : mark_frame s s.
Proof. by repeat split. Qed.

Lemma mark_frame_record s s' e : mark_frame s s' → mark_frame s (record e s').
Proof.
  intros ((? & ? & ?) & ? & ? & ? & ?). destruct (record_setup e s') as (? & ? & ?).
  unfold mark_frame, same_setup. simpl_state. repeat split; congruence.
Qed.

Lemma mark_frame_set_marked s s' p c b :
  mark_frame s s' → mark_frame s (set_marked p c b s').
Proof. done. Qed.

Lemma mark_rec_frame depth start end_ wl s wl' s' :
  mark_rec depth start end_ wl s = Done (wl', s') → mark_frame s s'.
Proof.
  apply (mark_rec_invariant (λ _ s', mark_frame s s')).
  - intros _ s1 e. apply mark_frame_record.
  - intros _ _ s1 p c _ H _ _ _ _. by apply mark_frame_set_marked.
  - apply mark_frame_refl.
Qed.

Lemma marks_grow_refl s : marks_grow s s.
Proof. intros p. by left. Qed.

Lemma marks_grow_trans s1 s2 s3 :
  marks_grow s1 s2 → marks_grow s2 s3 → marks_grow s1 s3.
Proof.
  intros H12 H23 p. destruct (H23 p) as [->|(c & Hc & ->)]; [apply H12|].
  destruct (H12 p) as [H|(c' & Hc' & H)]; rewrite H in Hc.
  - right. eauto.
  - right. exists c'. split; [done|]. by injection Hc as <-.
Qed.

Lemma marks_grow_record s e : marks_grow s (record e s).
Proof. intros p. left. by rewrite record_objects. Qed.

Lemma marks_grow_set_marked s p c :
  objects s !! p = Some c → marks_grow s (set_marked p c true s).
Proof.
  intros Hp q. simpl. destruct (decide (p = q)) as [<-|Hne].
  - right. exists c. by rewrite lookup_insert_eq.
  - left. by rewrite lookup_insert_ne.
Qed.


Lemma marks_grow_marked s s' p :
  marks_grow s s' → is_marked s p = true → is_marked s' p = true.
Proof.
  intros H. unfold is_marked. destruct (H p) as [->|(c & -> & ->)]; done.
Qed.

Lemma marks_grow_live s s' p :
  marks_grow s s' → is_Some (objects s !! p) ↔ is_Some (objects s' !! p).
Proof.
  intros H. destruct (H p) as [->|(c & -> & ->)]; [done|].
  split; intros _; eauto.
Qed.

(** The start and the size of a chunk do not change. *)
Lemma marks_grow_chunk s s' p c' :
  marks_grow s s' → objects s' !! p = Some c' →
  ∃ c, objects s !! p = Some c ∧ Chunk.m_start c' = Chunk.m_start c
       ∧ Chunk.m_size c' = Chunk.m_size c.
Proof.
  intros H Hc'. destruct (H p) as [Heq|(c & Hc & Heq)]; rewrite Heq in Hc'.
  - eauto.
  - injection Hc' as <-. eauto.
Qed.

(** *** Erasure *)

Lemma erase_Done it wl wl' :
  erase it wl = Done wl' →
  (it < finish wl)%nat ∧ finish wl' = (finish wl - 1)%nat
  ∧ slots wl' = take it (slots wl) ++ drop (S it) (take (finish wl) (slots wl))
                ++ drop (finish wl - 1) (slots wl).
Proof.
  unfold erase. destruct (decide (it < finish wl)%nat); [|done].
  by intros [= <-].
Qed.

Lemma erase_length it wl wl' :
  erase it wl = Done wl' → (finish wl ≤ length (slots wl))%nat →
  length (slots wl') = length (slots wl).
Proof.
  intros (Hit & _ & ->)%erase_Done Hfin.
  rewrite !length_app, !length_drop, !length_take. lia.
Qed.

Lemma erase_slots (P : nat → Prop) it wl wl' :
  erase it wl = Done wl' → Forall P (slots wl) → Forall P (slots wl').
Proof.
  intros (_ & _ & ->)%erase_Done HF.
  rewrite !Forall_app. repeat split.
  - by apply Forall_take.
  - by apply Forall_drop, Forall_take.
  - by apply Forall_drop.
Qed.

Lemma erase_live it wl wl' :
  erase it wl = Done wl' → (finish wl ≤ length (slots wl))%nat →
  live wl' = delete it (live wl).
Proof.
  intros (Hit & Hf & Hs)%erase_Done Hfin. unfold live. rewrite Hf, Hs.
  rewrite app_assoc, take_app_length'.
  - rewrite delete_take_drop. f_equal. rewrite take_take. f_equal. lia.
  - rewrite length_app, length_drop, !length_take. lia.
Qed.

Lemma elem_of_delete_ne (l : list nat) i p q :
  l !! i = Some p → q ∈ l → q ≠ p → q ∈ delete i l.
Proof.
  intros Hi Hq Hne. rewrite <- (take_drop_middle l i p Hi) in Hq.
  rewrite delete_take_drop. rewrite elem_of_app, elem_of_cons in Hq.
  rewrite elem_of_app. destruct Hq as [?|[?|?]]; [by left|done|by right].
Qed.

(** *** mark: the chunks it reaches *)

Lemma points_into_range w c :
  in_address_space c → points_into w c = true ↔ in_range c w.
Proof.
  intros (? & ? & ?). unfold points_into, c_end, in_range, wrap.
  rewrite Z.mod_small by lia. rewrite andb_true_iff. lia.
Qed.

Lemma separate_chunks_grow s s' S :
  marks_grow s s' → separate_chunks s S → separate_chunks s' S.
Proof.
  intros Hg (Hlive & Hspace & Hdisj). split; [|split].
  - unfold all_live in *. eapply Forall_impl; [exact Hlive|].
    intros p. simpl. by rewrite (marks_grow_live s s' p Hg).
  - intros p c' Hp Hc'.
    destruct (marks_grow_chunk _ _ _ _ Hg Hc') as (c & Hc & Hs & Hz).
    specialize (Hspace p c Hp Hc). unfold in_address_space in *.
    rewrite Hs, Hz. done.
  - intros p q cp' cq' Hp Hq Hne Hcp' Hcq'.
    destruct (marks_grow_chunk _ _ _ _ Hg Hcp') as (cp & Hcp & Hs & Hz).
    destruct (marks_grow_chunk _ _ _ _ Hg Hcq') as (cq & Hcq & Hs' & Hz').
    specialize (Hdisj p q cp cq Hp Hq Hne Hcp Hcq).
    unfold disjoint, before in *. rewrite Hs, Hz, Hs', Hz'. done.
Qed.

Lemma worklist_inv_record S cap wl s e :
  worklist_inv S cap wl s → worklist_inv S cap wl (record e s).
Proof.
  intros (? & ? & ? & Hsep & Hcov).
  split; [done|split; [done|split; [done|split]]].
  - eapply separate_chunks_grow; [apply marks_grow_record|done].
  - intros p Hp. unfold is_marked. rewrite record_objects. by apply Hcov.
Qed.

Lemma worklist_inv_mark S cap wl wl' s p c it :
  worklist_inv S cap wl s → slots wl !! it = Some p →
  objects s !! p = Some c → erase it wl = Done wl' →
  worklist_inv S cap wl' (set_marked p c true s).
Proof.
  intros (Hlen & Hfin & Hin & Hsep & Hcov) Hit Hp Herase.
  assert (marks_grow s (set_marked p c true s)) as Hg
    by by apply marks_grow_set_marked.
  pose proof (erase_Done _ _ _ Herase) as (Hlt & Hf & _).
  split; [|split; [|split; [|split]]].
  - rewrite <- Hlen. apply (erase_length it); [done|lia].
  - lia.
  - by apply (erase_slots _ it wl).
  - by eapply separate_chunks_grow.
  - intros q Hq. destruct (decide (q = p)) as [->|Hne].
    + left. unfold is_marked. simpl. by rewrite lookup_insert_eq.
    + destruct (Hcov q Hq) as [Hm|Hl].
      * left. by eapply marks_grow_marked.
      * right. rewrite (erase_live it wl wl' Herase) by lia.
        apply (elem_of_delete_ne (live wl) it p q); [|done..].
        unfold live. rewrite lookup_take_lt; done.
Qed.

Lemma mark_worklist_stop rec w fuel stop wl s :
  mark_worklist rec w fuel stop stop wl s = Done (wl, s).
Proof. destruct fuel; simpl; by rewrite decide_True. Qed.

Lemma mark_worklist_step rec w fuel it stop wl s p c :
  it ≠ stop → slots wl !! it = Some p → objects s !! p = Some c →
  mark_worklist rec w (S fuel) it stop wl s =
    if points_into w c then
      if negb (Chunk.m_marked c) then
        wl1 ← erase it wl;
        '(wl2, s2) ← rec (Chunk.m_start c) (c_end c) wl1
                       (set_marked p c true (record (ChunkMarked c) s));
        mark_worklist rec w fuel it stop wl2 s2
      else mark_worklist rec w fuel (S it) stop wl s
    else mark_worklist rec w fuel (S it) stop wl s.
Proof. intros Hne Hslot Hc. simpl. by rewrite decide_False, Hslot, Hc. Qed.

Section mark_reaches.

Variable S : list chunk_ptr.
Variable cap : nat.

Lemma reached_grow w s s' : marks_grow s s' → reached S w s → reached S w s'.
Proof.
  intros Hg Hr p c' Hp Hc' Hin.
  destruct (Hg p) as [Heq|(c & Hc & Heq)]; rewrite Heq in Hc'.
  - by eapply Hr.
  - by injection Hc' as <-.
Qed.

(** No live slot of the worklist holds a chunk around [w]: the chunks of [S]
    around [w] have left the worklist, and are marked. *)
Lemma scan_complete wl s w :
  worklist_inv S cap wl s →
  (∀ j p c, (j < finish wl)%nat → slots wl !! j = Some p →
            objects s !! p = Some c → ¬ in_range c w) →
  reached S w s.
Proof.
  intros (_ & _ & _ & _ & Hcov) Hnone p c Hp Hc Hin.
  destruct (Hcov p Hp) as [Hm|Hl].
  - unfold is_marked in Hm. by rewrite Hc in Hm.
  - unfold live in Hl. apply elem_of_take in Hl as (j & Hj & Hlt).
    exfalso. by eapply Hnone.
Qed.

(** Separate chunks: at most one chunk of [S] lies around [w]. *)
Lemma unique_owner s w p c :
  separate_chunks s S → p ∈ S → objects s !! p = Some c → in_range c w →
  Chunk.m_marked c = true → reached S w s.
Proof.
  intros (_ & _ & Hdisj) Hp Hc Hin Hm q cq Hq Hcq Hinq.
  destruct (decide (q = p)) as [->|Hne]; [congruence|].
  destruct (Hdisj q p cq c Hq Hp Hne Hcq Hc) as [H|H];
    unfold before, in_range in *; lia.
Qed.

Lemma mark_worklist_reaches rec D w :
  (∀ a b wl s, worklist_inv S cap wl s → (finish wl < D)%nat →
               marked_from S cap wl s (rec a b wl s)) →
  ∀ fuel it stop wl s,
    worklist_inv S cap wl s → (it ≤ stop)%nat → (stop ≤ cap)%nat →
    (finish wl ≤ D)%nat → (stop - it + finish wl ≤ fuel)%nat →
    (finish wl = stop
     ∧ ∀ j p c, (j < it)%nat → slots wl !! j = Some p →
                objects s !! p = Some c → ¬ in_range c w)
    ∨ reached S w s →
    ∃ wl' s', mark_worklist rec w fuel it stop wl s = Done (wl', s')
      ∧ worklist_inv S cap wl' s' ∧ marks_grow s s'
      ∧ (finish wl' ≤ finish wl)%nat ∧ reached S w s'.
Proof.
  intros Hrec fuel.
  induction fuel as [|fuel IH]; intros it stop wl s Hinv Hit Hstop HD Hfuel Hphase.
  { assert (it = stop) as -> by lia. rewrite mark_worklist_stop.
    exists wl, s. repeat (split; [done || apply marks_grow_refl|]).
    destruct Hphase as [[Hf Hnone]|Hr]; [|done].
    apply (scan_complete wl); [done|]. by rewrite Hf. }
  destruct (decide (it = stop)) as [->|Hne].
  { rewrite mark_worklist_stop.
    exists wl, s. repeat (split; [done || apply marks_grow_refl|]).
    destruct Hphase as [[Hf Hnone]|Hr]; [|done].
    apply (scan_complete wl); [done|]. by rewrite Hf. }
  pose proof Hinv as (Hlen & Hfin & Hin & Hsep & Hcov).
  destruct (slots wl !! it) as [p|] eqn:Hslot.
  2: { apply lookup_ge_None in Hslot. lia. }
  assert (p ∈ S) as HpS.
  { rewrite Forall_forall in Hin. apply Hin. by eapply list_elem_of_lookup_2. }
  destruct (objects s !! p) as [c|] eqn:Hc.
  2: { destruct Hsep as (Hlive & _). unfold all_live in Hlive.
       rewrite Forall_forall in Hlive. destruct (Hlive p HpS). congruence. }
  assert (in_address_space c) as Hsp by (by eapply Hsep).
  rewrite (mark_worklist_step _ _ _ _ _ _ _ p c) by done.
  destruct (points_into w c) eqn:Hpt.
  - apply points_into_range in Hpt; [|done].
    destruct (Chunk.m_marked c) eqn:Hm; simpl.
    + destruct (IH (Datatypes.S it) stop wl s) as (wl' & s' & ?); try done; try lia.
      * right. by eapply unique_owner.
      * by exists wl', s'.
    + destruct Hphase as [[Hf Hnone]|Hr].
      2: { specialize (Hr p c HpS Hc Hpt). congruence. }
      destruct (erase it wl) as [wl1| | |] eqn:Herase.
      2-4: unfold erase in Herase; rewrite decide_True in Herase by lia; done.
      pose proof (erase_Done _ _ _ Herase) as (_ & Hf1 & _).
      set (s1 := record (ChunkMarked c) s).
      assert (worklist_inv S cap wl1 (set_marked p c true s1)) as Hinv1.
      { eapply worklist_inv_mark; [by apply worklist_inv_record|done| |done].
        unfold s1. by rewrite record_objects. }
      assert (marks_grow s (set_marked p c true s1)) as Hg1.
      { eapply marks_grow_trans; [apply (marks_grow_record s (ChunkMarked c))|].
        apply marks_grow_set_marked. unfold s1. by rewrite record_objects. }
      destruct (Hrec (Chunk.m_start c) (c_end c) wl1 _ Hinv1)
        as (wl2 & s2 & Hr2 & Hinv2 & Hg2 & Hf2); [lia|].
      simpl. rewrite Hr2. simpl.
      destruct (IH it stop wl2 s2) as (wl' & s' & He & Hinv' & Hg' & Hf' & Hr');
        try done; try lia.
      * right. apply (reached_grow _ (set_marked p c true s1)); [done|].
        apply (unique_owner _ _ p (Chunk.set_marked true c)); try done.
        -- by destruct Hinv1 as (_ & _ & _ & ? & _).
        -- simpl. by rewrite lookup_insert_eq.
      * exists wl', s'. split; [done|]. split; [done|].
        split; [|split; [lia|done]].
        eapply marks_grow_trans; [exact Hg1|].
        eapply marks_grow_trans; [exact Hg2|exact Hg'].
  - assert (¬ in_range c w) as Hout.
    { intros Hr. apply points_into_range in Hr; [congruence|done]. }
    destruct (IH (Datatypes.S it) stop wl s) as (wl' & s' & ?); try done; try lia.
    + destruct Hphase as [[Hf Hnone]|Hr]; [left|by right].
      split; [done|]. intros j q cq Hj Hq Hcq.
      destruct (decide (j = it)) as [->|]; [congruence|].
      eapply Hnone; [|done..]. lia.
    + by exists wl', s'.
Qed.

End mark_reaches.

(** *** mark: every word of the range *)

Lemma words_between_step start end_ :
  start ≤ end_ →
  words_between start end_ = S (words_between (start + WORD_BYTES) end_).
Proof.
  intros Hle. unfold words_between, WORD_BYTES.
  replace (end_ - (start + 8)) with ((end_ - start) + (-1) * 8) by lia.
  rewrite Z.div_add by lia.
  assert (0 ≤ (end_ - start) `div` 8) by (apply Z.div_pos; lia).
  rewrite <- Z2Nat.inj_succ by lia. f_equal. lia.
Qed.

Lemma words_between_none start end_ :
  ¬ start ≤ end_ → words_between start end_ = 0%nat.
Proof.
  intros Hgt. unfold words_between, WORD_BYTES.
  assert ((end_ - start) `div` 8 < 0) by (apply Z.div_lt_upper_bound; lia).
  lia.
Qed.

Section mark_range.

Variable S : list chunk_ptr.
Variable cap : nat.

Lemma mark_words_reaches body D :
  (∀ a wl s, worklist_inv S cap wl s → (finish wl ≤ D)%nat →
     ∃ wl' s', body a wl s = Done (wl', s') ∧ worklist_inv S cap wl' s'
       ∧ marks_grow s s' ∧ (finish wl' ≤ finish wl)%nat
       ∧ reached S (mem a) s') →
  ∀ fuel start end_ wl s,
    worklist_inv S cap wl s → (finish wl ≤ D)%nat →
    (words_between start end_ ≤ fuel)%nat →
    ∃ wl' s', mark_words body fuel start end_ wl s = Done (wl', s')
      ∧ worklist_inv S cap wl' s' ∧ marks_grow s s'
      ∧ (finish wl' ≤ finish wl)%nat
      ∧ ∀ k, 0 ≤ k → start + WORD_BYTES * k ≤ end_ →
             reached S (mem (start + WORD_BYTES * k)) s'.
Proof.
  intros Hbody fuel.
  induction fuel as [|fuel IH]; intros start end_ wl s Hinv HD Hfuel; simpl.
  - destruct (decide (start ≤ end_)) as [Hle|Hgt].
    { rewrite words_between_step in Hfuel by done. lia. }
    exists wl, s. repeat (split; [done || apply marks_grow_refl|]).
    intros k Hk Hend. unfold WORD_BYTES in *. lia.
  - destruct (decide (start ≤ end_)) as [Hle|Hgt].
    + destruct (Hbody start wl s Hinv HD)
        as (wl1 & s1 & -> & Hinv1 & Hg1 & Hf1 & Hr1). simpl.
      rewrite words_between_step in Hfuel by done.
      destruct (IH (start + WORD_BYTES) end_ wl1 s1)
        as (wl' & s' & He & Hinv' & Hg' & Hf' & Hr'); [done|lia|lia|].
      exists wl', s'. split; [done|]. split; [done|].
      split; [by eapply marks_grow_trans|]. split; [lia|].
      intros k Hk Hend. destruct (decide (k = 0)) as [->|Hk0].
      * rewrite Z.mul_0_r, Z.add_0_r. by eapply reached_grow.
      * replace (start + WORD_BYTES * k)
          with (start + WORD_BYTES + WORD_BYTES * (k - 1)) by lia.
        apply Hr'; lia.
    + exists wl, s. repeat (split; [done || apply marks_grow_refl|]).
      intros k Hk Hend. unfold WORD_BYTES in *. lia.
Qed.

Lemma mark_rec_reaches depth :
  ∀ start end_ wl s,
    worklist_inv S cap wl s → (finish wl < depth)%nat →
    ∃ wl' s', mark_rec depth start end_ wl s = Done (wl', s')
      ∧ worklist_inv S cap wl' s' ∧ marks_grow s s'
      ∧ (finish wl' ≤ finish wl)%nat
      ∧ ∀ k, 0 ≤ k → start + WORD_BYTES * k ≤ end_ →
             reached S (mem (start + WORD_BYTES * k)) s'.
Proof.
  induction depth as [|depth IH]; intros start end_ wl s Hinv Hdepth; [lia|].
  simpl.
  destruct (mark_words_reaches
              (λ a wl s, mark_worklist (mark_rec depth) (mem a)
                           (2 * finish wl) 0 (finish wl) wl s)
              depth) with (fuel := words_between start end_)
              (start := start) (end_ := end_) (wl := wl)
              (s := record MarkStart s)
    as (wl' & s' & He & Hinv' & Hg' & Hf' & Hr').
  - intros a wl0 s0 Hinv0 HD0.
    apply (mark_worklist_reaches S cap (mark_rec depth) depth); try done; try lia.
    + intros a0 b0 wl1 s1 Hinv1 HD1.
      destruct (IH a0 b0 wl1 s1 Hinv1 HD1) as (wl2 & s2 & ? & ? & ? & ? & _).
      by exists wl2, s2.
    + by destruct Hinv0 as (_ & ? & _).
    + left. split; [done|]. intros j ? ? Hj. lia.
  - by apply worklist_inv_record.
  - lia.
  - done.
  - exists wl', s'. split; [done|]. split; [done|]. split; [|done].
    eapply marks_grow_trans; [apply (marks_grow_record s MarkStart)|done].
Qed.

End mark_range.

Lemma worklist_inv_start S s :
  separate_chunks s S → worklist_inv S (length S) (vector_of S) s.
Proof.
  intros Hsep. split; [done|]. split; [done|]. split; [|split; [done|]].
  - by apply Forall_forall.
  - intros p Hp. right. unfold live. simpl. by rewrite firstn_all.
Qed.

(** [mark] over separate chunks returns, and every chunk around a word of the
    range is marked then. *)
Lemma mark_reaches S start end_ s :
  separate_chunks s S →
  ∃ wl' s', mark start end_ (vector_of S) s = Done (wl', s')
    ∧ marks_grow s s'
    ∧ ∀ k, 0 ≤ k → start + WORD_BYTES * k ≤ end_ →
           reached S (mem (start + WORD_BYTES * k)) s'.
Proof.
  intros Hsep. unfold mark.
  destruct (mark_rec_reaches S (length S) (Datatypes.S (finish (vector_of S)))
              start end_ (vector_of S) s)
    as (wl' & s' & He & _ & Hg & _ & Hr).
  - by apply worklist_inv_start.
  - lia.
  - by exists wl', s'.
Qed.

(** *** mark: the bounds of the model are never reached *)

Lemma mark_rec_finish depth start end_ wl s wl' s' :
  mark_rec depth start end_ wl s = Done (wl', s') →
  (finish wl' ≤ finish wl)%nat.
Proof.
  apply (mark_rec_invariant (λ wl' _, (finish wl' ≤ finish wl)%nat)).
  - done.
  - intros wl0 wl1 _ _ _ it H _ _ _ (_ & Hf & _)%erase_Done. lia.
  - done.
Qed.

Lemma mark_worklist_finish rec w :
  (∀ a b wl s wl' s',
     rec a b wl s = Done (wl', s') → (finish wl' ≤ finish wl)%nat) →
  ∀ fuel it stop wl s wl' s',
    mark_worklist rec w fuel it stop wl s = Done (wl', s') →
    (finish wl' ≤ finish wl)%nat.
Proof.
  intros Hrec fuel it stop wl s wl' s'.
  apply (mark_worklist_invariant (λ wl' _, (finish wl' ≤ finish wl)%nat)).
  - done.
  - intros wl0 wl1 _ _ _ it0 H _ _ _ (_ & Hf & _)%erase_Done. lia.
  - intros a b wl0 s0 wl1 s1 H Hr. apply Hrec in Hr. lia.
  - done.
Qed.

Lemma mark_worklist_fuel rec D w :
  (∀ a b wl s, (finish wl < D)%nat → rec a b wl s ≠ OutOfFuel) →
  (∀ a b wl s wl' s',
     rec a b wl s = Done (wl', s') → (finish wl' ≤ finish wl)%nat) →
  ∀ fuel it stop wl s,
    (it ≤ stop)%nat → (stop - it + finish wl ≤ fuel)%nat →
    (finish wl ≤ D)%nat →
    mark_worklist rec w fuel it stop wl s ≠ OutOfFuel.
Proof.
  intros Hrec Hfin fuel.
  induction fuel as [|fuel IH]; intros it stop wl s Hit Hfuel HD.
  { assert (it = stop) as -> by lia. by rewrite mark_worklist_stop. }
  destruct (decide (it = stop)) as [->|Hne]; [by rewrite mark_worklist_stop|].
  simpl. rewrite decide_False by done.
  destruct (slots wl !! it) as [p|]; [|done].
  destruct (objects s !! p) as [c|]; [|done].
  destruct (points_into w c); [|apply IH; lia].
  destruct (Chunk.m_marked c); simpl; [apply IH; lia|].
  destruct (erase it wl) as [wl1| | |] eqn:Herase; simpl; try done.
  2: { unfold erase in Herase. by destruct (decide (it < finish wl)%nat). }
  pose proof (erase_Done _ _ _ Herase) as (Hlt & Hf1 & _).
  destruct (rec _ _ wl1 _) as [[wl2 s2]| | |] eqn:Hr; simpl; try done.
  - apply Hfin in Hr. apply IH; lia.
  - apply Hrec in Hr; [done|lia].
Qed.

Lemma mark_words_fuel body D :
  (∀ a wl s, (finish wl ≤ D)%nat → body a wl s ≠ OutOfFuel) →
  (∀ a wl s wl' s',
     body a wl s = Done (wl', s') → (finish wl' ≤ finish wl)%nat) →
  ∀ fuel start end_ wl s,
    (words_between start end_ ≤ fuel)%nat → (finish wl ≤ D)%nat →
    mark_words body fuel start end_ wl s ≠ OutOfFuel.
Proof.
  intros Hbody Hfin fuel.
  induction fuel as [|fuel IH]; intros start end_ wl s Hfuel HD; simpl.
  - destruct (decide (start ≤ end_)); [|done].
    rewrite words_between_step in Hfuel by done. lia.
  - destruct (decide (start ≤ end_)); [|done].
    rewrite words_between_step in Hfuel by done.
    destruct (body start wl s) as [[wl1 s1]| | |] eqn:Hb; simpl; try done.
    + apply Hfin in Hb. apply IH; lia.
    + by apply Hbody in Hb.
Qed.

Lemma mark_rec_fuel depth start end_ wl s :
  (finish wl < depth)%nat → mark_rec depth start end_ wl s ≠ OutOfFuel.
Proof.
  revert start end_ wl s.
  induction depth as [|depth IH]; intros start end_ wl s Hdepth; [lia|].
  simpl. apply (mark_words_fuel _ depth); [| |done|lia].
  - intros a wl0 s0 HD.
    apply (mark_worklist_fuel _ depth); [|apply mark_rec_finish|lia..].
    intros. by apply IH.
  - intros a wl0 s0 wl' s'. apply mark_worklist_finish, mark_rec_finish.
Qed.

(** [mark] never stops for want of fuel. *)
Lemma mark_total start end_ wl s : mark start end_ wl s ≠ OutOfFuel.
Proof. apply mark_rec_fuel. lia. Qed.

(** *** mark: the recursive call

    A larger bound on the depth changes nothing, so that [mark] calls
    itself. *)

Lemma mark_worklist_ext rec1 rec2 D w :
  (∀ a b wl s, (finish wl < D)%nat → rec1 a b wl s = rec2 a b wl s) →
  (∀ a b wl s wl' s',
     rec1 a b wl s = Done (wl', s') → (finish wl' ≤ finish wl)%nat) →
  ∀ fuel it stop wl s,
    (finish wl ≤ D)%nat →
    mark_worklist rec1 w fuel it stop wl s
    = mark_worklist rec2 w fuel it stop wl s.
Proof.
  intros Hrec Hfin fuel.
  induction fuel as [|fuel IH]; intros it stop wl s HD; simpl; [done|].
  destruct (decide (it = stop)); [done|].
  destruct (slots wl !! it) as [p|]; [|done].
  destruct (objects s !! p) as [c|]; [|done].
  destruct (points_into w c); [|by apply IH].
  destruct (Chunk.m_marked c); simpl; [by apply IH|].
  destruct (erase it wl) as [wl1| | |] eqn:Herase; simpl; try done.
  pose proof (erase_Done _ _ _ Herase) as (Hlt & Hf1 & _).
  rewrite <- Hrec by lia.
  destruct (rec1 _ _ wl1 _) as [[wl2 s2]| | |] eqn:Hr; simpl; try done.
  apply Hfin in Hr. apply IH. lia.
Qed.

Lemma mark_words_ext body1 body2 D :
  (∀ a wl s, (finish wl ≤ D)%nat → body1 a wl s = body2 a wl s) →
  (∀ a wl s wl' s',
     body1 a wl s = Done (wl', s') → (finish wl' ≤ finish wl)%nat) →
  ∀ fuel start end_ wl s,
    (finish wl ≤ D)%nat →
    mark_words body1 fuel start end_ wl s
    = mark_words body2 fuel start end_ wl s.
Proof.
  intros Hbody Hfin fuel.
  induction fuel as [|fuel IH]; intros start end_ wl s HD; simpl; [done|].
  destruct (decide (start ≤ end_)); [|done].
  rewrite <- Hbody by done.
  destruct (body1 start wl s) as [[wl1 s1]| | |] eqn:Hb; simpl; try done.
  apply Hfin in Hb. apply IH. lia.
Qed.

Lemma mark_rec_ext d1 :
  ∀ d2 start end_ wl s,
    (finish wl < d1)%nat → (finish wl < d2)%nat →
    mark_rec d1 start end_ wl s = mark_rec d2 start end_ wl s.
Proof.
  induction d1 as [|d1 IH]; intros d2 start end_ wl s H1 H2; [lia|].
  destruct d2 as [|d2]; [lia|]. simpl.
  apply (mark_words_ext _ _ (finish wl)); [| |done].
  - intros a wl0 s0 HD.
    apply (mark_worklist_ext _ _ (finish wl)); [|apply mark_rec_finish|done].
    intros a0 b0 wl1 s1 Hlt. apply IH; lia.
  - intros a wl0 s0 wl' s'. apply mark_worklist_finish, mark_rec_finish.
Qed.

(** The equation of the source: the body of [mark], with [mark] itself as the
    recursive call. *)
Lemma mark_unfold start end_ wl s :
  mark start end_ wl s =
    mark_words
      (λ a wl s, mark_worklist mark (mem a) (2 * finish wl) 0 (finish wl) wl s)
      (words_between start end_) start end_ wl (record MarkStart s).
Proof.
  unfold mark at 1. simpl.
  apply (mark_words_ext _ _ (finish wl)); [| |done].
  - intros a wl0 s0 HD.
    apply (mark_worklist_ext _ _ (finish wl)); [|apply mark_rec_finish|done].
    intros a0 b0 wl1 s1 Hlt. unfold mark. apply mark_rec_ext; lia.
  - intros a wl0 s0 wl' s'. apply mark_worklist_finish, mark_rec_finish.
Qed.

(** *** mark: the edge cases *)



Lemma mark_empty_range start end_ wl s :
  end_ < start → mark start end_ wl s = Done (wl, record MarkStart s).
Proof.
  intros Hlt. rewrite mark_unfold.
  destruct (words_between start end_); simpl; by rewrite decide_False by lia.
Qed.

(** *** sweep *)

Lemma set_marked_same b c : Chunk.m_marked c = b → Chunk.set_marked b c = c.
Proof. destruct c. simpl. by intros ->. Qed.

Lemma filter_marked_ext s s' b (l : list nat) :
  (∀ q, q ∈ l → is_marked s' q = is_marked s q) →
  filter (λ p, is_marked s' p = b) l = filter (λ p, is_marked s p = b) l.
Proof.
  induction l as [|q l IH]; intros Heq; [done|].
  rewrite !filter_cons, Heq by apply list_elem_of_here.
  rewrite IH; [done|]. intros q' Hq'. apply Heq. by apply list_elem_of_further.
Qed.

Lemma all_live_cons s p l :
  all_live s (p :: l) ↔ is_Some (objects s !! p) ∧ all_live s l.
Proof. unfold all_live. by rewrite Forall_cons. Qed.

Lemma all_live_objects s s' l :
  (∀ p, p ∈ l → is_Some (objects s !! p) → is_Some (objects s' !! p)) →
  all_live s l → all_live s' l.
Proof.
  unfold all_live. rewrite !Forall_forall. intros H Hl p Hp. by apply H, Hl.
Qed.

Lemma sweep_loop_spec todo :
  ∀ kept s,
    NoDup todo → all_live s todo → m_allocated_chunks s = kept ++ todo →
    ∃ s', sweep_loop kept todo s = Done s'
      ∧ m_allocated_chunks s'
        = kept ++ filter (λ p, is_marked s p = true) todo
      ∧ m_freed_chunks s'
        = m_freed_chunks s ++ filter (λ p, is_marked s p = false) todo
      ∧ unmarked todo s s'
      ∧ same_setup s s' ∧ m_size s' = m_size s ∧ cout s' = cout s.
Proof.
  induction todo as [|p todo IH]; intros kept s Hnd Hlive Halloc; simpl.
  { exists s. rewrite filter_nil, !app_nil_r. rewrite app_nil_r in Halloc.
    by repeat split. }
  apply NoDup_cons in Hnd as [Hp Hnd].
  apply all_live_cons in Hlive as [[c Hc] Hlive]. rewrite Hc.
  destruct (Chunk.m_marked c) eqn:Hm.
  - set (s1 := set_marked p c false s).
    assert (∀ q, q ≠ p → objects s1 !! q = objects s !! q) as Hother.
    { intros q Hq. simpl. by rewrite lookup_insert_ne. }
    destruct (IH (kept ++ [p]) s1) as (s' & He & Ha & Hf & Hu & Hs & Hz & Ho).
    + done.
    + eapply all_live_objects; [|exact Hlive]. intros q Hq.
      rewrite Hother; [done|]. by intros ->.
    + simpl. by rewrite Halloc, <- app_assoc.
    + exists s'. split; [done|].
      assert (∀ b, filter (λ q, is_marked s1 q = b) todo
                   = filter (λ q, is_marked s q = b) todo) as Hfilter.
      { intros b. apply filter_marked_ext. intros q Hq. unfold is_marked.
        rewrite Hother; [done|]. by intros ->. }
      rewrite Hfilter in Ha, Hf.
      split; [|split; [|split; [|done]]].
      * rewrite filter_cons_True by (unfold is_marked; by rewrite Hc).
        by rewrite Ha, <- app_assoc.
      * rewrite filter_cons_False by (unfold is_marked; rewrite Hc; congruence).
        done.
      * intros q. rewrite (Hu q). destruct (decide (q = p)) as [->|Hne].
        -- rewrite decide_False by done.
           rewrite decide_True by apply list_elem_of_here.
           simpl. by rewrite lookup_insert_eq, Hc.
        -- rewrite Hother by done.
           destruct (decide (q ∈ todo)).
           ++ by rewrite decide_True by by apply list_elem_of_further.
           ++ by rewrite decide_False by by apply not_elem_of_cons.
  - set (s1 := with_allocated (kept ++ todo)
                 (with_freed (m_freed_chunks (record (ChunkSwept c) s) ++ [p])
                    (record (ChunkSwept c) s))).
    assert (objects s1 = objects s) as Hobj by (unfold s1; by simpl_state).
    destruct (IH kept s1) as (s' & He & Ha & Hf & Hu & Hs & Hz & Ho).
    + done.
    + eapply all_live_objects; [|exact Hlive]. intros q _.
      by rewrite Hobj.
    + done.
    + exists s'. split; [done|].
      assert (∀ b, filter (λ q, is_marked s1 q = b) todo
                   = filter (λ q, is_marked s q = b) todo) as Hfilter.
      { intros b. apply filter_marked_ext. intros q Hq. unfold is_marked.
        by rewrite Hobj. }
      rewrite Hfilter in Ha, Hf.
      split; [|split; [|split; [|split; [|split]]]].
      * rewrite filter_cons_False by (unfold is_marked; rewrite Hc; congruence).
        done.
      * rewrite filter_cons_True by (unfold is_marked; by rewrite Hc).
        rewrite Hf. unfold s1. simpl_state. by rewrite <- app_assoc.
      * intros q. rewrite (Hu q), Hobj. destruct (decide (q = p)) as [->|Hne].
        -- rewrite decide_False by done.
           rewrite decide_True by apply list_elem_of_here.
           rewrite Hc. simpl. by rewrite set_marked_same.
        -- destruct (decide (q ∈ todo)).
           ++ by rewrite decide_True by by apply list_elem_of_further.
           ++ by rewrite decide_False by by apply not_elem_of_cons.
      * destruct Hs as (? & ? & ?).
        destruct (record_setup (ChunkSwept c) s) as (? & ? & ?).
        unfold same_setup. unfold s1 in *. simpl in *. repeat split; congruence.
      * rewrite Hz. unfold s1. by simpl_state.
      * rewrite Ho. unfold s1. by simpl_state.
Qed.

Lemma sweep_spec s :
  NoDup (m_allocated_chunks s) → all_live s (m_allocated_chunks s) →
  ∃ s', sweep s = Done s'
    ∧ m_allocated_chunks s'
      = filter (λ p, is_marked s p = true) (m_allocated_chunks s)
    ∧ m_freed_chunks s'
      = m_freed_chunks s
        ++ filter (λ p, is_marked s p = false) (m_allocated_chunks s)
    ∧ unmarked (m_allocated_chunks s) s s'
    ∧ same_setup s s' ∧ m_size s' = m_size s ∧ cout s' = cout s.
Proof. intros Hnd Hlive. by apply (sweep_loop_spec _ [] s). Qed.

(** [sweep], when it returns, has left the counter alone. *)
Lemma sweep_loop_size todo :
  ∀ kept s s', sweep_loop kept todo s = Done s' → m_size s' = m_size s.
Proof.
  induction todo as [|p todo IH]; intros kept s s'; simpl.
  - by intros [= <-].
  - destruct (objects s !! p) as [c|]; [|done].
    destruct (Chunk.m_marked c); intros H%IH; rewrite H; by simpl_state.
Qed.

(** *** free: the drain *)

Lemma free_frame_refl s : free_frame s s.
Proof. by repeat split. Qed.

Lemma free_frame_trans s1 s2 s3 :
  free_frame s1 s2 → free_frame s2 s3 → free_frame s1 s3.
Proof.
  intros ((? & ? & ?) & ? & ?) ((? & ? & ?) & ? & ?).
  unfold free_frame, same_setup. repeat split; congruence.
Qed.

Lemma free_frame_record s e : free_frame s (record e s).
Proof.
  split; [apply record_setup|]. by rewrite record_size, record_allocated.
Qed.

Lemma delete_chunk_Done p s c :
  objects s !! p = Some c →
  delete_chunk p s = Done (with_objects (delete p (objects s)) s).
Proof. intros H. unfold delete_chunk. by rewrite H. Qed.

Lemma free_all_spec l :
  ∀ s fuel,
    m_freed_chunks s = l → NoDup l → all_live s l → (length l ≤ fuel)%nat →
    ∃ s', free_all fuel s = Done s' ∧ m_freed_chunks s' = []
      ∧ deleted l s s' ∧ free_frame s s' ∧ cout s' = cout s.
Proof.
  induction l as [|p l IH] using rev_ind; intros s fuel Hl Hnd Hlive Hfuel.
  { exists s. destruct fuel; simpl; rewrite Hl; simpl.
    all: split; [done|]; split; [done|]; split; [|split; [apply free_frame_refl|done]].
    all: intros q; by rewrite decide_False by apply not_elem_of_nil. }
  rewrite length_app in Hfuel. simpl in Hfuel.
  destruct fuel as [|fuel]; [lia|]. simpl. rewrite Hl, last_snoc, removelast_last.
  apply NoDup_app in Hnd as (Hnd & Hp & _).
  unfold all_live in Hlive. apply Forall_app in Hlive as [Hlive Hlp].
  apply Forall_singleton in Hlp as [c Hc]. simpl. rewrite Hc.
  rewrite (delete_chunk_Done p _ c) by by simpl_state. simpl.
  set (s1 := with_objects _ _).
  assert (∀ q, objects s1 !! q
               = if decide (q = p) then None else objects s !! q) as Hobj.
  { intros q. unfold s1. simpl_state. destruct (decide (q = p)) as [->|].
    - by rewrite lookup_delete_eq.
    - by rewrite lookup_delete_ne. }
  destruct (IH s1 fuel) as (s' & He & Hf & Hd & Hfr & Ho).
  - unfold s1. by simpl_state.
  - done.
  - eapply all_live_objects; [|exact Hlive]. intros q Hq.
    rewrite Hobj, decide_False; [done|]. intros ->. apply (Hp p); [done|].
    apply list_elem_of_here.
  - lia.
  - exists s'. split; [done|]. split; [done|]. split; [|split].
    + intros q. rewrite (Hd q), Hobj.
      destruct (decide (q ∈ l ++ [p])) as [Hin|Hnin].
      * apply elem_of_app in Hin as [Hin|Hin%list_elem_of_singleton].
        -- by rewrite decide_True.
        -- subst q. destruct (decide (p ∈ l)); [done|]. by rewrite decide_True.
      * apply not_elem_of_app in Hnin as [Hn1 Hn2].
        rewrite decide_False by done. rewrite decide_False; [done|].
        intros ->. apply Hn2, list_elem_of_here.
    + eapply free_frame_trans; [|exact Hfr].
      eapply (free_frame_trans _ (with_freed l s)); [by repeat split|].
      eapply free_frame_trans; [apply (free_frame_record _ (ChunkFreed c))|].
      unfold s1. by repeat split.
    + rewrite Ho. unfold s1. by simpl_state.
Qed.

(** *** free_overlap *)

Lemma kept_after_subset o prev l q : q ∈ kept_after o prev l → q ∈ l.
Proof.
  revert prev. induction l as [|x l IH]; intros prev; simpl; [done|].
  destruct (o !! x) as [next|]; [|by intros ?%not_elem_of_nil].
  destruct (c_end prev <=? Chunk.m_start next).
  - rewrite !elem_of_cons. intros [->|H]; [by left|]. right. by eapply IH.
  - intros H. apply list_elem_of_further. by eapply IH.
Qed.

Lemma kept_after_ext o o' prev prev' l :
  (∀ q, q ∈ l → o' !! q = o !! q) →
  Chunk.m_start prev' = Chunk.m_start prev →
  Chunk.m_size prev' = Chunk.m_size prev →
  kept_after o' prev' l = kept_after o prev l.
Proof.
  revert prev prev'. induction l as [|x l IH]; intros prev prev' Ho Hs Hz; [done|].
  simpl. rewrite Ho by apply list_elem_of_here.
  assert (∀ q, q ∈ l → o' !! q = o !! q) as Ho'
    by (intros q Hq; by apply Ho, list_elem_of_further).
  destruct (o !! x) as [next|]; [|done].
  unfold c_end. rewrite Hs, Hz.
  destruct (_ <=? _); [f_equal|]; by apply IH.
Qed.

Lemma keep_after_kept o prev l :
  in_address_space prev →
  (∀ q c, q ∈ l → o !! q = Some c → in_address_space c) →
  kept_after o prev l = keep_after o prev l.
Proof.
  revert prev. induction l as [|x l IH]; intros prev Hprev Hl; [done|].
  simpl. destruct (o !! x) as [next|] eqn:Hx; [|done].
  assert (in_address_space next) as Hnext
    by (eapply Hl; [apply list_elem_of_here|done]).
  assert (∀ q c, q ∈ l → o !! q = Some c → in_address_space c) as Hl'
    by (intros q c Hq; by apply Hl, list_elem_of_further).
  assert (c_end prev = Chunk.m_start prev + Chunk.m_size prev) as ->.
  { destruct Hprev as (? & ? & ?). unfold c_end, wrap.
    apply Z.mod_small. lia. }
  destruct (Z.leb_spec (Chunk.m_start prev + Chunk.m_size prev)
              (Chunk.m_start next)).
  - rewrite decide_True by done. f_equal. by apply IH.
  - rewrite decide_False by lia. by apply IH.
Qed.

Lemma overlap_filter_spec todo :
  ∀ pre pr prev s,
    objects s !! pr = Some prev → all_live s todo → NoDup (pr :: todo) →
    ∃ s', overlap_filter (pre ++ [pr]) todo s
          = Done (pre ++ pr :: kept_after (objects s) prev todo, s')
      ∧ marked_in (kept_after (objects s) prev todo) s s'
      ∧ free_frame s s' ∧ m_freed_chunks s' = m_freed_chunks s
      ∧ cout s' = cout s.
Proof.
  induction todo as [|q todo IH]; intros pre pr prev s Hpr Hlive Hnd; simpl.
  { exists s. split; [done|]. split; [|by repeat split].
    intros x. by rewrite decide_False by apply not_elem_of_nil. }
  rewrite last_snoc, Hpr.
  apply all_live_cons in Hlive as [[next Hq] Hlive]. rewrite Hq.
  apply NoDup_cons in Hnd as [Hpr_notin Hnd].
  apply not_elem_of_cons in Hpr_notin as [Hne Hpr_notin].
  pose proof Hnd as [Hq_notin Hnd']%NoDup_cons.
  fold (c_end prev). destruct (c_end prev <=? Chunk.m_start next).
  - set (s1 := set_marked q next true s).
    assert (∀ x, x ≠ q → objects s1 !! x = objects s !! x) as Hother.
    { intros x Hx. simpl. by rewrite lookup_insert_ne. }
    destruct (IH (pre ++ [pr]) q (Chunk.set_marked true next) s1)
      as (s' & He & Hm & Hfr & Hf & Ho).
    + simpl. by rewrite lookup_insert_eq.
    + eapply all_live_objects; [|exact Hlive]. intros x Hx.
      rewrite Hother; [done|]. by intros ->.
    + done.
    + assert (kept_after (objects s1) (Chunk.set_marked true next) todo
              = kept_after (objects s) next todo) as HK.
      { apply kept_after_ext; [|done..]. intros x Hx. apply Hother.
        by intros ->. }
      rewrite HK in He, Hm. exists s'.
      split; [rewrite He; by rewrite <- app_assoc|].
      split; [|split; [|done]].
      2: { eapply free_frame_trans; [|exact Hfr]. by repeat split. }
      intros x. rewrite (Hm x).
      destruct (decide (x = q)) as [->|Hxq].
      * rewrite decide_False
          by (intros H%kept_after_subset; by apply Hq_notin).
        rewrite decide_True by apply list_elem_of_here.
        simpl. by rewrite lookup_insert_eq, Hq.
      * rewrite Hother by done.
        destruct (decide (x ∈ kept_after (objects s) next todo)).
        -- by rewrite decide_True by by apply list_elem_of_further.
        -- by rewrite decide_False by by apply not_elem_of_cons.
  - apply (IH pre pr prev s); [done..|]. by apply NoDup_cons.
Qed.

Lemma overlap_delete_spec l :
  ∀ s, NoDup l → all_live s l →
    ∃ s', overlap_delete l s = Done s' ∧ cleaned l s s'
      ∧ free_frame s s' ∧ m_freed_chunks s' = m_freed_chunks s
      ∧ cout s' = cout s.
Proof.
  induction l as [|p l IH]; intros s Hnd Hlive; simpl.
  { exists s. split; [done|]. split; [|by repeat split].
    intros x. by rewrite decide_False by apply not_elem_of_nil. }
  apply NoDup_cons in Hnd as [Hp Hnd].
  apply all_live_cons in Hlive as [[c Hc] Hlive]. rewrite Hc.
  destruct (Chunk.m_marked c) eqn:Hm; simpl.
  - set (s1 := set_marked p c false s).
    assert (∀ x, x ≠ p → objects s1 !! x = objects s !! x) as Hother.
    { intros x Hx. simpl. by rewrite lookup_insert_ne. }
    destruct (IH s1) as (s' & He & Hcl & Hfr & Hf & Ho); [done| |].
    { eapply all_live_objects; [|exact Hlive]. intros x Hx.
      rewrite Hother; [done|]. by intros ->. }
    exists s'. split; [done|]. split; [|done].
    intros x. rewrite (Hcl x). destruct (decide (x = p)) as [->|Hxp].
    + rewrite decide_False by done.
      rewrite decide_True by apply list_elem_of_here.
      unfold is_marked. rewrite Hc, Hm. simpl. by rewrite lookup_insert_eq.
    + unfold is_marked. rewrite Hother by done.
      destruct (decide (x ∈ l)).
      * by rewrite decide_True by by apply list_elem_of_further.
      * by rewrite decide_False by by apply not_elem_of_cons.
  - rewrite (delete_chunk_Done p _ c) by by simpl_state. simpl.
    set (s1 := with_objects _ _).
    assert (∀ x, x ≠ p → objects s1 !! x = objects s !! x) as Hother.
    { intros x Hx. unfold s1. simpl_state. by rewrite lookup_delete_ne. }
    destruct (IH s1) as (s' & He & Hcl & Hfr & Hf & Ho); [done| |].
    { eapply all_live_objects; [|exact Hlive]. intros x Hx.
      rewrite Hother; [done|]. by intros ->. }
    exists s'. split; [done|]. split; [|split; [|split]].
    + intros x. rewrite (Hcl x). destruct (decide (x = p)) as [->|Hxp].
      * rewrite decide_False by done.
        rewrite decide_True by apply list_elem_of_here.
        unfold is_marked. rewrite Hc, Hm. unfold s1. simpl_state.
        by rewrite lookup_delete_eq.
      * unfold is_marked. rewrite Hother by done.
        destruct (decide (x ∈ l)).
        -- by rewrite decide_True by by apply list_elem_of_further.
        -- by rewrite decide_False by by apply not_elem_of_cons.
    + eapply free_frame_trans; [|exact Hfr].
      eapply free_frame_trans; [apply (free_frame_record s (ChunkFreed c))|].
      unfold s1. by repeat split.
    + rewrite Hf. unfold s1. by simpl_state.
    + rewrite Ho. unfold s1. by simpl_state.
Qed.

Lemma free_overlap_spec s p0 rest c0 :
  m_freed_chunks s = p0 :: rest → objects s !! p0 = Some c0 →
  NoDup (m_freed_chunks s) → all_live s (m_freed_chunks s) →
  ∃ s', free_overlap s = Done s'
    ∧ m_freed_chunks s' = p0 :: kept_after (objects s) c0 rest
    ∧ (∀ q, q ∈ m_freed_chunks s' →
         ∃ c, objects s !! q = Some c
              ∧ objects s' !! q = Some (Chunk.set_marked false c))
    ∧ (∀ q, q ∉ m_freed_chunks s → objects s' !! q = objects s !! q)
    ∧ free_frame s s'.
Proof.
  intros Hfreed Hc0 Hnd Hlive. rewrite Hfreed in Hnd, Hlive.
  pose proof Hnd as [Hp0 Hnd']%NoDup_cons.
  pose proof Hlive as [_ Hlive']%all_live_cons.
  unfold free_overlap, get_at. rewrite Hfreed. simpl. rewrite Hc0.
  set (s1 := print _ (set_marked p0 c0 true s)).
  assert (∀ x, x ≠ p0 → objects s1 !! x = objects s !! x) as Hother.
  { intros x Hx. simpl. by rewrite lookup_insert_ne. }
  assert (objects s1 !! p0 = Some (Chunk.set_marked true c0)) as Hp0'.
  { simpl. by rewrite lookup_insert_eq. }
  destruct (overlap_filter_spec rest [] p0 (Chunk.set_marked true c0) s1)
    as (s2 & He & Hm & Hfr2 & Hf2 & _); [done| |done|].
  { eapply all_live_objects; [|exact Hlive']. intros x Hx.
    rewrite Hother; [done|]. by intros ->. }
  assert (kept_after (objects s1) (Chunk.set_marked true c0) rest
          = kept_after (objects s) c0 rest) as HK.
  { apply kept_after_ext; [|done..]. intros x Hx. apply Hother. by intros ->. }
  rewrite HK in He, Hm. rewrite drop_0. simpl in He. rewrite He. simpl.
  set (K := kept_after (objects s) c0 rest) in *.
  set (s3 := with_freed (p0 :: K) s2).
  assert (∀ x, objects s3 !! x
               = if decide (x ∈ p0 :: K)
                 then Chunk.set_marked true <$> objects s !! x
                 else objects s !! x) as Hobj3.
  { intros x. unfold s3. simpl. rewrite (Hm x).
    destruct (decide (x = p0)) as [->|Hx].
    - rewrite decide_False by (intros H%kept_after_subset; by apply Hp0).
      rewrite decide_True by apply list_elem_of_here. by rewrite Hp0', Hc0.
    - rewrite Hother by done. destruct (decide (x ∈ K)).
      + by rewrite decide_True by by apply list_elem_of_further.
      + by rewrite decide_False by by apply not_elem_of_cons. }
  destruct (overlap_delete_spec (p0 :: rest) s3)
    as (s' & He' & Hcl & Hfr' & Hf' & _); [done| |].
  { eapply all_live_objects; [|exact Hlive]. intros x Hx [c Hc].
    rewrite Hobj3, Hc. by destruct (decide _). }
  exists s'. split; [done|]. split; [by rewrite Hf'|].
  split; [|split].
  - intros q Hq. rewrite Hf' in Hq. unfold s3 in Hq. simpl in Hq.
    assert (q ∈ p0 :: rest) as Hq'.
    { apply elem_of_cons in Hq as [->|Hq]; [apply list_elem_of_here|].
      by apply list_elem_of_further, (kept_after_subset (objects s) c0). }
    unfold all_live in Hlive. rewrite Forall_forall in Hlive.
    destruct (Hlive q Hq') as [c Hc]. exists c. split; [done|].
    rewrite (Hcl q), decide_True by done. unfold is_marked.
    rewrite Hobj3, decide_True, Hc by done. done.
  - intros q Hq.
    rewrite (Hcl q), decide_False, Hobj3, decide_False; [done| |done].
    intros Hq'. apply Hq.
    apply elem_of_cons in Hq' as [->|Hq']; [apply list_elem_of_here|].
    by apply list_elem_of_further, (kept_after_subset (objects s) c0).
  - eapply free_frame_trans; [|exact Hfr'].
    eapply (free_frame_trans _ s2); [|by repeat split].
    eapply free_frame_trans; [|exact Hfr2]. by repeat split.
Qed.

(** What is kept starts at or above the end of the last chunk kept before. *)
Lemma keep_after_before o prev l q cq :
  (∀ x c, x ∈ l → o !! x = Some c → 0 ≤ Chunk.m_size c) →
  q ∈ keep_after o prev l → o !! q = Some cq → before prev cq.
Proof.
  intros Hsize. revert prev.
  induction l as [|x l IH]; intros prev; simpl; [by intros ?%not_elem_of_nil|].
  assert (∀ x c, x ∈ l → o !! x = Some c → 0 ≤ Chunk.m_size c) as Hsize'
    by (intros y c Hy; by apply Hsize, list_elem_of_further).
  destruct (o !! x) as [next|] eqn:Hx; [|by intros ?%not_elem_of_nil].
  destruct (decide _) as [Hle|]; [|by apply IH].
  intros [->|Hq]%elem_of_cons Hcq.
  - unfold before. congruence.
  - specialize (IH Hsize' next Hq Hcq).
    assert (0 ≤ Chunk.m_size next)
      by (eapply Hsize; [apply list_elem_of_here|done]).
    unfold before in *. lia.
Qed.

Lemma keep_after_ascending o l :
  (∀ x c, x ∈ l → o !! x = Some c → 0 ≤ Chunk.m_size c) →
  ∀ p c, o !! p = Some c → ascending o (p :: keep_after o c l).
Proof.
  intros Hsize. induction l as [|x l IH]; intros p c Hc.
  { intros i j ? ? ? ? Hij Hi Hj. destruct i, j; simpl in *; try lia; done. }
  assert (∀ x c, x ∈ l → o !! x = Some c → 0 ≤ Chunk.m_size c) as Hsize'
    by (intros y cy Hy; by apply Hsize, list_elem_of_further).
  assert (∀ q cq, q ∈ keep_after o c (x :: l) → o !! q = Some cq →
                  before c cq) as Hfirst
    by (intros q cq; by apply keep_after_before).
  simpl in *. destruct (o !! x) as [next|] eqn:Hx.
  2: { intros i j ? ? ? ? Hij Hi Hj. destruct i, j; simpl in *; try lia; done. }
  destruct (decide _) as [Hle|]; [|by apply IH].
  intros i j pi pj ci cj Hij Hi Hj Hci Hcj.
  destruct j as [|j]; [lia|]. destruct i as [|i].
  - simpl in Hi. injection Hi as <-. rewrite Hc in Hci. injection Hci as <-.
    simpl in Hj. apply (Hfirst pj); [|done]. by eapply list_elem_of_lookup_2.
  - simpl in Hi, Hj.
    apply (IH Hsize' x next Hx i j pi pj); [lia|done..].
Qed.

(** *** free *)

Lemma free_spec s :
  NoDup (m_freed_chunks s) → all_live s (m_freed_chunks s) →
  ∃ s', free s = Done s' ∧ free_frame s s'
    ∧ (∀ q, q ∉ m_freed_chunks s → objects s' !! q = objects s !! q).
Proof.
  intros Hnd Hlive. unfold free.
  destruct (decide (FREE_THRESH < length (m_freed_chunks s))%nat).
  - destruct (free_all_spec (m_freed_chunks s) s (length (m_freed_chunks s)))
      as (s' & He & _ & Hd & Hfr & _); [done..|].
    exists s'. split; [done|]. split; [done|].
    intros q Hq. by rewrite (Hd q), decide_False.
  - destruct (decide (length (m_freed_chunks s) ≠ 0%nat)) as [Hlen|].
    + destruct (m_freed_chunks s) as [|p0 rest] eqn:Hfreed; [done|].
      pose proof Hlive as [[c0 Hc0] _]%all_live_cons.
      destruct (free_overlap_spec s p0 rest c0)
        as (s' & He & _ & _ & Hout & Hfr); [by rewrite ?Hfreed..|].
      exists s'. rewrite Hfreed in Hout. done.
    + exists s. split; [done|]. split; [apply free_frame_refl|done].
Qed.

(** *** The counter [m_size]

    Whatever the state, the phases of a collection and the recycling of a
    chunk return with the counter they found. *)

Lemma delete_chunk_size p s s' :
  delete_chunk p s = Done s' → m_size s' = m_size s.
Proof.
  unfold delete_chunk. destruct (objects s !! p); [|done]. by intros [= <-].
Qed.

Lemma free_all_size fuel :
  ∀ s s', free_all fuel s = Done s' → m_size s' = m_size s.
Proof.
  induction fuel as [|fuel IH]; intros s s'; simpl.
  - destruct (last (m_freed_chunks s)); [done|]. by intros [= <-].
  - destruct (last (m_freed_chunks s)) as [p|]; [|by intros [= <-]].
    destruct (objects s !! p) as [c|]; [|done].
    intros (s1 & Hd%delete_chunk_size & H%IH)%bind_Done.
    rewrite H, Hd. by simpl_state.
Qed.

Lemma overlap_filter_size todo :
  ∀ filtered s l s',
    overlap_filter filtered todo s = Done (l, s') → m_size s' = m_size s.
Proof.
  induction todo as [|q todo IH]; intros filtered s l s'; simpl.
  - by intros [= _ <-].
  - destruct (last filtered) as [pr|]; [|done].
    destruct (objects s !! pr) as [prev|]; [|done].
    destruct (objects s !! q) as [next|]; [|done].
    destruct (_ <=? _); intros H%IH; by rewrite H.
Qed.

Lemma overlap_delete_size l :
  ∀ s s', overlap_delete l s = Done s' → m_size s' = m_size s.
Proof.
  induction l as [|p l IH]; intros s s'; simpl.
  - by intros [= <-].
  - destruct (objects s !! p) as [c|]; [|done].
    destruct (Chunk.m_marked c); simpl.
    + intros H%IH. by rewrite H.
    + intros (s1 & Hd%delete_chunk_size & H%IH)%bind_Done.
      rewrite H, Hd. by simpl_state.
Qed.

Lemma free_overlap_size s s' :
  free_overlap s = Done s' → m_size s' = m_size s.
Proof.
  unfold free_overlap. destruct (get_at _ _) as [p|]; [|done].
  destruct (objects s !! p) as [prev|]; [|done].
  intros ([l s1] & Hf%overlap_filter_size & Hd%overlap_delete_size)%bind_Done.
  rewrite Hd. simpl. by rewrite Hf.
Qed.

Lemma free_size s s' : free s = Done s' → m_size s' = m_size s.
Proof.
  unfold free. destruct (decide _); [apply free_all_size|].
  destruct (decide _); [apply free_overlap_size|]. by intros [= <-].
Qed.

Lemma mark_size start end_ wl s wl' s' :
  mark start end_ wl s = Done (wl', s') → m_size s' = m_size s.
Proof. intros (_ & H & _)%mark_rec_frame. exact H. Qed.

Lemma collect_size s s' : collect s = Done s' → m_size s' = m_size s.
Proof.
  unfold collect. destruct (decide _); [done|].
  intros ([wl s1] & Hm%mark_size & H)%bind_Done.
  apply bind_Done in H as (s2 & Hs%sweep_loop_size & Hf%free_size).
  rewrite Hf, Hs, Hm. by simpl_state.
Qed.

Lemma try_recycle_chunks_size size s r s' :
  try_recycle_chunks size s = Done (r, s') → m_size s' = m_size s.
Proof. apply recycle_from_size. Qed.

(** [alloc_chunk] moves the counter when it makes a new chunk, and only
    then. *)
Lemma alloc_chunk_size size s a s' :
  alloc_chunk size s = Done (a, s') →
  (∃ p s1, try_recycle_chunks size s = Done (Some p, s1)
           ∧ m_size s' = m_size s)
  ∨ (no_fit size s ∧ m_size s' = wrap (m_size s + size)).
Proof.
  unfold alloc_chunk. intros ([[p|] s1] & Hr & H)%bind_Done.
  - left. exists p, s1. split; [done|].
    destruct (objects s1 !! p); [|done]. injection H as _ <-.
    rewrite record_size. by eapply try_recycle_chunks_size.
  - right. apply try_recycle_none in Hr as [-> Hno]. split; [done|].
    simpl in H. injection H as _ <-. by simpl_state.
Qed.

(** After a collection the capacity is exceeded as before: the assertion
    behind [collect] fails whenever [collect] returns. *)
Lemma alloc_after_collect size s :
  size ≠ 0 → HEAP_SIZE < wrap (m_size s + size) →
  alloc size s
  = collect (record (AllocStart size) s) ≫= λ _, Abort "Heap: Out Of Memory".
Proof.
  intros Hsize Hcap. unfold alloc. rewrite decide_False by done.
  rewrite record_size, decide_True by done.
  destruct (collect _) as [s1| | |] eqn:Hc; simpl; try done.
  apply collect_size in Hc. rewrite record_size in Hc.
  rewrite Hc, decide_False; [done|lia].
Qed.

(** *** try_recycle_chunks: the first chunk that is large enough

    The chunks in front of it are too small; the chunk itself moves to the
    allocated list as it is.  When it is larger than the request, a new chunk
    of the bytes in excess, which starts at [m_start + m_size] of the chunk
    taken, joins the freed list. *)

Lemma recycle_from_first_fit size l1 :
  ∀ i p l2 s chunk,
    Forall (λ q, ∃ c, objects s !! q = Some c ∧ Chunk.m_size c < size) l1 →
    objects s !! p = Some chunk → size ≤ Chunk.m_size chunk →
    recycle_from size i (l1 ++ p :: l2) s
    = if size <? Chunk.m_size chunk then
        let '(q, s1) :=
          new_chunk (Chunk.new (Chunk.m_size chunk - size)
                       (Chunk.m_start chunk
                        + START_STRIDE * Chunk.m_size chunk)) s in
        Done (Some p,
              with_allocated (m_allocated_chunks s ++ [p])
                (with_freed
                   (delete (i + length l1)%nat (m_freed_chunks s) ++ [q]) s1))
      else
        Done (Some p,
              with_allocated (m_allocated_chunks s ++ [p])
                (with_freed (delete (i + length l1)%nat (m_freed_chunks s)) s)).
Proof.
  induction l1 as [|x l1 IH]; intros i p l2 s chunk Hsmall Hp Hsize; simpl.
  - rewrite Hp, Nat.add_0_r.
    destruct (Z.ltb_spec size (Chunk.m_size chunk)); [done|].
    by rewrite (proj2 (Z.eqb_eq _ _)) by lia.
  - apply Forall_cons in Hsmall as [(c & Hc & Hlt) Hsmall]. rewrite Hc.
    rewrite (proj2 (Z.ltb_ge _ _)) by lia.
    rewrite (proj2 (Z.eqb_neq _ _)) by lia.
    rewrite (IH (Datatypes.S i) p l2 s chunk) by done.
    by replace (Datatypes.S i + length l1)%nat
      with (i + Datatypes.S (length l1))%nat by lia.
Qed.

Lemma try_recycle_first_fit size s l1 p l2 chunk :
  m_freed_chunks s = l1 ++ p :: l2 →
  Forall (λ q, ∃ c, objects s !! q = Some c ∧ Chunk.m_size c < size) l1 →
  objects s !! p = Some chunk → size ≤ Chunk.m_size chunk →
  ∃ s', try_recycle_chunks size s = Done (Some p, s')
    ∧ m_allocated_chunks s' = m_allocated_chunks s ++ [p]
    ∧ objects s' !! p = Some chunk
    ∧ m_size s' = m_size s
    ∧ ((Chunk.m_size chunk = size ∧ m_freed_chunks s' = l1 ++ l2
        ∧ objects s' = objects s)
       ∨ (size < Chunk.m_size chunk
          ∧ ∃ q, objects s !! q = None
              ∧ m_freed_chunks s' = l1 ++ l2 ++ [q]
              ∧ objects s'
                = <[q := Chunk.new (Chunk.m_size chunk - size)
                           (Chunk.m_start chunk
                            + START_STRIDE * Chunk.m_size chunk)]>
                    (objects s))).
Proof.
  intros Hfreed Hsmall Hp Hsize. unfold try_recycle_chunks.
  rewrite Hfreed, (recycle_from_first_fit size l1 0 p l2 s chunk) by done.
  assert (delete (length l1) (l1 ++ p :: l2) = l1 ++ l2) as Hdel.
  { rewrite delete_take_drop, take_app_length.
    rewrite drop_app_ge by lia.
    by replace (Datatypes.S (length l1) - length l1)%nat with 1%nat by lia. }
  destruct (Z.ltb_spec size (Chunk.m_size chunk)) as [Hlt|Hge].
  - assert (objects s !! fresh (dom (objects s)) = None) as Hfresh
      by apply not_elem_of_dom, is_fresh.
    eexists. split; [reflexivity|]. simpl. rewrite Hfreed, Hdel.
    split; [done|]. split.
    { rewrite lookup_insert_ne; [done|]. intros Heq. rewrite Heq in Hfresh.
      congruence. }
    split; [done|]. right. split; [done|].
    exists (fresh (dom (objects s))). by rewrite <- app_assoc.
  - eexists. split; [reflexivity|]. simpl. rewrite Hfreed, Hdel.
    split; [done|]. split; [done|]. split; [done|]. left.
    split; [lia|done].
Qed.

(** [alloc_chunk] then returns the start of the chunk taken. *)
Lemma alloc_chunk_recycles size s l1 p l2 chunk :
  m_freed_chunks s = l1 ++ p :: l2 →
  Forall (λ q, ∃ c, objects s !! q = Some c ∧ Chunk.m_size c < size) l1 →
  objects s !! p = Some chunk → size ≤ Chunk.m_size chunk →
  ∃ s', alloc_chunk size s = Done (Chunk.m_start chunk, s')
    ∧ m_allocated_chunks s' = m_allocated_chunks s ++ [p]
    ∧ objects s' !! p = Some chunk.
Proof.
  intros Hfreed Hsmall Hp Hsize.
  destruct (try_recycle_first_fit size s l1 p l2 chunk)
    as (s1 & Hr & Ha & Hp1 & _); [done..|].
  unfold alloc_chunk. rewrite Hr. simpl. rewrite Hp1.
  eexists. split; [reflexivity|]. by rewrite record_allocated, record_objects.
Qed.

(** *** collect *)

Lemma all_live_app s l1 l2 :
  all_live s (l1 ++ l2) ↔ all_live s l1 ∧ all_live s l2.
Proof. unfold all_live. by rewrite Forall_app. Qed.

Lemma all_live_filter s (P : nat → Prop) `{∀ x, Decision (P x)} l :
  all_live s l → all_live s (filter P l).
Proof.
  unfold all_live. rewrite !Forall_forall. intros Hl p Hp.
  apply list_elem_of_filter in Hp as [_ Hp]. by apply Hl.
Qed.

(** Where a chunk on the stack survives: on a heap that satisfies its
    representation invariant and knows its stack top, [collect] returns, and
    an allocated chunk [c] is still in the allocated list afterwards,
    unmarked, when some word of the stack at [stack_bottom],
    [stack_bottom + 8], ... up to [m_stack_top] holds an address [a] with
    [c.start <= a < c.start + c.size].  The invariant is a hypothesis:
    [alloc] does not keep it when the sum of the counter and the size wraps
    around. *)
Theorem reachable_chunk_survives_collect
    (s : State) (p : chunk_ptr) (c : Chunk.t) (k : Z) :
  heap_wf s → m_stack_top s ≠ 0 →
  p ∈ m_allocated_chunks s → objects s !! p = Some c →
  0 ≤ k → stack_bottom + WORD_BYTES * k ≤ m_stack_top s →
  in_range c (mem (stack_bottom + WORD_BYTES * k)) →
  ∃ s', collect s = Done s' ∧ p ∈ m_allocated_chunks s'
        ∧ objects s' !! p = Some (Chunk.set_marked false c).
Proof.
  intros (Hnd & Hlivef & Hsep) Htop Hp Hc Hk Hend Hin.
  unfold collect. set (s0 := record CollectStart s).
  assert (objects s0 = objects s) as Hobj0 by apply record_objects.
  assert (m_allocated_chunks s0 = m_allocated_chunks s) as Ha0
    by apply record_allocated.
  assert (m_freed_chunks s0 = m_freed_chunks s) as Hf0 by apply record_freed.
  assert (m_stack_top s0 = m_stack_top s) as Ht0 by apply record_setup.
  rewrite decide_False by congruence. rewrite Ha0, Ht0.
  destruct (mark_reaches (m_allocated_chunks s) stack_bottom (m_stack_top s) s0)
    as (wl & s1 & Hm & Hg & Hr).
  { eapply separate_chunks_grow; [apply marks_grow_record|done]. }
  rewrite Hm. simpl.
  pose proof (mark_rec_frame _ _ _ _ _ _ _ Hm) as (_ & _ & Ha1 & Hf1 & _).
  rewrite Ha0 in Ha1. rewrite Hf0 in Hf1.
  (* the chunk is marked *)
  assert (∃ c1, objects s1 !! p = Some c1 ∧ Chunk.m_marked c1 = true
                ∧ Chunk.set_marked false c1 = Chunk.set_marked false c)
    as (c1 & Hc1 & Hm1 & Hsame).
  { destruct (Hg p) as [Heq|(c' & Hc' & Heq)].
    - rewrite Hobj0, Hc in Heq. exists c. split; [done|]. split; [|done].
      by apply (Hr k Hk Hend p c).
    - rewrite Hobj0, Hc in Hc'. injection Hc' as <-.
      by exists (Chunk.set_marked true c). }
  assert (∀ q, is_Some (objects s !! q) ↔ is_Some (objects s1 !! q)) as Hlive1.
  { intros q. rewrite <- Hobj0. by apply marks_grow_live. }
  apply NoDup_app in Hnd as (Hnda & Hdisj & Hndf).
  (* sweep *)
  destruct (sweep_spec s1) as (s2 & Hs & Ha2 & Hf2 & Hu & _).
  { by rewrite Ha1. }
  { rewrite Ha1. destruct Hsep as (Hlivea & _).
    eapply all_live_objects; [|exact Hlivea]. intros q _. by apply Hlive1. }
  rewrite Hs. simpl. rewrite Ha1 in Ha2, Hf2, Hu. rewrite Hf1 in Hf2.
  assert (∀ q, is_Some (objects s !! q) ↔ is_Some (objects s2 !! q)) as Hlive2.
  { intros q. rewrite Hlive1, (Hu q).
    destruct (decide _); [|done]. by rewrite fmap_is_Some. }
  (* free *)
  destruct (free_spec s2) as (s3 & Hfree & (_ & _ & Ha3) & Hout).
  { rewrite Hf2. apply NoDup_app. split; [done|]. split.
    - intros q Hq [_ Hq']%list_elem_of_filter. by apply (Hdisj q).
    - by apply NoDup_filter. }
  { rewrite Hf2. apply all_live_app. split.
    - eapply all_live_objects; [|exact Hlivef]. intros q _. by apply Hlive2.
    - apply all_live_filter. destruct Hsep as (Hlivea & _).
      eapply all_live_objects; [|exact Hlivea]. intros q _. by apply Hlive2. }
  exists s3. split; [done|]. split.
  - rewrite Ha3, Ha2. apply list_elem_of_filter. split; [|done].
    unfold is_marked. by rewrite Hc1.
  - rewrite Hout.
    + by rewrite (Hu p), decide_True, Hc1, <- Hsame by done.
    + rewrite Hf2. intros [Hq|Hq]%elem_of_app.
      * by apply (Hdisj p).
      * apply list_elem_of_filter in Hq as [Hq _]. unfold is_marked in Hq.
        rewrite Hc1 in Hq. congruence.
Qed.

(** *** The representation invariant on heaps built by allocation

    Requests that fit into the region keep the heap a [bump_heap], whose
    chunks are separate: the invariant under which [collect] is specified
    holds when the first collection starts. *)

Lemma bump_heap_new region :
  0 ≤ region → region + HEAP_SIZE < 2 ^ WORD_BITS → bump_heap (new_heap region).
Proof.
  intros Hlo Hhi. unfold bump_heap, heap_wf, separate_chunks, all_live. simpl.
  repeat split; try done; try apply NoDup_nil_2; try constructor.
  all: intros; by exfalso; eapply not_elem_of_nil.
Qed.

Lemma bump_heap_alloc size s :
  bump_heap s → 0 < size → m_size s + size ≤ HEAP_SIZE →
  ∃ s', alloc size s = Done (m_heap s + m_size s, s') ∧ bump_heap s'
        ∧ m_size s' = m_size s + size.
Proof.
  intros ((Hnd & Hlivef & Hlive & Hspace & Hdisj) & Hfreed & Hh0 & Hh1 & Hsz & Hin)
    Hsize Hcap.
  assert (wrap (m_size s + size) = m_size s + size) as Hwrap.
  { unfold wrap. apply Z.mod_small. unfold HEAP_SIZE, WORD_BITS in *. lia. }
  assert (no_fit size s) as Hno by (unfold no_fit; rewrite Hfreed; constructor).
  destruct (alloc_fresh_chunk size s)
    as (p & s' & He & Hp & Ho & Ha & Hf & Hz & Hheap); [lia|lia|done|].
  exists s'. split; [done|]. rewrite Hwrap in Hz. split; [|done].
  assert (p ∉ m_allocated_chunks s) as Hfresh.
  { intros Hp'. unfold all_live in Hlive. rewrite Forall_forall in Hlive.
    destruct (Hlive p Hp') as [c Hc]. congruence. }
  assert (∀ q, q ∈ m_allocated_chunks s → objects s' !! q = objects s !! q)
    as Hold.
  { intros q Hq. rewrite Ho, lookup_insert_ne; [done|]. by intros ->. }
  assert (objects s' !! p = Some (Chunk.new size (m_heap s + m_size s)))
    as Hnew by (by rewrite Ho, lookup_insert_eq).
  split; [split; [|split; [|split; [|split]]]|split].
  - rewrite Ha, Hf, Hfreed, app_nil_r. rewrite Hfreed, app_nil_r in Hnd.
    apply NoDup_app. split; [done|]. split; [|apply NoDup_singleton].
    intros q Hq ->%list_elem_of_singleton. done.
  - rewrite Hf, Hfreed. constructor.
  - rewrite Ha. unfold all_live. apply Forall_app. split.
    + rewrite Forall_forall. intros q Hq. rewrite Hold by done.
      unfold all_live in Hlive. rewrite Forall_forall in Hlive. by apply Hlive.
    + apply Forall_singleton. by rewrite Hnew.
  - intros q c. rewrite Ha. intros [Hq| ->%list_elem_of_singleton]%elem_of_app.
    + rewrite Hold by done. by apply Hspace.
    + rewrite Hnew. intros [= <-]. unfold in_address_space. simpl.
      unfold HEAP_SIZE, WORD_BITS in *. lia.
  - intros q r cq cr. rewrite Ha.
    intros [Hq| ->%list_elem_of_singleton]%elem_of_app
           [Hr| ->%list_elem_of_singleton]%elem_of_app Hne.
    + rewrite !Hold by done. by apply Hdisj.
    + rewrite Hold, Hnew by done. intros Hcq [= <-]. left.
      destruct (Hin q cq Hq Hcq) as (_ & _ & ?). unfold before. simpl. lia.
    + rewrite Hnew, (Hold r) by done. intros [= <-] Hcr. right.
      destruct (Hin r cr Hr Hcr) as (_ & _ & ?). unfold before. simpl. lia.
    + done.
  - by rewrite Hf.
  - split; [by rewrite Hheap|]. split; [by rewrite Hheap|]. split; [lia|].
    intros q c. rewrite Ha, Hheap, Hz.
    intros [Hq| ->%list_elem_of_singleton]%elem_of_app.
    + rewrite Hold by done. intros Hc.
      destruct (Hin q c Hq Hc) as (? & ? & ?). lia.
    + rewrite Hnew. intros [= <-]. simpl. lia.
Qed.

(** *** The properties of sweep, free and free_overlap *)

(** C4: [sweep] keeps in the allocated list exactly the chunks that were
    marked, in their order, appends the others to the freed list, and leaves
    every chunk it keeps unmarked. *)
Theorem sweep_keeps_marked (s : State) :
  NoDup (m_allocated_chunks s) → all_live s (m_allocated_chunks s) →
  ∃ s', sweep s = Done s'
    ∧ m_allocated_chunks s'
      = filter (λ p, is_marked s p = true) (m_allocated_chunks s)
    ∧ m_freed_chunks s'
      = m_freed_chunks s
        ++ filter (λ p, is_marked s p = false) (m_allocated_chunks s)
    ∧ (∀ p, p ∈ m_allocated_chunks s' →
         ∃ c, objects s !! p = Some c
              ∧ objects s' !! p = Some (Chunk.set_marked false c)).
Proof.
  intros Hnd Hlive.
  destruct (sweep_spec s Hnd Hlive) as (s' & He & Ha & Hf & Hu & _).
  exists s'. split; [done|]. split; [done|]. split; [done|].
  intros p Hp. rewrite Ha in Hp. apply list_elem_of_filter in Hp as [_ Hp].
  unfold all_live in Hlive. rewrite Forall_forall in Hlive.
  destruct (Hlive p Hp) as [c Hc]. exists c. split; [done|].
  by rewrite (Hu p), decide_True, Hc by done.
Qed.

Lemma ascending_disjoint o l :
  ascending o l →
  ∀ i j p q cp cq, i ≠ j → l !! i = Some p → l !! j = Some q →
    o !! p = Some cp → o !! q = Some cq → disjoint cp cq.
Proof.
  intros Hasc i j p q cp cq Hij Hi Hj Hp Hq.
  destruct (decide (i < j)%nat).
  - left. by apply (Hasc i j p q).
  - right. apply (Hasc j i q p); [lia|done..].
Qed.

(** Where the freed list ends without overlap: after [free_overlap] on a
    freed list of chunks whose ranges lie in the address space, the freed list
    holds the first chunk and every later chunk that starts at or above the
    end of the last chunk kept before it; each chunk of the list ends where
    the chunks behind it start, or below, so that the ranges of two chunks of
    the list are disjoint.  That the ranges lie in the address space is a
    hypothesis: a chunk whose end wraps around breaks the conclusion. *)
Theorem free_overlap_disjoint
    (s : State) (p0 : chunk_ptr) (rest : list chunk_ptr) (c0 : Chunk.t) :
  m_freed_chunks s = p0 :: rest → objects s !! p0 = Some c0 →
  NoDup (m_freed_chunks s) → all_live s (m_freed_chunks s) →
  (∀ q c, q ∈ m_freed_chunks s → objects s !! q = Some c →
          in_address_space c) →
  ∃ s', free_overlap s = Done s'
    ∧ m_freed_chunks s' = p0 :: keep_after (objects s) c0 rest
    ∧ all_live s' (m_freed_chunks s')
    ∧ ascending (objects s') (m_freed_chunks s')
    ∧ ∀ i j p q cp cq, i ≠ j →
        m_freed_chunks s' !! i = Some p → m_freed_chunks s' !! j = Some q →
        objects s' !! p = Some cp → objects s' !! q = Some cq →
        disjoint cp cq.
Proof.
  intros Hfreed Hc0 Hnd Hlive Hspace.
  destruct (free_overlap_spec s p0 rest c0 Hfreed Hc0 Hnd Hlive)
    as (s' & He & Hf & Hkept & _ & _).
  rewrite Hfreed in Hspace.
  assert (kept_after (objects s) c0 rest = keep_after (objects s) c0 rest) as HK.
  { apply keep_after_kept.
    - apply (Hspace p0); [apply list_elem_of_here|done].
    - intros q c Hq. by apply Hspace, list_elem_of_further. }
  rewrite HK in Hf.
  assert (ascending (objects s) (p0 :: keep_after (objects s) c0 rest)) as Hasc.
  { apply keep_after_ascending; [|done]. intros x c Hx Hc.
    by apply (Hspace x c); [apply list_elem_of_further|]. }
  assert (ascending (objects s') (m_freed_chunks s')) as Hasc'.
  { intros i j p q cp' cq' Hij Hi Hj Hp Hq.
    destruct (Hkept p) as (cp & Hcp & Hcp'); [by eapply list_elem_of_lookup_2|].
    destruct (Hkept q) as (cq & Hcq & Hcq'); [by eapply list_elem_of_lookup_2|].
    rewrite Hf in Hi, Hj. pose proof (Hasc i j p q cp cq Hij Hi Hj Hcp Hcq).
    rewrite Hcp' in Hp. rewrite Hcq' in Hq.
    injection Hp as <-. injection Hq as <-. done. }
  exists s'. split; [done|]. split; [done|]. split; [|split; [done|]].
  - unfold all_live. rewrite Forall_forall. intros q Hq.
    destruct (Hkept q Hq) as (c & _ & ->). eauto.
  - by apply ascending_disjoint.
Qed.

(** C7: with more than [FREE_THRESH] freed chunks, [free] empties the freed
    list and deletes the chunk objects of the list, and nothing else; the
    counter is as before.  With at least one and at most [FREE_THRESH] freed
    chunks, [free] is [free_overlap], which keeps the first freed chunk. *)
Theorem free_drains_above_threshold (s : State) :
  NoDup (m_freed_chunks s) → all_live s (m_freed_chunks s) →
  ((FREE_THRESH < length (m_freed_chunks s))%nat →
   ∃ s', free s = Done s' ∧ m_freed_chunks s' = []
     ∧ (∀ p, p ∈ m_freed_chunks s → objects s' !! p = None)
     ∧ (∀ p, p ∉ m_freed_chunks s → objects s' !! p = objects s !! p)
     ∧ m_size s' = m_size s
     ∧ m_allocated_chunks s' = m_allocated_chunks s)
  ∧ ((0 < length (m_freed_chunks s) ≤ FREE_THRESH)%nat →
     free s = free_overlap s
     ∧ ∃ s' p0, free s = Done s'
         ∧ head (m_freed_chunks s) = Some p0
         ∧ head (m_freed_chunks s') = Some p0
         ∧ is_Some (objects s' !! p0)
         ∧ m_size s' = m_size s).
Proof.
  intros Hnd Hlive. split; intros Hlen; unfold free.
  - rewrite decide_True by done.
    destruct (free_all_spec (m_freed_chunks s) s (length (m_freed_chunks s)))
      as (s' & He & Hf & Hd & (_ & Hz & Ha) & _); [done..|].
    exists s'. repeat split; try done.
    + intros p Hp. by rewrite (Hd p), decide_True.
    + intros p Hp. by rewrite (Hd p), decide_False.
  - rewrite decide_False by lia. rewrite decide_True by lia. split; [done|].
    destruct (m_freed_chunks s) as [|p0 rest] eqn:Hfreed; [simpl in Hlen; lia|].
    pose proof Hlive as [[c0 Hc0] _]%all_live_cons.
    destruct (free_overlap_spec s p0 rest c0)
      as (s' & He & Hf & Hkept & _ & (_ & Hz & _)); [by rewrite ?Hfreed..|].
    exists s', p0. split; [done|]. split; [done|]. split; [by rewrite Hf|].
    split; [|done].
    destruct (Hkept p0) as (c & _ & ->); [|by eauto].
    rewrite Hf. apply list_elem_of_here.
Qed.

(** *** The properties of mark *)


(** *** The properties of alloc *)

(** The check of the capacity as the code makes it: when the sum
    [m_size + size] of the machine, which wraps around, exceeds [HEAP_SIZE],
    [alloc] runs [collect] before anything else and, when the sum still
    exceeds [HEAP_SIZE] afterwards, stops on its assertion; when it does not,
    [alloc] goes on to [alloc_chunk].  A counter that is at most [HEAP_SIZE]
    is at most [HEAP_SIZE] when [alloc] returns. *)
Lemma alloc_capacity_check (size : Z) (s : State) :
  (size ≠ 0 →
   (HEAP_SIZE < wrap (m_size s + size) →
    alloc size s
    = (s1 ← collect (record (AllocStart size) s);
       if decide (wrap (m_size s1 + size) ≤ HEAP_SIZE)
       then alloc_chunk size s1
       else Abort "Heap: Out Of Memory")
    ∧ (∀ s1, collect (record (AllocStart size) s) = Done s1 →
             HEAP_SIZE < wrap (m_size s1 + size) →
             alloc size s = Abort "Heap: Out Of Memory"))
   ∧ (wrap (m_size s + size) ≤ HEAP_SIZE →
      alloc size s = alloc_chunk size (record (AllocStart size) s)))
  ∧ (∀ a s', m_size s ≤ HEAP_SIZE → alloc size s = Done (a, s') →
             m_size s' ≤ HEAP_SIZE).
Proof.
  split.
  - intros Hsize. split.
    + intros Hcap. unfold alloc. rewrite decide_False by done.
      rewrite record_size, decide_True by done. split; [done|].
      intros s1 -> Hstill. simpl. by rewrite decide_False by lia.
    + intros Hcap. unfold alloc. rewrite decide_False by done.
      by rewrite record_size, decide_False by lia.
  - intros a s' Hinv. unfold alloc.
    destruct (decide (size = 0)) as [->|Hsize].
    { intros [= _ <-]. by simpl_state. }
    rewrite record_size.
    destruct (decide (HEAP_SIZE < wrap (m_size s + size))) as [Hcap|Hcap].
    + intros (s1 & Hc & H)%bind_Done.
      destruct (decide _) as [Hfit|]; [|done].
      apply alloc_chunk_size in H as [(p & s2 & _ & ->)|[_ ->]]; [|done].
      apply collect_size in Hc. rewrite record_size in Hc. lia.
    + intros [(p & s2 & _ & ->)|[_ ->]]%alloc_chunk_size;
        rewrite record_size; lia.
Qed.

(** C5, evaluated where it fails: with two bytes handed out, a request of
    2^64 - 1 bytes exceeds the capacity, and yet [alloc] returns an address.
    The profiler has seen the start of the allocation and the new chunk of
    2^64 - 1 bytes, and no collection in between. *)
Theorem alloc_overflow_skips_collect :
  HEAP_SIZE < m_size two_bytes_profiled + (2 ^ 64 - 1)
  ∧ alloc (2 ^ 64 - 1) two_bytes_profiled
    = alloc_chunk (2 ^ 64 - 1)
        (record (AllocStart (2 ^ 64 - 1)) two_bytes_profiled)
  ∧ ∃ s', alloc (2 ^ 64 - 1) two_bytes_profiled = Done (4098, s')
      ∧ events s' = [AllocStart (2 ^ 64 - 1);
                     NewChunk (Chunk.new (2 ^ 64 - 1) 4098)]
      ∧ m_allocated_chunks s' = [0%nat; 1%nat]
      ∧ objects s' !! 1%nat = Some (Chunk.new (2 ^ 64 - 1) 4098).
Proof.
  split; [done|]. split; [reflexivity|].
  eexists. split; [reflexivity|]. done.
Qed.

(** C9, evaluated where it fails: with two bytes handed out, [alloc] of
    2^64 - 1 bytes passes the check of the capacity, because the sum wraps
    around to 1, makes a chunk and leaves the counter at 1. *)
Theorem alloc_counter_wraps :
  ∃ s', alloc (2 ^ 64 - 1) two_bytes_used = Done (4098, s')
        ∧ m_size two_bytes_used = 2 ∧ m_size s' = 1.
Proof. eexists. split; [reflexivity|]. done. Qed.

(** C2, evaluated where it fails: a request of 64 bytes is served from a
    freed chunk of 256 bytes.  The chunk moves to the allocated list as it
    is, 256 bytes long, and a chunk of 192 bytes that starts at the end of the
    256 bytes joins the freed list. *)
Theorem recycle_split_moves_whole_chunk :
  ∃ s', alloc 64 one_freed_256 = Done (4096, s')
        ∧ m_allocated_chunks s' = [0%nat]
        ∧ objects s' !! 0%nat = Some (Chunk.new 256 4096)
        ∧ m_freed_chunks s' = [1%nat]
        ∧ objects s' !! 1%nat
          = Some (Chunk.new 192 (4096 + START_STRIDE * 256)).
Proof. eexists. split; [reflexivity|]. done. Qed.

(** ** Further properties of the code *)

(** *** mark: the words of a chunk it marks are scanned *)

Lemma c_end_in_address_space c :
  in_address_space c → c_end c = Chunk.m_start c + Chunk.m_size c.
Proof.
  intros (? & ? & ?). unfold c_end, wrap. apply Z.mod_small. lia.
Qed.

Section mark_closure.

Variable S : list chunk_ptr.
Variable cap : nat.

Lemma closed_since_refl s : closed_since S s s.
Proof.
  intros p c k Hp Hc Hm Hm'. unfold is_marked in Hm'. rewrite Hc in Hm'.
  congruence.
Qed.

Lemma closed_since_ext s1 s1' s2 s2' :
  objects s1' = objects s1 → objects s2' = objects s2 →
  closed_since S s1 s2 → closed_since S s1' s2'.
Proof.
  intros H1 H2 Hc p c k Hp Hpc Hm Hm' Hk Hsz q cq Hq Hcq Hin.
  rewrite H1 in Hpc. rewrite H2 in Hcq. unfold is_marked in Hm'.
  rewrite H2 in Hm'. by apply (Hc p c k Hp Hpc Hm Hm' Hk Hsz q cq).
Qed.

Lemma closed_since_trans s1 s2 s3 :
  marks_grow s1 s2 → marks_grow s2 s3 →
  closed_since S s1 s2 → closed_since S s2 s3 → closed_since S s1 s3.
Proof.
  intros H12 H23 C12 C23 p c k Hp Hc Hm Hm3 Hk Hsz.
  destruct (is_marked s2 p) eqn:Hm2.
  - eapply reached_grow; [exact H23|]. by eapply C12.
  - destruct (H12 p) as [Heq|(c' & Hc' & Heq)].
    + rewrite Hc in Heq. by eapply C23.
    + unfold is_marked in Hm2. by rewrite Heq in Hm2.
Qed.

Lemma mark_post_refl wl s : worklist_inv S cap wl s → mark_post S cap wl s wl s.
Proof.
  intros Hinv. split; [done|]. split; [apply marks_grow_refl|].
  split; [done|apply closed_since_refl].
Qed.

Lemma mark_worklist_closed rec D w :
  (∀ a b wl s wl' s',
     worklist_inv S cap wl s → (finish wl < D)%nat →
     rec a b wl s = Done (wl', s') →
     mark_post S cap wl s wl' s'
     ∧ ∀ k, 0 ≤ k → a + WORD_BYTES * k ≤ b →
            reached S (mem (a + WORD_BYTES * k)) s') →
  ∀ fuel it stop wl s wl' s',
    worklist_inv S cap wl s → (finish wl ≤ D)%nat →
    mark_worklist rec w fuel it stop wl s = Done (wl', s') →
    mark_post S cap wl s wl' s'.
Proof.
  intros Hrec fuel.
  induction fuel as [|fuel IH]; intros it stop wl s wl' s' Hinv HD.
  { simpl. destruct (decide (it = stop)); [|done]. intros [= <- <-].
    by apply mark_post_refl. }
  destruct (decide (it = stop)) as [->|Hne].
  { rewrite mark_worklist_stop. intros [= <- <-]. by apply mark_post_refl. }
  destruct (slots wl !! it) as [p|] eqn:Hslot.
  2: { simpl. by rewrite decide_False, Hslot. }
  destruct (objects s !! p) as [c|] eqn:Hc.
  2: { simpl. by rewrite decide_False, Hslot, Hc. }
  rewrite (mark_worklist_step _ _ _ _ _ _ _ p c) by done.
  destruct (points_into w c) eqn:Hpt; [|by apply IH].
  destruct (Chunk.m_marked c) eqn:Hm; simpl; [by apply IH|].
  intros H. apply bind_Done in H as (wl1 & Herase & H).
  apply bind_Done in H as ([wl2 s2] & Hr & H).
  pose proof (erase_Done _ _ _ Herase) as (Hlt & Hf1 & _).
  pose proof Hinv as (_ & _ & Hin & Hsep & _).
  assert (p ∈ S) as HpS.
  { rewrite Forall_forall in Hin. apply Hin. by eapply list_elem_of_lookup_2. }
  assert (in_address_space c) as Hsp by (by eapply Hsep).
  set (s1 := set_marked p c true (record (ChunkMarked c) s)) in *.
  assert (worklist_inv S cap wl1 s1) as Hinv1.
  { eapply worklist_inv_mark; [by apply worklist_inv_record|done| |done].
    by rewrite record_objects. }
  assert (marks_grow s s1) as Hg1.
  { eapply marks_grow_trans; [apply (marks_grow_record s (ChunkMarked c))|].
    apply marks_grow_set_marked. by rewrite record_objects. }
  destruct (Hrec _ _ _ _ _ _ Hinv1 ltac:(lia) Hr)
    as ((Hinv2 & Hg2 & Hf2 & Hc2) & Hr2).
  destruct (IH _ _ _ _ _ _ Hinv2 ltac:(lia) H) as (Hinv' & Hg' & Hf' & Hc').
  split; [done|]. split.
  { eapply marks_grow_trans; [exact Hg1|]. by eapply marks_grow_trans. }
  split; [lia|].
  intros q cq k Hq Hcq Hmq Hmq' Hk Hsz.
  destruct (decide (q = p)) as [->|Hqp].
  - assert (cq = c) as -> by congruence.
    eapply reached_grow; [exact Hg'|]. apply Hr2; [done|].
    rewrite c_end_in_address_space by done. lia.
  - apply (closed_since_trans s1 s2 s' Hg2 Hg' Hc2 Hc' q cq k); try done.
    unfold s1. simpl. by rewrite lookup_insert_ne, record_objects.
Qed.

Lemma mark_words_closed body D :
  (∀ a wl s wl' s',
     worklist_inv S cap wl s → (finish wl ≤ D)%nat →
     body a wl s = Done (wl', s') → mark_post S cap wl s wl' s') →
  ∀ fuel start end_ wl s wl' s',
    worklist_inv S cap wl s → (finish wl ≤ D)%nat →
    mark_words body fuel start end_ wl s = Done (wl', s') →
    mark_post S cap wl s wl' s'.
Proof.
  intros Hbody fuel.
  induction fuel as [|fuel IH]; intros start end_ wl s wl' s' Hinv HD; simpl.
  - destruct (decide (start ≤ end_)); [done|]. intros [= <- <-].
    by apply mark_post_refl.
  - destruct (decide (start ≤ end_)).
    2: { intros [= <- <-]. by apply mark_post_refl. }
    intros H. apply bind_Done in H as ([wl1 s1] & Hb & H).
    destruct (Hbody _ _ _ _ _ Hinv HD Hb) as (Hinv1 & Hg1 & Hf1 & Hc1).
    destruct (IH _ _ _ _ _ _ Hinv1 ltac:(lia) H) as (Hinv' & Hg' & Hf' & Hc').
    split; [done|]. split; [by eapply marks_grow_trans|]. split; [lia|].
    by eapply closed_since_trans.
Qed.

Lemma mark_rec_closed depth :
  ∀ start end_ wl s wl' s',
    worklist_inv S cap wl s → (finish wl < depth)%nat →
    mark_rec depth start end_ wl s = Done (wl', s') →
    mark_post S cap wl s wl' s'
    ∧ ∀ k, 0 ≤ k → start + WORD_BYTES * k ≤ end_ →
           reached S (mem (start + WORD_BYTES * k)) s'.
Proof.
  induction depth as [|depth IH]; intros start end_ wl s wl' s' Hinv Hd Hm;
    [lia|].
  destruct (mark_rec_reaches S cap _ start end_ wl s Hinv Hd)
    as (wl0 & s0 & Hm0 & _ & _ & _ & Hr).
  rewrite Hm in Hm0. injection Hm0 as <- <-. split; [|done].
  simpl in Hm.
  apply (mark_words_closed _ depth) in Hm.
  - destruct Hm as (Hinv' & Hg' & Hf' & Hc'). split; [done|].
    split; [|split; [done|]].
    + eapply marks_grow_trans; [apply (marks_grow_record s MarkStart)|done].
    + eapply closed_since_ext; [| |exact Hc']; [|done].
      by rewrite record_objects.
  - intros a wl1 s1 wl1' s1' Hinv1 HD1.
    apply (mark_worklist_closed (mark_rec depth) depth); [|done..].
    intros a0 b0 wl2 s2 wl2' s2' Hinv2 HD2. by apply IH.
  - by apply worklist_inv_record.
  - lia.
Qed.

End mark_closure.


(** *** mark: a rule for what the scanned words justify

    [J w] is a property of the words that [mark] reads; when a chunk is
    marked because a word with [J] points into it, the property must follow
    for the words of the chunk, which the recursive call reads. *)

Section mark_justified.

Variable J : Z → Prop.
Variable P : vector → State → Prop.

Hypothesis P_record : ∀ wl s e, P wl s → P wl (record e s).

Hypothesis P_mark : ∀ wl wl' s p c it w,
  P wl s → J w → slots wl !! it = Some p → objects s !! p = Some c →
  points_into w c = true → Chunk.m_marked c = false →
  erase it wl = Done wl' →
  P wl' (set_marked p c true s)
  ∧ ∀ k, 0 ≤ k → Chunk.m_start c + WORD_BYTES * k ≤ c_end c →
         J (mem (Chunk.m_start c + WORD_BYTES * k)).

Lemma mark_worklist_justified rec :
  (∀ a b wl s wl' s',
     P wl s → (∀ k, 0 ≤ k → a + WORD_BYTES * k ≤ b → J (mem (a + WORD_BYTES * k))) →
     rec a b wl s = Done (wl', s') → P wl' s') →
  ∀ w fuel it stop wl s wl' s',
    J w → P wl s →
    mark_worklist rec w fuel it stop wl s = Done (wl', s') → P wl' s'.
Proof using P_record P_mark.
  intros Hrec w fuel.
  induction fuel as [|fuel IH]; intros it stop wl s wl' s' HJ HP; simpl.
  - destruct (decide (it = stop)); [|done]. by intros [= <- <-].
  - destruct (decide (it = stop)); [by intros [= <- <-]|].
    destruct (slots wl !! it) as [p|] eqn:Hit; [|done].
    destruct (objects s !! p) as [c|] eqn:Hp; [|done].
    destruct (points_into w c) eqn:Hpt; [|by apply IH].
    destruct (Chunk.m_marked c) eqn:Hm; simpl; [by apply IH|].
    intros H. apply bind_Done in H as (wl1 & Herase & H).
    apply bind_Done in H as ([wl2 s2] & Hr & H).
    destruct (P_mark wl wl1 (record (ChunkMarked c) s) p c it w)
      as [HP1 HJ1]; try done.
    { by apply P_record. }
    { by rewrite record_objects. }
    eapply IH; [done| |exact H]. eapply Hrec; [exact HP1|exact HJ1|exact Hr].
Qed.

Lemma mark_words_justified body :
  (∀ a wl s wl' s',
     J (mem a) → P wl s → body a wl s = Done (wl', s') → P wl' s') →
  ∀ fuel start end_ wl s wl' s',
    (∀ k, 0 ≤ k → start + WORD_BYTES * k ≤ end_ →
          J (mem (start + WORD_BYTES * k))) →
    P wl s → mark_words body fuel start end_ wl s = Done (wl', s') → P wl' s'.
Proof using Type.
  intros Hbody fuel.
  induction fuel as [|fuel IH]; intros start end_ wl s wl' s' HJ HP; simpl.
  - destruct (decide (start ≤ end_)); [done|]. by intros [= <- <-].
  - destruct (decide (start ≤ end_)) as [Hle|]; [|by intros [= <- <-]].
    intros H. apply bind_Done in H as ([wl1 s1] & Hb & H).
    eapply IH; [| |exact H].
    + intros k Hk Hend.
      replace (start + WORD_BYTES + WORD_BYTES * k)
        with (start + WORD_BYTES * (k + 1)) by lia.
      apply HJ; lia.
    + eapply Hbody; [|exact HP|exact Hb].
      specialize (HJ 0). rewrite Z.mul_0_r, Z.add_0_r in HJ. apply HJ; lia.
Qed.

Lemma mark_rec_justified depth start end_ wl s wl' s' :
  (∀ k, 0 ≤ k → start + WORD_BYTES * k ≤ end_ →
        J (mem (start + WORD_BYTES * k))) →
  P wl s → mark_rec depth start end_ wl s = Done (wl', s') → P wl' s'.
Proof using P_record P_mark.
  revert start end_ wl s wl' s'.
  induction depth as [|depth IH]; intros start end_ wl s wl' s' HJ HP; [done|].
  simpl. apply mark_words_justified; [|done|by apply P_record].
  intros a wl0 s0 wl0' s0' HJ0 HP0. apply mark_worklist_justified; [|done..].
  intros a1 b1 wl1 s1 wl1' s1' HP1 HJ1. by apply IH.
Qed.

End mark_justified.

(** *** mark: the chunks marked are those reached *)

Lemma in_range_same c c' w :
  Chunk.m_start c' = Chunk.m_start c → Chunk.m_size c' = Chunk.m_size c →
  in_range c w → in_range c' w.
Proof. unfold in_range. intros -> ->. done. Qed.

Lemma in_address_space_same c c' :
  Chunk.m_start c' = Chunk.m_start c → Chunk.m_size c' = Chunk.m_size c →
  in_address_space c → in_address_space c'.
Proof. unfold in_address_space. intros -> ->. done. Qed.

Lemma mark_only_reachable S a0 b0 s0 wl s wl' s' depth :
  separate_chunks s0 S →
  Forall (λ p, p ∈ S) (slots wl) → marks_grow s0 s →
  (∀ p, p ∈ S → is_marked s p = true →
        is_marked s0 p = true ∨ reachable (objects s0) S a0 b0 p) →
  mark_rec depth a0 b0 wl s = Done (wl', s') →
  ∀ p, p ∈ S → is_marked s' p = true →
       is_marked s0 p = true ∨ reachable (objects s0) S a0 b0 p.
Proof.
  intros Hsep Hslots Hg Hold Hm.
  pose (J := λ w : Z, ∀ q cq, q ∈ S → objects s0 !! q = Some cq →
                             in_range cq w → reachable (objects s0) S a0 b0 q).
  pose (P := λ (wl : vector) (s : State),
          Forall (λ p, p ∈ S) (slots wl) ∧ marks_grow s0 s
          ∧ ∀ p, p ∈ S → is_marked s p = true →
                 is_marked s0 p = true ∨ reachable (objects s0) S a0 b0 p).
  enough (P wl' s') as (_ & _ & H) by exact H.
  apply (mark_rec_justified J P) with (5 := Hm).
  - intros wl1 s1 e (? & ? & Hr). split; [done|]. split.
    + eapply marks_grow_trans; [done|apply marks_grow_record].
    + intros p Hp. unfold is_marked. rewrite record_objects. by apply Hr.
  - intros wl1 wl1' s1 p c it w (Hsl & Hg1 & Hr) HJ Hit Hc Hpt Hun Herase.
    assert (p ∈ S) as HpS.
    { rewrite Forall_forall in Hsl. apply Hsl. by eapply list_elem_of_lookup_2. }
    destruct (marks_grow_chunk _ _ _ _ Hg1 Hc) as (c0 & Hc0 & Hst & Hsz).
    assert (in_address_space c0) as Hsp0 by (by eapply Hsep).
    assert (in_address_space c) as Hsp by (by eapply in_address_space_same).
    assert (reachable (objects s0) S a0 b0 p) as Hreach.
    { apply (HJ p c0 HpS Hc0). apply (in_range_same c); [done..|].
      by apply points_into_range. }
    split; [split; [|split]|].
    + by eapply erase_slots.
    + eapply marks_grow_trans; [done|]. by apply marks_grow_set_marked.
    + intros q Hq. unfold is_marked. simpl.
      destruct (decide (q = p)) as [->|Hne]; [by right|].
      rewrite lookup_insert_ne by done. by apply Hr.
    + intros k Hk Hend q cq Hq Hcq Hin.
      rewrite c_end_in_address_space in Hend by done.
      apply (reachable_step _ _ _ _ k p c0 q cq); try done; [lia|].
      by rewrite <- Hst.
  - intros k Hk Hend q cq Hq Hcq Hin. by eapply reachable_root.
  - done.
Qed.

(** [mark] over separate chunks, none of them marked, marks the chunks that
    are reached from the words of its range, and no other. *)
Lemma mark_exact S start end_ s :
  separate_chunks s S → none_marked s S →
  ∃ wl' s', mark start end_ (vector_of S) s = Done (wl', s')
    ∧ marks_grow s s'
    ∧ ∀ p, p ∈ S →
           is_marked s' p = true ↔ reachable (objects s) S start end_ p.
Proof.
  intros Hsep Hnone. unfold mark.
  destruct (mark_rec_reaches S (length S) (Datatypes.S (finish (vector_of S)))
              start end_ (vector_of S) s)
    as (wl' & s' & He & _ & Hg & _ & Hr); [by apply worklist_inv_start|lia|].
  exists wl', s'. split; [done|]. split; [done|].
  destruct (mark_rec_closed S (length S) _ _ _ _ _ _ _
              (worklist_inv_start S s Hsep) (Nat.lt_succ_diag_r _) He)
    as ((_ & _ & _ & Hclosed) & _).
  intros p Hp. split.
  - intros Hm.
    destruct (mark_only_reachable S start end_ s (vector_of S) s wl' s'
                (Datatypes.S (finish (vector_of S))) Hsep)
      with (p := p) as [Hold|H]; try done.
    + by apply Forall_forall.
    + apply marks_grow_refl.
    + intros q Hq Hmq. rewrite (Hnone q Hq) in Hmq. done.
    + rewrite (Hnone p Hp) in Hold. done.
  - clear Hp. induction 1 as [k p c Hk Hend Hp Hc Hin|k p c q cq Hrp IH Hc Hk Hsz Hq Hcq Hin].
    + destruct (marks_grow_live s s' p Hg) as [Hl _].
      destruct Hl as [c' Hc']; [by eexists|].
      destruct (marks_grow_chunk _ _ _ _ Hg Hc') as (c0 & Hc0 & Hst & Hsz).
      assert (c0 = c) as -> by congruence.
      unfold is_marked. rewrite Hc'. apply (Hr k Hk Hend p c' Hp Hc').
      by apply (in_range_same c).
    + assert (Chunk.m_marked c = false) as Hun.
      { specialize (Hnone p). unfold is_marked in Hnone. rewrite Hc in Hnone.
        apply Hnone. clear -Hrp. by destruct Hrp. }
      assert (p ∈ S) as Hp by (clear -Hrp; by destruct Hrp).
      pose proof (Hclosed p c k Hp Hc Hun IH Hk Hsz) as Hreached.
      destruct (marks_grow_live s s' q Hg) as [Hl _].
      destruct Hl as [c' Hc']; [by eexists|].
      destruct (marks_grow_chunk _ _ _ _ Hg Hc') as (c0 & Hc0 & Hst & Hsz').
      assert (c0 = cq) as -> by congruence.
      unfold is_marked. rewrite Hc'. apply (Hreached q c' Hq Hc').
      by apply (in_range_same cq).
Qed.


(** *** free_overlap and free: the chunks that leave the freed list *)

Lemma kept_after_sublist o prev l : sublist (kept_after o prev l) l.
Proof.
  revert prev. induction l as [|q l IH]; intros prev; simpl; [done|].
  destruct (o !! q) as [next|]; [|apply sublist_nil_l].
  destruct (c_end prev <=? Chunk.m_start next).
  - by apply sublist_skip.
  - by apply sublist_cons.
Qed.

(** A chunk that [free_overlap] drops from the freed list is deleted, unless
    it was marked: then it is left on the free store, no longer marked. *)
Lemma free_overlap_dropped s p0 rest c0 s' :
  m_freed_chunks s = p0 :: rest → objects s !! p0 = Some c0 →
  NoDup (m_freed_chunks s) → all_live s (m_freed_chunks s) →
  free_overlap s = Done s' →
  cout s' = cout s ++ [OutAddr (Chunk.m_start c0)]
  ∧ ∀ q, q ∈ m_freed_chunks s → q ∉ m_freed_chunks s' →
         objects s' !! q
         = if is_marked s q then Chunk.set_marked false <$> objects s !! q
           else None.
Proof.
  intros Hfreed Hc0 Hnd Hlive. rewrite Hfreed in Hnd, Hlive.
  pose proof Hnd as [Hp0 Hnd']%NoDup_cons.
  pose proof Hlive as [_ Hlive']%all_live_cons.
  unfold free_overlap, get_at. rewrite Hfreed. simpl. rewrite Hc0.
  set (s1 := print _ (set_marked p0 c0 true s)).
  assert (∀ x, x ≠ p0 → objects s1 !! x = objects s !! x) as Hother.
  { intros x Hx. simpl. by rewrite lookup_insert_ne. }
  assert (objects s1 !! p0 = Some (Chunk.set_marked true c0)) as Hp0'.
  { simpl. by rewrite lookup_insert_eq. }
  destruct (overlap_filter_spec rest [] p0 (Chunk.set_marked true c0) s1)
    as (s2 & He & Hm & Hfr2 & Hf2 & Hcout2); [done| |done|].
  { eapply all_live_objects; [|exact Hlive']. intros x Hx.
    rewrite Hother; [done|]. by intros ->. }
  assert (kept_after (objects s1) (Chunk.set_marked true c0) rest
          = kept_after (objects s) c0 rest) as HK.
  { apply kept_after_ext; [|done..]. intros x Hx. apply Hother. by intros ->. }
  rewrite HK in He, Hm. rewrite drop_0. simpl in He. rewrite He. simpl.
  set (K := kept_after (objects s) c0 rest) in *.
  set (s3 := with_freed (p0 :: K) s2).
  assert (∀ x, objects s3 !! x
               = if decide (x ∈ p0 :: K)
                 then Chunk.set_marked true <$> objects s !! x
                 else objects s !! x) as Hobj3.
  { intros x. unfold s3. simpl. rewrite (Hm x).
    destruct (decide (x = p0)) as [->|Hx].
    - rewrite decide_False by (intros H%kept_after_subset; by apply Hp0).
      rewrite decide_True by apply list_elem_of_here. by rewrite Hp0', Hc0.
    - rewrite Hother by done. destruct (decide (x ∈ K)).
      + by rewrite decide_True by by apply list_elem_of_further.
      + by rewrite decide_False by by apply not_elem_of_cons. }
  destruct (overlap_delete_spec (p0 :: rest) s3)
    as (s'' & He' & Hcl & Hfr' & Hf' & Hcout'); [done| |].
  { eapply all_live_objects; [|exact Hlive]. intros x Hx [c Hc].
    rewrite Hobj3, Hc. by destruct (decide _). }
  intros Hd. change (overlap_delete (p0 :: rest) s3 = Done s') in Hd.
  rewrite He' in Hd. injection Hd as <-.
  split; [rewrite Hcout'; unfold s3; simpl; by rewrite Hcout2|].
  intros q Hq Hout.
  rewrite Hf' in Hout. unfold s3 in Hout. simpl in Hout.
  rewrite (Hcl q), decide_True by done. unfold is_marked.
  by rewrite Hobj3, decide_False by done.
Qed.

(** [free] returns on a freed list without duplicates whose chunks are chunk
    objects: what is left of the list is a part of it, in its order, of chunk
    objects; a chunk that left the list and was not marked is deleted. *)
Lemma free_lists s :
  NoDup (m_freed_chunks s) → all_live s (m_freed_chunks s) →
  ∃ s', free s = Done s' ∧ free_frame s s'
    ∧ (∀ q, q ∉ m_freed_chunks s → objects s' !! q = objects s !! q)
    ∧ sublist (m_freed_chunks s') (m_freed_chunks s)
    ∧ (∀ q, q ∈ m_freed_chunks s' →
         ∃ c, objects s !! q = Some c
              ∧ objects s' !! q = Some (Chunk.set_marked false c))
    ∧ (∀ q, q ∈ m_freed_chunks s → q ∉ m_freed_chunks s' →
         is_marked s q = false → objects s' !! q = None).
Proof.
  intros Hnd Hlive. unfold free.
  destruct (decide (FREE_THRESH < length (m_freed_chunks s))%nat).
  - destruct (free_all_spec (m_freed_chunks s) s (length (m_freed_chunks s)))
      as (s' & He & Hf & Hd & Hfr & _); [done..|].
    exists s'. split; [done|]. split; [done|]. split; [|split; [|split]].
    + intros q Hq. by rewrite (Hd q), decide_False.
    + rewrite Hf. apply sublist_nil_l.
    + rewrite Hf. by intros q Hq%not_elem_of_nil.
    + intros q Hq _ _. by rewrite (Hd q), decide_True.
  - destruct (decide (length (m_freed_chunks s) ≠ 0%nat)) as [Hlen|Hlen].
    + destruct (m_freed_chunks s) as [|p0 rest] eqn:Hfreed; [done|].
      pose proof Hlive as [[c0 Hc0] _]%all_live_cons.
      destruct (free_overlap_spec s p0 rest c0)
        as (s' & He & Hf & Hkept & Hout & Hfr); [by rewrite ?Hfreed..|].
      exists s'. rewrite Hfreed in Hout.
      split; [done|]. split; [done|]. split; [done|]. split; [|split; [done|]].
      * rewrite Hf. apply sublist_skip, kept_after_sublist.
      * intros q Hq Hq' Hun.
        rewrite (proj2 (free_overlap_dropped s p0 rest c0 s' Hfreed Hc0
                          ltac:(by rewrite Hfreed) ltac:(by rewrite Hfreed)
                          He) q), Hun; [done|by rewrite Hfreed|done].
    + exists s. split; [done|]. split; [apply free_frame_refl|].
      split; [done|]. split; [done|]. split; [|done].
      intros q Hq. unfold all_live in Hlive. rewrite Forall_forall in Hlive.
      destruct (Hlive q Hq) as [c Hc]. exists c. split; [done|].
      assert (m_freed_chunks s = []) as Hnil.
      { apply length_zero_iff_nil. lia. }
      rewrite Hnil in Hq. by apply not_elem_of_nil in Hq.
Qed.


(** *** collect: its three phases *)

Lemma set_marked_false_grow s s' p c c' :
  marks_grow s s' → objects s !! p = Some c → objects s' !! p = Some c' →
  Chunk.set_marked false c' = Chunk.set_marked false c.
Proof.
  intros Hg Hc Hc'. destruct (Hg p) as [Heq|(c0 & Hc0 & Heq)].
  - congruence.
  - rewrite Hc in Hc0. injection Hc0 as <-. rewrite Heq in Hc'.
    by injection Hc' as <-.
Qed.

(** [mark] leaves a chunk that is not in its worklist as it is. *)
Lemma mark_rec_outside (S : list chunk_ptr) depth start end_ wl s wl' s' :
  Forall (λ p, p ∈ S) (slots wl) →
  mark_rec depth start end_ wl s = Done (wl', s') →
  ∀ q, q ∉ S → objects s' !! q = objects s !! q.
Proof.
  intros Hsl Hm.
  enough (Forall (λ p, p ∈ S) (slots wl')
          ∧ ∀ q, q ∉ S → objects s' !! q = objects s !! q) as [_ H] by done.
  revert Hm.
  apply (mark_rec_invariant
           (λ wl1 s1, Forall (λ p, p ∈ S) (slots wl1)
                      ∧ ∀ q, q ∉ S → objects s1 !! q = objects s !! q)).
  - intros wl1 s1 e [? H]. split; [done|]. intros q Hq.
    rewrite record_objects. by apply H.
  - intros wl1 wl1' s1 p c it [Hs H] Hit Hc _ Herase.
    split; [by eapply erase_slots|]. intros q Hq. simpl.
    rewrite lookup_insert_ne; [by apply H|]. intros ->. apply Hq.
    rewrite Forall_forall in Hs. apply Hs. by eapply list_elem_of_lookup_2.
  - done.
Qed.

(** On a heap that satisfies its invariant and knows its stack top, the
    phases of [collect] return one after the other: [mark] in [s1], [sweep]
    in [s2], [free] in [s']. *)
Lemma collect_stages s :
  heap_wf s → m_stack_top s ≠ 0 →
  ∃ wl s1 s2 s',
    mark stack_bottom (m_stack_top s) (vector_of (m_allocated_chunks s))
      (record CollectStart s) = Done (wl, s1)
    ∧ sweep s1 = Done s2 ∧ free s2 = Done s' ∧ collect s = Done s'
    ∧ marks_grow s s1
    ∧ m_allocated_chunks s'
      = filter (λ p, is_marked s1 p = true) (m_allocated_chunks s)
    ∧ m_freed_chunks s2
      = m_freed_chunks s
        ++ filter (λ p, is_marked s1 p = false) (m_allocated_chunks s)
    ∧ sublist (m_freed_chunks s') (m_freed_chunks s2)
    ∧ (∀ p, p ∈ m_allocated_chunks s' →
         ∃ c, objects s !! p = Some c
              ∧ objects s' !! p = Some (Chunk.set_marked false c))
    ∧ all_live s' (m_freed_chunks s')
    ∧ (∀ q, q ∈ m_allocated_chunks s → is_marked s1 q = false →
            q ∈ m_freed_chunks s' ∨ objects s' !! q = None)
    ∧ (∀ q, q ∉ m_allocated_chunks s → q ∉ m_freed_chunks s →
            objects s' !! q = objects s !! q)
    ∧ same_setup s s' ∧ m_size s' = m_size s.
Proof.
  intros (Hnd & Hlivef & Hsep) Htop.
  unfold collect. set (s0 := record CollectStart s).
  assert (objects s0 = objects s) as Hobj0 by apply record_objects.
  assert (m_allocated_chunks s0 = m_allocated_chunks s) as Ha0
    by apply record_allocated.
  assert (m_freed_chunks s0 = m_freed_chunks s) as Hf0 by apply record_freed.
  pose proof (record_setup CollectStart s) as Hset0. fold s0 in Hset0.
  assert (m_stack_top s0 = m_stack_top s) as Ht0 by apply Hset0.
  rewrite decide_False by congruence. rewrite Ha0, Ht0.
  destruct (mark_reaches (m_allocated_chunks s) stack_bottom (m_stack_top s) s0)
    as (wl & s1 & Hm & Hg & _).
  { eapply separate_chunks_grow; [apply marks_grow_record|done]. }
  rewrite Hm. simpl.
  pose proof (mark_rec_frame _ _ _ _ _ _ _ Hm) as (Hset1 & Hsz1 & Ha1 & Hf1 & _).
  rewrite Ha0 in Ha1. rewrite Hf0 in Hf1.
  assert (marks_grow s s1) as Hg1.
  { intros q. specialize (Hg q). by rewrite Hobj0 in Hg. }
  assert (∀ q, is_Some (objects s !! q) ↔ is_Some (objects s1 !! q)) as Hlive1.
  { intros q. by apply marks_grow_live. }
  apply NoDup_app in Hnd as (Hnda & Hdisj & Hndf).
  destruct (sweep_spec s1) as (s2 & Hs & Ha2 & Hf2 & Hu & Hset2 & Hsz2 & _).
  { by rewrite Ha1. }
  { rewrite Ha1. destruct Hsep as (Hlivea & _).
    eapply all_live_objects; [|exact Hlivea]. intros q _. by apply Hlive1. }
  rewrite Hs. simpl. rewrite Ha1 in Ha2, Hf2, Hu. rewrite Hf1 in Hf2.
  assert (∀ q, is_Some (objects s !! q) ↔ is_Some (objects s2 !! q)) as Hlive2.
  { intros q. rewrite Hlive1, (Hu q).
    destruct (decide _); [|done]. by rewrite fmap_is_Some. }
  destruct (free_lists s2)
    as (s3 & Hfree & (Hset3 & Hsz3 & Ha3) & Hout & Hsub & Hkept & Hdrop).
  { rewrite Hf2. apply NoDup_app. split; [done|]. split.
    - intros q Hq [_ Hq']%list_elem_of_filter. by apply (Hdisj q).
    - by apply NoDup_filter. }
  { rewrite Hf2. apply all_live_app. split.
    - eapply all_live_objects; [|exact Hlivef]. intros q _. by apply Hlive2.
    - apply all_live_filter. destruct Hsep as (Hlivea & _).
      eapply all_live_objects; [|exact Hlivea]. intros q _. by apply Hlive2. }
  exists wl, s1, s2, s3.
  split; [done|]. split; [done|]. split; [done|]. split; [done|].
  split; [done|]. split; [by rewrite Ha3, Ha2|]. split; [done|].
  split; [done|].
  assert (∀ p, p ∈ m_allocated_chunks s → is_marked s1 p = true →
               p ∉ m_freed_chunks s2) as Hnotfreed.
  { intros p Hp Hmp. rewrite Hf2. intros [Hq|Hq]%elem_of_app.
    - by apply (Hdisj p).
    - apply list_elem_of_filter in Hq as [Hq _]. congruence. }
  split; [|split; [|split; [|split; [|split]]]].
  - intros p Hp. rewrite Ha3, Ha2 in Hp.
    apply list_elem_of_filter in Hp as [Hmp Hp].
    destruct Hsep as (Hlivea & _). unfold all_live in Hlivea.
    rewrite Forall_forall in Hlivea. destruct (Hlivea p Hp) as [c Hc].
    exists c. split; [done|].
    destruct (proj1 (Hlive1 p)) as [c1 Hc1]; [by eexists|].
    rewrite Hout by by apply Hnotfreed.
    rewrite (Hu p), decide_True, Hc1 by done. simpl. f_equal.
    by eapply set_marked_false_grow.
  - unfold all_live. rewrite Forall_forall. intros q Hq.
    destruct (Hkept q Hq) as (c & _ & Hc). by eexists.
  - intros q Hq Hun.
    destruct (decide (q ∈ m_freed_chunks s3)) as [|Hnot]; [by left|].
    right. apply Hdrop; [|done|].
    + rewrite Hf2. apply elem_of_app. right. by apply list_elem_of_filter.
    + unfold is_marked. rewrite (Hu q), decide_True by done.
      unfold is_marked in Hun. destruct (objects s1 !! q); [|done].
      done.
  - intros q Hqa Hqf. rewrite Hout.
    + rewrite (Hu q), decide_False by done. rewrite <- Hobj0.
      apply (mark_rec_outside (m_allocated_chunks s) _ _ _ _ _ _ _) with (2 := Hm);
        [|done].
      by apply Forall_forall.
    + rewrite Hf2. intros [H|H]%elem_of_app; [done|].
      by apply list_elem_of_filter in H as [_ H].
  - destruct Hset0 as (? & ? & ?). destruct Hset1 as (? & ? & ?).
    destruct Hset2 as (? & ? & ?). destruct Hset3 as (? & ? & ?).
    unfold same_setup. repeat split; congruence.
  - rewrite Hsz3, Hsz2, Hsz1. apply record_size.
Qed.


(** ** Collection as a whole *)

Lemma heap_wf_objects s s' :
  objects s' = objects s → m_allocated_chunks s' = m_allocated_chunks s →
  m_freed_chunks s' = m_freed_chunks s → heap_wf s → heap_wf s'.
Proof.
  unfold heap_wf, separate_chunks, all_live. intros -> -> ->. done.
Qed.

Lemma heap_wf_record e s : heap_wf s → heap_wf (record e s).
Proof.
  apply heap_wf_objects;
    [apply record_objects|apply record_allocated|apply record_freed].
Qed.

(** X1: [collect] keeps the representation invariant of the heap.  On a heap
    without a chunk twice in its lists, with chunk objects behind all
    pointers and separate allocated chunks, [collect] returns, and the heap
    it leaves is such a heap again; the allocated chunks are a part of the
    former ones, in their order, none of them marked; the freed chunks come
    from the two former lists; the counter and the stack top are as
    before. *)
Theorem collect_keeps_heap_wf (s : State) :
  heap_wf s → m_stack_top s ≠ 0 →
  ∃ s', collect s = Done s' ∧ heap_wf s'
    ∧ none_marked s' (m_allocated_chunks s')
    ∧ sublist (m_allocated_chunks s') (m_allocated_chunks s)
    ∧ (∀ q, q ∈ m_freed_chunks s' →
            q ∈ m_freed_chunks s ∨ q ∈ m_allocated_chunks s)
    ∧ m_size s' = m_size s ∧ m_stack_top s' = m_stack_top s.
Proof.
  intros Hwf Htop.
  destruct (collect_stages s Hwf Htop)
    as (wl & s1 & s2 & s' & _ & _ & _ & Hc & Hg & Ha & Hf2 & Hsub & Hkeep
        & Hlive & _ & _ & Hset & Hsz).
  destruct Hwf as (Hnd & Hlivef & Hsep).
  apply NoDup_app in Hnd as (Hnda & Hdisj & Hndf).
  assert (NoDup (m_freed_chunks s2)) as Hnd2.
  { rewrite Hf2. apply NoDup_app. split; [done|]. split.
    - intros q Hq [_ Hq']%list_elem_of_filter. by apply (Hdisj q).
    - by apply NoDup_filter. }
  exists s'. split; [done|]. split; [split; [|split; [done|]]|].
  - apply NoDup_app. split; [rewrite Ha; by apply NoDup_filter|]. split.
    + intros q Hq Hq'. rewrite Ha in Hq.
      apply list_elem_of_filter in Hq as [Hm Hq].
      apply (elem_of_sublist _ _ _ Hq') in Hsub. rewrite Hf2 in Hsub.
      apply elem_of_app in Hsub as [H|H]; [by apply (Hdisj q)|].
      apply list_elem_of_filter in H as [H _]. congruence.
    + by eapply sublist_NoDup.
  - destruct Hsep as (Hlivea & Hsp & Hdj).
    assert (∀ p, p ∈ m_allocated_chunks s' → p ∈ m_allocated_chunks s) as Hin.
    { intros p Hp. rewrite Ha in Hp. by apply list_elem_of_filter in Hp as [_ ?]. }
    split; [|split].
    + unfold all_live. rewrite Forall_forall. intros p Hp.
      destruct (Hkeep p Hp) as (c & _ & Hc'). by eexists.
    + intros p c' Hp Hc'. destruct (Hkeep p Hp) as (c & Hc0 & Hc1).
      rewrite Hc1 in Hc'. injection Hc' as <-.
      by apply (Hsp p c (Hin p Hp) Hc0).
    + intros p q cp' cq' Hp Hq Hne Hcp' Hcq'.
      destruct (Hkeep p Hp) as (cp & Hcp0 & Hcp1).
      destruct (Hkeep q Hq) as (cq & Hcq0 & Hcq1).
      rewrite Hcp1 in Hcp'. rewrite Hcq1 in Hcq'.
      injection Hcp' as <-. injection Hcq' as <-.
      by apply (Hdj p q cp cq (Hin p Hp) (Hin q Hq) Hne Hcp0 Hcq0).
  - split; [|split; [|split; [|split; [done|apply Hset]]]].
    + intros p Hp. destruct (Hkeep p Hp) as (c & _ & Hc'). unfold is_marked.
      by rewrite Hc'.
    + rewrite Ha. apply sublist_filter.
    + intros q Hq. apply (elem_of_sublist _ _ _ Hq) in Hsub.
      rewrite Hf2 in Hsub. apply elem_of_app in Hsub as [H|H]; [by left|].
      right. by apply list_elem_of_filter in H as [_ H].
Qed.

Lemma none_marked_record e s l : none_marked s l → none_marked (record e s) l.
Proof. intros H p Hp. unfold is_marked. rewrite record_objects. by apply H. Qed.

(** X2: on a heap that satisfies its representation invariant [heap_wf] and
    has its stack top set, a chunk that is reached from the stack through
    other chunks survives a collection.  When no allocated chunk of such a
    heap is marked beforehand, [collect] returns, and every chunk around an
    address held by a word of the scanned stack, and every chunk around an
    address held by a word of such a chunk (the words at [c.start],
    [c.start + 8], ... up to [c.start + c.size]), and so on, is still
    allocated afterwards, and not marked.  Nothing is said about a heap
    outside the invariant or with a null stack top. *)
Theorem reached_chunks_survive_collect (s : State) (p : chunk_ptr) :
  heap_wf s → m_stack_top s ≠ 0 → none_marked s (m_allocated_chunks s) →
  reachable (objects s) (m_allocated_chunks s) stack_bottom (m_stack_top s) p →
  ∃ s' c, collect s = Done s' ∧ p ∈ m_allocated_chunks s'
    ∧ objects s !! p = Some c
    ∧ objects s' !! p = Some (Chunk.set_marked false c).
Proof.
  intros Hwf Htop Hnone Hreach.
  destruct (collect_stages s Hwf Htop)
    as (wl & s1 & s2 & s' & Hm & _ & _ & Hc & _ & Ha & _ & _ & Hkeep & _).
  destruct Hwf as (_ & _ & Hsep).
  destruct (mark_exact (m_allocated_chunks s) stack_bottom (m_stack_top s)
              (record CollectStart s))
    as (wl0 & s0 & Hm0 & _ & Hexact).
  { eapply separate_chunks_grow; [apply marks_grow_record|done]. }
  { by apply none_marked_record. }
  rewrite Hm in Hm0. injection Hm0 as <- <-.
  rewrite record_objects in Hexact.
  assert (p ∈ m_allocated_chunks s) as Hp by (by destruct Hreach).
  assert (p ∈ m_allocated_chunks s') as Hp'.
  { rewrite Ha. apply list_elem_of_filter. split; [|done]. by apply Hexact. }
  destruct (Hkeep p Hp') as (c & Hc0 & Hc1). by exists s', c.
Qed.

(** X3: on a heap that satisfies its representation invariant [heap_wf] and
    has its stack top set, a chunk that is not reached is reclaimed.
    [collect] returns on such a heap, and an allocated chunk, not marked,
    that is not reached from the scanned stack, directly or through other
    chunks, is no longer allocated afterwards: it is in the freed list, or
    deleted.  Nothing is said about a heap outside the invariant or with a
    null stack top. *)
Theorem unreached_chunk_is_reclaimed (s : State) (p : chunk_ptr) :
  heap_wf s → m_stack_top s ≠ 0 →
  p ∈ m_allocated_chunks s → is_marked s p = false →
  ¬ reachable (objects s) (m_allocated_chunks s)
      stack_bottom (m_stack_top s) p →
  ∃ s', collect s = Done s' ∧ (p ∉ m_allocated_chunks s')
    ∧ (p ∈ m_freed_chunks s' ∨ objects s' !! p = None).
Proof.
  intros Hwf Htop Hp Hun Hnot.
  destruct (collect_stages s Hwf Htop)
    as (wl & s1 & s2 & s' & Hm & _ & _ & Hc & _ & Ha & _ & _ & _ & _ & Hdrop & _).
  destruct Hwf as (_ & _ & Hsep).
  assert (is_marked s1 p = false) as Hun1.
  { destruct (is_marked s1 p) eqn:Hm1; [|done]. exfalso.
    unfold mark in Hm. set (s0 := record CollectStart s) in *.
    assert (separate_chunks s0 (m_allocated_chunks s)) as Hsep0.
    { eapply separate_chunks_grow; [apply marks_grow_record|done]. }
    assert (Forall (λ q, q ∈ m_allocated_chunks s)
              (slots (vector_of (m_allocated_chunks s)))) as Hsl
      by (by apply Forall_forall).
    assert (∀ q, q ∈ m_allocated_chunks s → is_marked s0 q = true →
              is_marked s0 q = true
              ∨ reachable (objects s0) (m_allocated_chunks s)
                  stack_bottom (m_stack_top s) q) as Hold
      by (intros q _ Hq; by left).
    destruct (mark_only_reachable _ _ _ _ _ _ _ _ _ Hsep0 Hsl
                (marks_grow_refl s0) Hold Hm p Hp Hm1) as [H|H].
    - unfold is_marked, s0 in H. rewrite record_objects in H.
      unfold is_marked in Hun. congruence.
    - unfold s0 in H. rewrite record_objects in H. done. }
  exists s'. split; [done|]. split; [|by apply Hdrop].
  rewrite Ha. intros [H _]%list_elem_of_filter. congruence.
Qed.


(** ** mark *)

(** X4: [mark] marks the chunks it reaches, and no other.  Over separate
    chunks, none of them marked, [mark] returns; a chunk of the worklist is
    marked afterwards exactly when it is reached from the words of the range,
    directly or through the words of other chunks; the chunks outside the
    worklist, the two lists of the heap, its counter and the output are as
    before. *)
Theorem mark_marks_reached_chunks
    (S : list chunk_ptr) (start end_ : Z) (s : State) :
  separate_chunks s S → none_marked s S →
  ∃ wl' s', mark start end_ (vector_of S) s = Done (wl', s')
    ∧ (∀ p, p ∈ S →
         is_marked s' p = true ↔ reachable (objects s) S start end_ p)
    ∧ (∀ p, p ∉ S → objects s' !! p = objects s !! p)
    ∧ marks_grow s s' ∧ mark_frame s s'.
Proof.
  intros Hsep Hnone.
  destruct (mark_exact S start end_ s Hsep Hnone) as (wl' & s' & Hm & Hg & He).
  exists wl', s'. split; [done|]. split; [done|]. split; [|split; [done|]].
  - apply (mark_rec_outside S _ _ _ _ _ _ _) with (2 := Hm).
    by apply Forall_forall.
  - by eapply mark_rec_frame.
Qed.

Lemma mark_worklist_idle rec w fuel :
  ∀ it stop wl s,
    (it ≤ stop)%nat → (stop ≤ length (slots wl))%nat → (stop - it ≤ fuel)%nat →
    (∀ j p, (it ≤ j < stop)%nat → slots wl !! j = Some p →
       ∃ c, objects s !! p = Some c
            ∧ (points_into w c = true → Chunk.m_marked c = true)) →
    mark_worklist rec w fuel it stop wl s = Done (wl, s).
Proof.
  induction fuel as [|fuel IH]; intros it stop wl s Hit Hstop Hfuel Hidle.
  { assert (it = stop) as -> by lia. apply mark_worklist_stop. }
  destruct (decide (it = stop)) as [->|Hne]; [apply mark_worklist_stop|].
  destruct (lookup_lt_is_Some_2 (slots wl) it) as [p Hp]; [lia|].
  destruct (Hidle it p) as (c & Hc & Hm); [lia|done|].
  rewrite (mark_worklist_step _ _ _ _ _ _ _ p c) by done.
  assert (mark_worklist rec w fuel (S it) stop wl s = Done (wl, s)) as Hnext.
  { apply IH; [lia..|]. intros j q Hj. apply Hidle. lia. }
  destruct (points_into w c); [|done]. by rewrite Hm.
Qed.

Lemma mark_words_idle_range body fuel :
  ∀ start end_ wl s,
    (∀ k, 0 ≤ k → start + WORD_BYTES * k ≤ end_ →
          body (start + WORD_BYTES * k) wl s = Done (wl, s)) →
    (words_between start end_ ≤ fuel)%nat →
    mark_words body fuel start end_ wl s = Done (wl, s).
Proof.
  induction fuel as [|fuel IH]; intros start end_ wl s Hbody Hfuel; simpl.
  - destruct (decide (start ≤ end_)) as [Hle|]; [|done].
    rewrite words_between_step in Hfuel by done. lia.
  - destruct (decide (start ≤ end_)) as [Hle|]; [|done].
    specialize (Hbody 0) as H0. rewrite Z.mul_0_r, Z.add_0_r in H0.
    rewrite H0 by lia. simpl. apply IH.
    + intros k Hk Hend.
      replace (start + WORD_BYTES + WORD_BYTES * k)
        with (start + WORD_BYTES * (k + 1)) by lia.
      apply Hbody; lia.
    + rewrite words_between_step in Hfuel by done. lia.
Qed.

(** X5: [mark] passes over the chunks that are marked already.  When every
    chunk of the worklist that a word of the range points into is marked
    beforehand, [mark] returns the worklist and the state as they were, but
    for the event of its start: it marks nothing and erases nothing from the
    worklist. *)
Theorem mark_passes_over_marked_chunks
    (l : list chunk_ptr) (start end_ : Z) (s : State) :
  all_live s l →
  (∀ k p c, 0 ≤ k → start + WORD_BYTES * k ≤ end_ →
     p ∈ l → objects s !! p = Some c →
     points_into (mem (start + WORD_BYTES * k)) c = true →
     Chunk.m_marked c = true) →
  mark start end_ (vector_of l) s = Done (vector_of l, record MarkStart s).
Proof.
  intros Hlive Hmarked. unfold mark. simpl.
  apply mark_words_idle_range; [|done].
  intros k Hk Hend. apply mark_worklist_idle; simpl; [lia..|].
  intros j p Hj Hp. apply list_elem_of_lookup_2 in Hp.
  unfold all_live in Hlive. rewrite Forall_forall in Hlive.
  destruct (Hlive p Hp) as [c Hc]. exists c. rewrite record_objects.
  split; [done|]. by apply (Hmarked k p c).
Qed.


(** ** alloc *)

(** X6: a request beyond the capacity never gets an address.  When the sum
    of the counter and the size, as the machine computes it, exceeds
    [HEAP_SIZE], [alloc] runs [collect] and stops on an assertion: on the one
    of [collect] when the stack top was never set, and otherwise, on a heap
    that satisfies its invariant, on its own, because [collect] leaves the
    counter as it is.  Whatever the heap, [alloc] does not return. *)
Theorem alloc_beyond_capacity_aborts (size : Z) (s : State) :
  size ≠ 0 → HEAP_SIZE < wrap (m_size s + size) →
  (m_stack_top s = 0 →
   alloc size s = Abort "Heap is not initialized, read the docs!")
  ∧ (heap_wf s → m_stack_top s ≠ 0 →
     alloc size s = Abort "Heap: Out Of Memory")
  ∧ ∀ r, alloc size s ≠ Done r.
Proof.
  intros Hsize Hcap. rewrite (alloc_after_collect size s Hsize Hcap).
  assert (m_stack_top (record (AllocStart size) s) = m_stack_top s) as Htop
    by apply record_setup.
  split; [|split].
  - intros H0. unfold collect.
    assert (m_stack_top (record CollectStart (record (AllocStart size) s)) = 0)
      as -> by (rewrite <- H0, <- Htop; apply record_setup).
    done.
  - intros Hwf Hne.
    destruct (collect_stages (record (AllocStart size) s))
      as (_ & _ & _ & s' & _ & _ & _ & -> & _); [|congruence|done].
    by apply heap_wf_record.
  - intros r. by destruct (collect _).
Qed.

(** X7: [init] makes the heap ready for collections.  It stores the frame
    address of its caller as the stack top and leaves the chunks, the lists
    and the counter alone; on a heap that satisfies its invariant, [collect]
    then returns, where before, with a null stack top, it stopped on its
    assertion. *)
Theorem init_makes_collect_return (caller_frame : Z) (s : State) :
  heap_wf s → caller_frame ≠ 0 →
  m_stack_top (init caller_frame s) = caller_frame
  ∧ objects (init caller_frame s) = objects s
  ∧ m_allocated_chunks (init caller_frame s) = m_allocated_chunks s
  ∧ m_freed_chunks (init caller_frame s) = m_freed_chunks s
  ∧ m_size (init caller_frame s) = m_size s
  ∧ events (init caller_frame s)
    = events s ++ (if m_profiler_enable s then [HeapInit] else [])
  ∧ (m_stack_top s = 0 →
     collect s = Abort "Heap is not initialized, read the docs!")
  ∧ ∃ s', collect (init caller_frame s) = Done s'
          ∧ m_stack_top s' = caller_frame.
Proof.
  intros Hwf Hframe. unfold init. simpl_state.
  split; [done|]. split; [done|]. split; [done|]. split; [done|].
  split; [done|]. split; [apply record_events|]. split.
  - intros H0. unfold collect.
    assert (m_stack_top (record CollectStart s) = 0) as ->
      by (rewrite <- H0; apply record_setup).
    done.
  - destruct (collect_stages (with_stack_top caller_frame (record HeapInit s)))
      as (_ & _ & _ & s' & _ & _ & _ & Hc & _ & _ & _ & _ & _ & _ & _ & _
          & (_ & Ht & _) & _); [|done|by exists s'].
    eapply heap_wf_objects; [| | |exact Hwf]; by simpl_state.
Qed.


(** *** alloc: requests served within the capacity *)

Lemma alloc_within_capacity size s :
  size ≠ 0 → wrap (m_size s + size) ≤ HEAP_SIZE →
  alloc size s = alloc_chunk size (record (AllocStart size) s).
Proof.
  intros Hsize Hcap. unfold alloc. rewrite decide_False by done.
  rewrite record_size. by rewrite decide_False by lia.
Qed.




(** *** alloc: new chunks one behind the other *)

Lemma bump_heap_alloc_more size s :
  bump_heap s → 0 < size → m_size s + size ≤ HEAP_SIZE →
  ∃ s', alloc size s = Done (m_heap s + m_size s, s') ∧ bump_heap s'
        ∧ m_size s' = m_size s + size ∧ m_heap s' = m_heap s
        ∧ length (m_allocated_chunks s') = S (length (m_allocated_chunks s)).
Proof.
  intros Hb Hsize Hcap.
  destruct (bump_heap_alloc size s Hb Hsize Hcap) as (s' & Ha & Hb' & Hsz).
  exists s'. split; [done|]. split; [done|]. split; [done|].
  destruct Hb as (_ & Hfreed & _ & Hh & Hm & _).
  destruct (alloc_fresh_chunk size s)
    as (p & s'' & Ha' & _ & _ & Hal & _ & _ & Hheap); [lia| |..].
  { unfold wrap. rewrite Z.mod_small; [done|].
    unfold HEAP_SIZE, WORD_BITS in *. lia. }
  { unfold no_fit. rewrite Hfreed. constructor. }
  rewrite Ha in Ha'. injection Ha' as <-. split; [done|].
  rewrite Hal, length_app. simpl. lia.
Qed.

(** X10: requests that find no freed chunk get blocks laid out one behind
    the other.  On a heap without freed chunks whose allocated chunks lie in
    the used part of the region, a sequence of requests of positive sizes
    that fit into the region together is served in order with the addresses
    [m_heap + m_size], [m_heap + m_size + size1], ...; the heap is such a
    heap again, so that the blocks handed out are separate, and the counter
    has grown by the sum of the sizes. *)
Theorem alloc_all_lays_out_blocks (sizes : list Z) (s : State) :
  bump_heap s → Forall (λ size, 0 < size) sizes →
  m_size s + total_size sizes ≤ HEAP_SIZE →
  ∃ s', alloc_all sizes s
        = Done (bump_addresses (m_heap s + m_size s) sizes, s')
    ∧ bump_heap s'
    ∧ m_size s' = m_size s + total_size sizes
    ∧ length (m_allocated_chunks s')
      = (length (m_allocated_chunks s) + length sizes)%nat.
Proof.
  revert s. induction sizes as [|size sizes IH]; intros s Hb Hpos Hcap.
  { exists s. simpl. unfold total_size. simpl.
    split; [done|]. split; [done|]. split; lia. }
  apply Forall_cons in Hpos as [Hsize Hpos].
  assert (0 ≤ total_size sizes) as Htot.
  { clear -Hpos. induction Hpos; unfold total_size in *; simpl; lia. }
  unfold total_size in Hcap. simpl in Hcap. fold (total_size sizes) in Hcap.
  destruct (bump_heap_alloc_more size s Hb Hsize)
    as (s1 & Ha & Hb1 & Hsz1 & Hh1 & Hl1); [lia|].
  destruct (IH s1 Hb1 Hpos) as (s' & Hall & Hb' & Hsz' & Hl'); [lia|].
  exists s'. simpl. rewrite Ha. simpl. rewrite Hall. simpl.
  rewrite Hh1, Hsz1 in *. rewrite Z.add_assoc. split; [done|].
  split; [done|]. unfold total_size. simpl. fold (total_size sizes).
  split; lia.
Qed.


(** ** The profiler *)

Lemma record_off e s : m_profiler_enable s = false → record e s = s.
Proof. intros H. unfold record. by rewrite H. Qed.

Lemma silent_refl s : m_profiler_enable s = false → silent s s.
Proof. by split. Qed.

Lemma silent_trans s1 s2 s3 : silent s1 s2 → silent s2 s3 → silent s1 s3.
Proof. intros [? ?] [? ?]. split; congruence. Qed.

Lemma mark_rec_silent depth start end_ wl s wl' s' :
  m_profiler_enable s = false →
  mark_rec depth start end_ wl s = Done (wl', s') → silent s s'.
Proof.
  intros Hoff. apply (mark_rec_invariant (λ _ s1, silent s s1)).
  - intros _ s1 e [Hoff1 He]. by rewrite record_off.
  - intros _ _ s1 p c _ H _ _ _ _. exact H.
  - by apply silent_refl.
Qed.

Lemma sweep_loop_silent todo :
  ∀ kept s s', m_profiler_enable s = false →
    sweep_loop kept todo s = Done s' → silent s s'.
Proof.
  induction todo as [|p todo IH]; intros kept s s' Hoff; simpl.
  - intros [= <-]. by apply silent_refl.
  - destruct (objects s !! p) as [c|]; [|done].
    destruct (Chunk.m_marked c).
    + intros H. apply IH in H; [exact H|done].
    + rewrite record_off by done. intros H. apply IH in H; [exact H|done].
Qed.

Lemma delete_chunk_silent p s s' :
  m_profiler_enable s = false → delete_chunk p s = Done s' → silent s s'.
Proof.
  intros Hoff. unfold delete_chunk. destruct (objects s !! p); [|done].
  by intros [= <-].
Qed.

Lemma free_all_silent fuel :
  ∀ s s', m_profiler_enable s = false → free_all fuel s = Done s' → silent s s'.
Proof.
  induction fuel as [|fuel IH]; intros s s' Hoff; simpl.
  - destruct (last (m_freed_chunks s)); [done|]. intros [= <-].
    by apply silent_refl.
  - destruct (last (m_freed_chunks s)) as [p|].
    2: { intros [= <-]. by apply silent_refl. }
    destruct (objects s !! p) as [c|]; [|done]. rewrite record_off by done.
    intros (s1 & Hd & H)%bind_Done. apply delete_chunk_silent in Hd; [|done].
    destruct Hd as [Hoff1 He1]. apply IH in H; [|done].
    destruct H as [? ?]. split; [done|]. simpl in *. congruence.
Qed.

Lemma overlap_filter_silent todo :
  ∀ filtered s r s', m_profiler_enable s = false →
    overlap_filter filtered todo s = Done (r, s') → silent s s'.
Proof.
  induction todo as [|q todo IH]; intros filtered s r s' Hoff; simpl.
  - intros [= _ <-]. by apply silent_refl.
  - destruct (last filtered) as [pr|]; [|done].
    destruct (objects s !! pr) as [prev|]; [|done].
    destruct (objects s !! q) as [next|]; [|done].
    destruct (_ <=? _); intros H; apply IH in H; done.
Qed.

Lemma overlap_delete_silent l :
  ∀ s s', m_profiler_enable s = false →
    overlap_delete l s = Done s' → silent s s'.
Proof.
  induction l as [|p l IH]; intros s s' Hoff; simpl.
  - intros [= <-]. by apply silent_refl.
  - destruct (objects s !! p) as [c|]; [|done].
    destruct (Chunk.m_marked c); simpl.
    + intros H. apply IH in H; done.
    + rewrite record_off by done. intros (s1 & Hd & H)%bind_Done.
      apply delete_chunk_silent in Hd; [|done]. destruct Hd as [Hoff1 He1].
      apply IH in H; [|done]. destruct H as [? ?]. split; [done|]. simpl in *. congruence.
Qed.

Lemma free_silent s s' :
  m_profiler_enable s = false → free s = Done s' → silent s s'.
Proof.
  intros Hoff. unfold free.
  destruct (decide _); [by apply free_all_silent|].
  destruct (decide _); [|intros [= <-]; by apply silent_refl].
  unfold free_overlap. destruct (get_at _ _) as [p|]; [|done].
  destruct (objects s !! p) as [prev|]; [|done].
  intros ([filtered s1] & Hf & Hd)%bind_Done.
  apply overlap_filter_silent in Hf; [|done]. destruct Hf as [Hoff1 He1].
  apply overlap_delete_silent in Hd; [|done]. destruct Hd as [? ?].
  split; [done|]. simpl in *. congruence.
Qed.

Lemma collect_silent s s' :
  m_profiler_enable s = false → collect s = Done s' → silent s s'.
Proof.
  intros Hoff. unfold collect. rewrite record_off by done.
  destruct (decide _); [done|].
  intros ([wl s1] & Hm & H)%bind_Done.
  apply bind_Done in H as (s2 & Hs & Hf).
  apply mark_rec_silent in Hm; [|done]. destruct Hm as [Hoff1 ?].
  apply sweep_loop_silent in Hs; [|done]. destruct Hs as [Hoff2 ?].
  apply free_silent in Hf; [|done]. destruct Hf as [? ?].
  split; [done|]. congruence.
Qed.

(** What [try_recycle_chunks] finds is a freed chunk that is large enough;
    the profiler is not involved. *)
Lemma recycle_from_found size i todo s p s' :
  recycle_from size i todo s = Done (Some p, s') →
  ∃ chunk, objects s' !! p = Some chunk ∧ size ≤ Chunk.m_size chunk
    ∧ p ∈ todo ∧ objects s !! p = Some chunk
    ∧ events s' = events s ∧ m_profiler_enable s' = m_profiler_enable s.
Proof.
  revert i. induction todo as [|q todo IH]; intros i; simpl; [done|].
  destruct (objects s !! q) as [chunk|] eqn:Hq; [|done].
  destruct (Z.ltb_spec size (Chunk.m_size chunk)) as [Hlt|Hge].
  - unfold new_chunk. intros [= <- <-]. exists chunk. simpl.
    split; [|split; [lia|split; [apply list_elem_of_here|done]]].
    rewrite lookup_insert_ne; [done|]. intros Heq.
    pose proof (is_fresh (dom (objects s))) as Hfresh.
    rewrite Heq in Hfresh. apply Hfresh, elem_of_dom. by eexists.
  - destruct (Z.eqb_spec (Chunk.m_size chunk) size) as [Heq|Hne].
    + intros [= <- <-]. exists chunk. simpl.
      split; [done|]. split; [lia|]. split; [apply list_elem_of_here|done].
    + intros H. destruct (IH _ H) as (c & ? & ? & ? & ?).
      exists c. split; [done|]. split; [done|].
      split; [by apply list_elem_of_further|done].
Qed.

(** X11: with the profiler switched off nothing is recorded.  Whenever
    [collect] or [alloc] returns on a heap whose profiler is off, the log of
    the profiler is as before, and the profiler is still off. *)
Theorem profiler_off_records_nothing (s : State) :
  m_profiler_enable s = false →
  (∀ s', collect s = Done s' →
         events s' = events s ∧ m_profiler_enable s' = false)
  ∧ (∀ size a s', alloc size s = Done (a, s') →
         events s' = events s ∧ m_profiler_enable s' = false).
Proof.
  intros Hoff. split.
  - intros s' [? ?]%collect_silent; done.
  - intros size a s'. unfold alloc. rewrite record_off by done.
    destruct (decide (size = 0)); [by intros [= _ <-]|].
    assert (∀ s0, silent s s0 → alloc_chunk size s0 = Done (a, s') →
                  events s' = events s ∧ m_profiler_enable s' = false) as Hchunk.
    { intros s0 [Hoff0 He0]. unfold alloc_chunk.
      intros ([[p|] s1] & Hr & H)%bind_Done.
      - apply recycle_from_found in Hr as (chunk & Hp & _ & _ & _ & He1 & Hoff1).
        rewrite Hp in H. rewrite record_off in H by congruence.
        injection H as _ <-. split; congruence.
      - apply try_recycle_none in Hr as [-> _]. simpl in H.
        rewrite record_off in H by done. injection H as _ <-.
        split; [by simpl_state|]. done. }
    destruct (decide _).
    + intros (s1 & Hc & H)%bind_Done. apply collect_silent in Hc; [|done].
      destruct (decide _); [|done]. by apply (Hchunk s1).
    + apply Hchunk. by apply silent_refl.
Qed.

(** X12: with the profiler switched on, a request served within the capacity
    leaves two events in the log: the start of the allocation with the size
    asked for, and then either the new chunk, of that size, at
    [m_heap + m_size], or the reused chunk, which is at least that large.
    The chunk recorded starts at the address returned. *)
Theorem alloc_records_start_and_chunk
    (size : Z) (s : State) (a : Z) (s' : State) :
  m_profiler_enable s = true → size ≠ 0 →
  wrap (m_size s + size) ≤ HEAP_SIZE →
  alloc size s = Done (a, s') →
  ∃ c, Chunk.m_start c = a
    ∧ ((events s' = events s ++ [AllocStart size; NewChunk c]
        ∧ c = Chunk.new size (m_heap s + m_size s) ∧ no_fit size s)
       ∨ (events s' = events s ++ [AllocStart size; ReusedChunk c]
          ∧ size ≤ Chunk.m_size c
          ∧ ∃ p, p ∈ m_freed_chunks s ∧ objects s !! p = Some c)).
Proof.
  intros Hon Hsize Hcap. rewrite alloc_within_capacity by done.
  set (s0 := record (AllocStart size) s).
  assert (events s0 = events s ++ [AllocStart size]) as He0.
  { unfold s0. by rewrite record_events, Hon. }
  assert (m_profiler_enable s0 = true) as Hon0.
  { unfold s0. destruct (record_setup (AllocStart size) s) as (_ & _ & ->).
    done. }
  unfold alloc_chunk. intros ([[p|] s1] & Hr & H)%bind_Done.
  - apply recycle_from_found in Hr as (chunk & Hp & Hfit & Hin & Hp0 & He1 & Hon1).
    rewrite Hp in H. injection H as <- <-. exists chunk. split; [done|].
    right. rewrite record_events, Hon1, Hon0, He1, He0, <- app_assoc.
    split; [done|]. split; [done|]. exists p. unfold s0 in *.
    by rewrite record_freed, record_objects in *.
  - apply try_recycle_none in Hr as [-> Hno]. simpl in H.
    injection H as <- <-.
    assert (m_heap s0 = m_heap s) as Hh0 by apply record_setup.
    assert (m_size s0 = m_size s) as Hsz0 by apply record_size.
    exists (Chunk.new size (m_heap s + m_size s)). rewrite Hh0, Hsz0.
    split; [done|]. left.
    rewrite record_events. simpl. rewrite Hon0, He0, <- app_assoc.
    split; [done|]. split; [done|].
    unfold no_fit, s0 in *. by rewrite record_freed, record_objects in Hno.
Qed.


(** ** free_overlap *)

Lemma kept_after_idem o prev l :
  kept_after o prev (kept_after o prev l) = kept_after o prev l.
Proof.
  revert prev. induction l as [|q l IH]; intros prev; simpl; [done|].
  destruct (o !! q) as [next|] eqn:Hq; [|done].
  destruct (c_end prev <=? Chunk.m_start next) eqn:Hle; [|apply IH].
  simpl. by rewrite Hq, Hle, IH.
Qed.

(** [kept_after] looks at the start and the size of the chunks only. *)
Lemma kept_after_unmarked o o' prev prev' l :
  Chunk.m_start prev' = Chunk.m_start prev →
  Chunk.m_size prev' = Chunk.m_size prev →
  (∀ q, q ∈ l → ∃ c, o !! q = Some c
                     ∧ o' !! q = Some (Chunk.set_marked false c)) →
  kept_after o' prev' l = kept_after o prev l.
Proof.
  revert prev prev'. induction l as [|q l IH]; intros prev prev' Hst Hsz Hl;
    simpl; [done|].
  destruct (Hl q) as (c & -> & ->); [apply list_elem_of_here|].
  assert (c_end prev' = c_end prev) as -> by (unfold c_end; congruence).
  simpl. destruct (c_end prev <=? Chunk.m_start c).
  - f_equal. apply IH; [done..|]. intros x Hx. apply Hl.
    by apply list_elem_of_further.
  - apply IH; [done..|]. intros x Hx. apply Hl. by apply list_elem_of_further.
Qed.

(** X13: [free_overlap] changes nothing when it runs a second time.  After
    [free_overlap] on a freed list without duplicates whose chunks are chunk
    objects, a second [free_overlap] returns with the same freed list and the
    same chunk objects; it writes the start of the first chunk to the output
    once more. *)
Theorem free_overlap_twice
    (s : State) (p0 : chunk_ptr) (rest : list chunk_ptr) (c0 : Chunk.t) :
  m_freed_chunks s = p0 :: rest → objects s !! p0 = Some c0 →
  NoDup (m_freed_chunks s) → all_live s (m_freed_chunks s) →
  ∃ s' s'', free_overlap s = Done s' ∧ free_overlap s' = Done s''
    ∧ m_freed_chunks s'' = m_freed_chunks s'
    ∧ objects s'' = objects s'
    ∧ m_allocated_chunks s'' = m_allocated_chunks s
    ∧ m_size s'' = m_size s
    ∧ cout s'' = cout s ++ [OutAddr (Chunk.m_start c0);
                            OutAddr (Chunk.m_start c0)].
Proof.
  intros Hfreed Hc0 Hnd Hlive.
  destruct (free_overlap_spec s p0 rest c0 Hfreed Hc0 Hnd Hlive)
    as (s' & He & Hf & Hkept & Hout & (_ & Hsz & Ha)).
  destruct (free_overlap_dropped s p0 rest c0 s' Hfreed Hc0 Hnd Hlive He)
    as [Hcout _].
  set (K := kept_after (objects s) c0 rest) in *.
  assert (objects s' !! p0 = Some (Chunk.set_marked false c0)) as Hc0'.
  { destruct (Hkept p0) as (c & Hc & ->); [rewrite Hf; apply list_elem_of_here|].
    congruence. }
  assert (NoDup (m_freed_chunks s')) as Hnd'.
  { rewrite Hf. rewrite Hfreed in Hnd. eapply sublist_NoDup; [exact Hnd|].
    apply sublist_skip, kept_after_sublist. }
  assert (all_live s' (m_freed_chunks s')) as Hlive'.
  { unfold all_live. rewrite Forall_forall. intros q Hq.
    destruct (Hkept q Hq) as (c & _ & ->). by eexists. }
  destruct (free_overlap_spec s' p0 K (Chunk.set_marked false c0)
              Hf Hc0' Hnd' Hlive')
    as (s'' & He' & Hf' & Hkept' & Hout' & (_ & Hsz' & Ha')).
  destruct (free_overlap_dropped s' p0 K _ s'' Hf Hc0' Hnd' Hlive' He')
    as [Hcout' _].
  assert (m_freed_chunks s'' = m_freed_chunks s') as Hsame.
  { rewrite Hf', Hf. f_equal.
    rewrite (kept_after_unmarked (objects s) (objects s') c0 _ K); [|done..|].
    - apply kept_after_idem.
    - intros q Hq. apply Hkept. rewrite Hf. by apply list_elem_of_further. }
  exists s', s''. split; [done|]. split; [done|]. split; [done|].
  split; [|split; [congruence|split; [congruence|]]].
  - apply map_eq. intros q.
    destruct (decide (q ∈ m_freed_chunks s')) as [Hq|Hq].
    + rewrite <- Hsame in Hq. destruct (Hkept' q Hq) as (c' & Hc' & ->).
      rewrite Hsame in Hq. destruct (Hkept q Hq) as (c & _ & Hc).
      rewrite Hc in Hc'. injection Hc' as <-. by rewrite Hc.
    + by apply Hout'.
  - rewrite Hcout', Hcout, <- app_assoc. done.
Qed.

(** X14: what [free_overlap] drops from the freed list it deletes, unless the
    chunk was marked.  On a freed list without duplicates whose chunks are
    chunk objects, [free_overlap] returns; a chunk that it dropped from the
    list is deleted when it was not marked, and is left on the free store,
    in no list of the heap, when it was; a chunk that it kept is unmarked,
    and every other chunk object, the allocated list and the counter are as
    before.  The start of the first freed chunk is written to the output. *)
Theorem free_overlap_deletes_dropped
    (s : State) (p0 : chunk_ptr) (rest : list chunk_ptr) (c0 : Chunk.t) :
  m_freed_chunks s = p0 :: rest → objects s !! p0 = Some c0 →
  NoDup (m_freed_chunks s) → all_live s (m_freed_chunks s) →
  ∃ s', free_overlap s = Done s'
    ∧ sublist (m_freed_chunks s') (m_freed_chunks s)
    ∧ (∀ q, q ∈ m_freed_chunks s → q ∉ m_freed_chunks s' →
         objects s' !! q
         = if is_marked s q then Chunk.set_marked false <$> objects s !! q
           else None)
    ∧ (∀ q, q ∈ m_freed_chunks s' →
         ∃ c, objects s !! q = Some c
              ∧ objects s' !! q = Some (Chunk.set_marked false c))
    ∧ (∀ q, q ∉ m_freed_chunks s → objects s' !! q = objects s !! q)
    ∧ m_allocated_chunks s' = m_allocated_chunks s
    ∧ m_size s' = m_size s
    ∧ cout s' = cout s ++ [OutAddr (Chunk.m_start c0)].
Proof.
  intros Hfreed Hc0 Hnd Hlive.
  destruct (free_overlap_spec s p0 rest c0 Hfreed Hc0 Hnd Hlive)
    as (s' & He & Hf & Hkept & Hout & (_ & Hsz & Ha)).
  destruct (free_overlap_dropped s p0 rest c0 s' Hfreed Hc0 Hnd Hlive He)
    as [Hcout Hdrop].
  exists s'. split; [done|]. split.
  { rewrite Hf, Hfreed. apply sublist_skip, kept_after_sublist. }
  done.
Qed.


(** ** mark_test and mark_from_roots *)

Lemma mark_test_loop_nil fuel s : mark_test_loop fuel [] s = Done ([], s).
Proof. by destruct fuel. Qed.

Lemma mark_test_loop_snoc fuel wl x s :
  mark_test_loop (S fuel) (wl ++ [x]) s =
    match x with
    | None => mark_test_loop fuel wl s
    | Some child =>
      match objects s !! child with
      | None => Undefined
      | Some chunk =>
        if negb (Chunk.m_marked chunk) then
          '(wl', s') ← mark_test_loop fuel (wl ++ [Some child])
                         (set_marked child chunk true s);
          mark_test_loop fuel wl' s'
        else mark_test_loop fuel wl s
      end
    end.
Proof. simpl. by rewrite last_snoc, removelast_last. Qed.

Lemma mark_test_work_snoc s wl x :
  mark_test_work s (wl ++ [x]) = (mark_test_work s wl + mark_test_turns s x)%nat.
Proof. unfold mark_test_work. rewrite sum_list_with_app. simpl. lia. Qed.

Lemma mark_test_work_marked s p c wl :
  (mark_test_work (set_marked p c true s) wl ≤ mark_test_work s wl)%nat.
Proof.
  unfold mark_test_work. induction wl as [|x wl IH]; simpl; [done|].
  enough (mark_test_turns (set_marked p c true s) x ≤ mark_test_turns s x)%nat
    by lia.
  destruct x as [q|]; simpl; [|done]. unfold is_marked. simpl.
  destruct (decide (q = p)) as [->|Hne].
  - rewrite lookup_insert_eq. simpl.
    destruct (objects s !! p) as [[[] ? ?]|]; simpl; lia.
  - by rewrite lookup_insert_ne.
Qed.

Lemma mark_test_work_bound s wl : (mark_test_work s wl ≤ 2 * length wl)%nat.
Proof.
  unfold mark_test_work. induction wl as [|x wl IH]; simpl; [done|].
  enough (mark_test_turns s x ≤ 2)%nat by lia.
  destruct x as [q|]; simpl; [|lia]. destruct (is_marked s q); lia.
Qed.

Lemma with_objects_same s : with_objects (objects s) s = s.
Proof. by destruct s. Qed.

Lemma mark_test_loop_spec fuel :
  ∀ wl s,
    (∀ p, Some p ∈ wl → is_Some (objects s !! p)) →
    (mark_test_work s wl ≤ fuel)%nat →
    ∃ o', mark_test_loop fuel wl s = Done ([], with_objects o' s)
      ∧ ∀ p, o' !! p = if decide (Some p ∈ wl)
                       then Chunk.set_marked true <$> objects s !! p
                       else objects s !! p.
Proof.
  induction fuel as [|fuel IH]; intros wl s Hlive Hfuel.
  { destruct wl as [|x wl _] using rev_ind.
    - exists (objects s). rewrite with_objects_same. split; [done|].
      intros p. by rewrite decide_False by apply not_elem_of_nil.
    - rewrite mark_test_work_snoc in Hfuel.
      assert (1 ≤ mark_test_turns s x)%nat; [|lia].
      destruct x as [q|]; simpl; [|done]. destruct (is_marked s q); lia. }
  destruct wl as [|x wl _] using rev_ind.
  { exists (objects s). rewrite with_objects_same. split; [done|].
    intros p. by rewrite decide_False by apply not_elem_of_nil. }
  rewrite mark_test_loop_snoc. rewrite mark_test_work_snoc in Hfuel.
  assert (∀ p, Some p ∈ wl → is_Some (objects s !! p)) as Hlive'.
  { intros p Hp. apply Hlive, elem_of_app. by left. }
  destruct x as [child|].
  2: { simpl in Hfuel. destruct (IH wl s Hlive') as (o' & He & Ho); [lia|].
       exists o'. split; [done|]. intros p. rewrite (Ho p).
       destruct (decide (Some p ∈ wl)) as [Hp|Hp].
       - rewrite decide_True; [done|]. apply elem_of_app. by left.
       - rewrite decide_False; [done|].
         intros [?|[=]%list_elem_of_singleton]%elem_of_app. done. }
  destruct (Hlive child) as [c Hc].
  { apply elem_of_app. right. by apply list_elem_of_singleton. }
  rewrite Hc. simpl in Hfuel. unfold is_marked in Hfuel. rewrite Hc in Hfuel.
  destruct (Chunk.m_marked c) eqn:Hm; simpl.
  - destruct (IH wl s Hlive') as (o' & He & Ho); [lia|].
    exists o'. split; [done|]. intros p. rewrite (Ho p).
    destruct (decide (Some p ∈ wl)) as [Hp|Hp].
    + rewrite decide_True; [done|]. apply elem_of_app. by left.
    + destruct (decide (p = child)) as [->|Hne].
      * rewrite decide_True.
        2: { apply elem_of_app. right. by apply list_elem_of_singleton. }
        rewrite Hc. simpl. by rewrite set_marked_same.
      * rewrite decide_False; [done|].
        intros [?|[=]%list_elem_of_singleton]%elem_of_app; done.
  - set (s1 := set_marked child c true s).
    destruct (IH (wl ++ [Some child]) s1) as (o' & He & Ho).
    + intros p Hp. unfold s1. simpl. destruct (decide (p = child)) as [->|Hne].
      * rewrite lookup_insert_eq. by eexists.
      * rewrite lookup_insert_ne by done. apply Hlive'.
        apply elem_of_app in Hp as [Hp|[=]%list_elem_of_singleton]; done.
    + rewrite mark_test_work_snoc. simpl. unfold is_marked, s1. simpl.
      rewrite lookup_insert_eq. simpl.
      pose proof (mark_test_work_marked s child c wl). lia.
    + rewrite He. simpl. rewrite mark_test_loop_nil.
      exists o'. split; [done|]. intros p. rewrite (Ho p).
      destruct (decide _) as [Hp|Hp]; unfold s1; simpl.
      * destruct (decide (p = child)) as [->|Hne].
        -- by rewrite lookup_insert_eq, Hc.
        -- by rewrite lookup_insert_ne.
      * rewrite lookup_insert_ne; [done|]. intros ->. apply Hp.
        apply elem_of_app. right. by apply list_elem_of_singleton.
Qed.

(** X15: [mark_test] marks the chunks of its worklist and leaves the worklist
    empty.  When the pointers of the worklist that are not null lead to chunk
    objects, [mark_test] returns; the chunks of the worklist are marked, every
    other chunk object and every member of the heap is as before.  No word of
    a chunk is read: the child of a chunk is taken to be the chunk itself. *)
Theorem mark_test_marks_worklist
    (worklist : list (option chunk_ptr)) (s : State) :
  (∀ p, Some p ∈ worklist → is_Some (objects s !! p)) →
  ∃ s', mark_test worklist s = Done ([], s')
    ∧ marked_in (chunks_of worklist) s s'
    ∧ s' = with_objects (objects s') s.
Proof.
  intros Hlive.
  destruct (mark_test_loop_spec (2 * length worklist) worklist s Hlive)
    as (o' & He & Ho); [apply mark_test_work_bound|].
  exists (with_objects o' s). split; [done|]. split; [|done].
  intros p. simpl. rewrite (Ho p).
  destruct (decide (Some p ∈ worklist)) as [Hp|Hp].
  - rewrite decide_True; [done|]. apply list_elem_of_omap. by exists (Some p).
  - rewrite decide_False; [done|].
    intros (x & Hx & Hid)%list_elem_of_omap. simpl in Hid. by subst.
Qed.

Lemma scanned_down_start start end_ : end_ < start → scanned_down start end_ start.
Proof. intros H. exists 0. unfold WORD_BYTES. split; [done|]. split; lia. Qed.

Lemma scanned_down_next start end_ a :
  scanned_down (start - WORD_BYTES) end_ a → scanned_down start end_ a.
Proof.
  intros (k & Hk & -> & Hend). exists (k + 1). unfold WORD_BYTES in *.
  split; [lia|]. split; lia.
Qed.

Lemma scanned_down_inv start end_ a :
  scanned_down start end_ a →
  a = start ∨ scanned_down (start - WORD_BYTES) end_ a.
Proof.
  intros (k & Hk & -> & Hend). destruct (decide (k = 0)) as [->|Hne].
  - left. unfold WORD_BYTES. lia.
  - right. exists (k - 1). unfold WORD_BYTES in *. split; [lia|]. split; lia.
Qed.

Lemma mark_from_roots_loop_spec fuel end_ :
  ∀ start s,
    (Z.to_nat (start - end_) ≤ fuel)%nat →
    (∀ a p, scanned_down start end_ a → root_word a p →
            is_Some (objects s !! p)) →
    (∀ a, scanned_down start end_ a → mem a `mod` 8 = 0 → mem a ≠ 0 →
          is_Some (chunk_at (mem a))) →
    ∃ o', mark_from_roots_loop fuel start end_ [] s = Done (with_objects o' s)
      ∧ (∀ p, o' !! p = objects s !! p
              ∨ o' !! p = Chunk.set_marked true <$> objects s !! p)
      ∧ (∀ a p, scanned_down start end_ a → root_word a p →
                o' !! p = Chunk.set_marked true <$> objects s !! p)
      ∧ (∀ p, o' !! p ≠ objects s !! p →
              ∃ a, scanned_down start end_ a ∧ root_word a p).
Proof.
  induction fuel as [|fuel IH]; intros start s Hfuel Hlive Hchunk.
  { simpl. destruct (decide (end_ < start)); [lia|].
    exists (objects s). rewrite with_objects_same. split; [done|].
    split; [by left|]. split; [|done].
    intros a p (k & Hk & -> & Hend). unfold WORD_BYTES in *. lia. }
  simpl. destruct (decide (end_ < start)) as [Hlt|Hge].
  2: { exists (objects s). rewrite with_objects_same. split; [done|].
       split; [by left|]. split; [|done].
       intros a p (k & Hk & -> & Hend). unfold WORD_BYTES in *. lia. }
  assert (∀ s1, (∀ p, is_Some (objects s !! p) → is_Some (objects s1 !! p)) →
            ∃ o', mark_from_roots_loop fuel (start - WORD_BYTES) end_ [] s1
                  = Done (with_objects o' s1)
              ∧ (∀ p, o' !! p = objects s1 !! p
                      ∨ o' !! p = Chunk.set_marked true <$> objects s1 !! p)
              ∧ (∀ a p, scanned_down (start - WORD_BYTES) end_ a →
                        root_word a p →
                        o' !! p = Chunk.set_marked true <$> objects s1 !! p)
              ∧ (∀ p, o' !! p ≠ objects s1 !! p →
                      ∃ a, scanned_down start end_ a ∧ root_word a p)) as Hnext.
  { intros s1 Hs1. destruct (IH (start - WORD_BYTES) s1)
      as (o' & He & Hgrow & Hroot & Honly).
    - unfold WORD_BYTES. lia.
    - intros a p Ha Hr. apply Hs1. eapply Hlive; [|done].
      by apply scanned_down_next.
    - intros a Ha. apply Hchunk. by apply scanned_down_next.
    - exists o'. split; [done|]. split; [done|]. split; [done|].
      intros p Hp. destruct (Honly p Hp) as (a & Ha & Hr).
      exists a. split; [by apply scanned_down_next|done]. }
  assert ((∀ q, ¬ root_word start q) →
            ∃ o', mark_from_roots_loop fuel (start - WORD_BYTES) end_ [] s
                  = Done (with_objects o' s)
              ∧ (∀ p, o' !! p = objects s !! p
                      ∨ o' !! p = Chunk.set_marked true <$> objects s !! p)
              ∧ (∀ a q, scanned_down start end_ a → root_word a q →
                        o' !! q = Chunk.set_marked true <$> objects s !! q)
              ∧ (∀ p, o' !! p ≠ objects s !! p →
                      ∃ a, scanned_down start end_ a ∧ root_word a p)) as Hskip.
  { intros Hno. destruct (Hnext s) as (o' & He & Hgrow & Hroot & Honly); [done|].
    exists o'. split; [done|]. split; [done|]. split; [|done].
    intros a q Ha Hr. destruct (scanned_down_inv _ _ _ Ha) as [->|Ha'].
    - by destruct (Hno q).
    - by apply (Hroot a). }
  destruct (decide (mem start `mod` 8 = 0)) as [Hal|Hal].
  2: { apply Hskip. intros q (? & _). done. }
  destruct (decide (mem start = 0)) as [Hnull|Hnull].
  { apply Hskip. intros q (_ & ? & _). done. }
  destruct (Hchunk start) as [ref Href]; [by apply scanned_down_start|done..|].
  rewrite Href.
  assert (root_word start ref) as Hrw by done.
  destruct (Hlive start ref) as [c Hc]; [by apply scanned_down_start|done|].
  rewrite Hc.
  destruct (Chunk.m_marked c) eqn:Hm; simpl.
  - destruct (Hnext s) as (o' & He & Hgrow & Hroot & Honly); [done|].
    exists o'. split; [done|]. split; [done|]. split; [|done].
    intros a q Ha Hr. destruct (scanned_down_inv _ _ _ Ha) as [->|Ha'].
    + assert (q = ref) as ->.
      { destruct Hr as (_ & _ & Hr). congruence. }
      destruct (Hgrow ref) as [->| ->]; [|done].
      rewrite Hc. simpl. by rewrite set_marked_same.
    + by apply (Hroot a).
  - set (s1 := set_marked ref c true s).
    destruct (mark_test_loop_spec (2 * 1) [Some ref] s1) as (o1 & He1 & Ho1).
    { intros p ->%list_elem_of_singleton%(inj Some). unfold s1. simpl.
      rewrite lookup_insert_eq. by eexists. }
    { apply (mark_test_work_bound s1 [Some ref]). }
    assert (o1 = objects s1) as ->.
    { apply map_eq. intros p. rewrite (Ho1 p).
      destruct (decide _) as [Hp|]; [|done].
      apply list_elem_of_singleton in Hp. injection Hp as ->.
      unfold s1. simpl. by rewrite lookup_insert_eq. }
    rewrite with_objects_same in He1.
    unfold mark_test. simpl length. rewrite He1. simpl.
    destruct (Hnext s1) as (o' & He & Hgrow & Hroot & Honly).
    { intros p Hp. unfold s1. simpl. destruct (decide (p = ref)) as [->|Hne].
      - rewrite lookup_insert_eq. by eexists.
      - by rewrite lookup_insert_ne. }
    assert (∀ p, p ≠ ref → objects s1 !! p = objects s !! p) as Hother.
    { intros p Hp. unfold s1. simpl. by rewrite lookup_insert_ne. }
    assert (objects s1 !! ref = Chunk.set_marked true <$> objects s !! ref)
      as Href1.
    { unfold s1. simpl. by rewrite lookup_insert_eq, Hc. }
    assert (Chunk.set_marked true <$> objects s1 !! ref = objects s1 !! ref)
      as Hidem.
    { unfold s1. simpl. by rewrite lookup_insert_eq. }
    exists o'. split; [done|]. split; [|split].
    + intros p. destruct (decide (p = ref)) as [->|Hne].
      * right. destruct (Hgrow ref) as [->| ->]; by rewrite ?Hidem.
      * rewrite <- (Hother p Hne). apply Hgrow.
    + intros a q Ha Hr. destruct (decide (q = ref)) as [->|Hne].
      * destruct (Hgrow ref) as [->| ->]; by rewrite ?Hidem.
      * rewrite <- (Hother q Hne).
        destruct (scanned_down_inv _ _ _ Ha) as [->|Ha']; [|by apply (Hroot a)].
        destruct Hr as (_ & _ & Hr). congruence.
    + intros p Hp. destruct (decide (p = ref)) as [->|Hne].
      * exists start. split; [by apply scanned_down_start|done].
      * apply Honly. by rewrite (Hother p Hne).
Qed.

(** X16: [mark_from_roots] marks the chunk objects whose own addresses are on
    the stack.  It reads the words at [start], [start - 8], ... above [end_],
    the word at [end_] not included; when each of these words that is a
    multiple of 8 and not null is the address of a chunk object, it returns,
    the chunk objects at these addresses are marked, and nothing else has
    changed.  With [start] at or below [end_] nothing changes at all. *)
Theorem mark_from_roots_marks_chunk_objects (start end_ : Z) (s : State) :
  (∀ a, scanned_down start end_ a → mem a `mod` 8 = 0 → mem a ≠ 0 →
        ∃ p, chunk_at (mem a) = Some p ∧ is_Some (objects s !! p)) →
  ∃ s', mark_from_roots start end_ s = Done s'
    ∧ marks_grow s s'
    ∧ (∀ a p, scanned_down start end_ a → root_word a p →
              objects s' !! p = Chunk.set_marked true <$> objects s !! p)
    ∧ (∀ p, objects s' !! p ≠ objects s !! p →
            ∃ a, scanned_down start end_ a ∧ root_word a p)
    ∧ s' = with_objects (objects s') s
    ∧ (start ≤ end_ → s' = s).
Proof.
  intros Hwords.
  destruct (mark_from_roots_loop_spec (Z.to_nat (start - end_)) end_ start s)
    as (o' & He & Hgrow & Hroot & Honly); [done| | |].
  { intros a p Ha (Hal & Hnull & Hp).
    destruct (Hwords a Ha Hal Hnull) as (q & Hq & Hlive). congruence. }
  { intros a Ha Hal Hnull. destruct (Hwords a Ha Hal Hnull) as (q & -> & _).
    by eexists. }
  exists (with_objects o' s). split; [done|]. split; [|split; [done|]].
  - intros p. simpl. destruct (Hgrow p) as [->| ->]; [by left|].
    destruct (objects s !! p) as [c|] eqn:Hc; [right; by exists c|by left].
  - split; [done|]. split; [done|]. intros Hle.
    destruct (Z.to_nat (start - end_)); simpl in He;
      rewrite decide_False in He by lia; by injection He as <-.
Qed.



(** ** collect(CollectOption flags) *)

(** Before its phases, [collect_flags] switches the profiler on, records the
    start of a collection and writes to the output; the phases that the
    flags name then run on the state [s0] that this leaves. *)
Lemma collect_flags_phases frame flags s :
  ∃ s0,
    objects s0 = objects s
    ∧ m_allocated_chunks s0 = m_allocated_chunks s
    ∧ m_freed_chunks s0 = m_freed_chunks s
    ∧ m_size s0 = m_size s ∧ m_heap s0 = m_heap s
    ∧ m_stack_top s0 = m_stack_top s
    ∧ m_profiler_enable s0 = true
    ∧ events s0 = events s ++ [CollectStart]
    ∧ collect_flags frame flags s
      = (s1 ← (if has_flag flags MARK then
                 '(_, s1) ← mark frame (m_stack_top s)
                              (vector_of (m_allocated_chunks s)) s0;
                 Done s1
               else Done s0);
         s2 ← (if has_flag flags SWEEP then sweep s1 else Done s1);
         if has_flag flags FREE then free s2 else Done s2).
Proof.
  unfold collect_flags. cbv zeta.
  match goal with
  | |- context [if has_flag flags MARK then _ else Done ?x] => exists x
  end.
  destruct (has_flag flags MARK), (has_flag flags SWEEP),
    (has_flag flags FREE); repeat (split; [reflexivity|]); reflexivity.
Qed.

Lemma filter_none {A} (P : A → Prop) `{∀ x, Decision (P x)} (l : list A) :
  (∀ x, x ∈ l → ¬ P x) → filter P l = [].
Proof.
  induction l as [|x l IH]; intros Hl; [done|].
  rewrite filter_cons, decide_False by (apply Hl, list_elem_of_here).
  apply IH. intros y Hy. by apply Hl, list_elem_of_further.
Qed.

Lemma filter_all {A} (P : A → Prop) `{∀ x, Decision (P x)} (l : list A) :
  (∀ x, x ∈ l → P x) → filter P l = l.
Proof.
  induction l as [|x l IH]; intros Hl; [done|].
  rewrite filter_cons, decide_True by (apply Hl, list_elem_of_here).
  f_equal. apply IH. intros y Hy. by apply Hl, list_elem_of_further.
Qed.

Lemma separate_chunks_objects s s' l :
  objects s' = objects s → separate_chunks s l → separate_chunks s' l.
Proof. unfold separate_chunks, all_live. by intros ->. Qed.

Lemma none_marked_objects s s' l :
  objects s' = objects s → none_marked s l → none_marked s' l.
Proof. unfold none_marked, is_marked. by intros ->. Qed.

(** X17: a debug collection with the flag [MARK] alone leaves the marks set.
    Over separate allocated chunks, none of them marked, it returns with the
    chunks marked that are reached from the words between its frame and the
    stack top, and no other; the two lists and the counter are as before,
    and the profiler is switched on.  The stack top is not checked: a null
    stack top, which is below the frame, makes the range empty. *)
Theorem collect_flags_mark_leaves_marks (frame flags : Z) (s : State) :
  has_flag flags MARK = true → has_flag flags SWEEP = false →
  has_flag flags FREE = false →
  separate_chunks s (m_allocated_chunks s) →
  none_marked s (m_allocated_chunks s) →
  ∃ s', collect_flags frame flags s = Done s'
    ∧ (∀ p, p ∈ m_allocated_chunks s →
         is_marked s' p = true
         ↔ reachable (objects s) (m_allocated_chunks s)
             frame (m_stack_top s) p)
    ∧ m_allocated_chunks s' = m_allocated_chunks s
    ∧ m_freed_chunks s' = m_freed_chunks s
    ∧ m_size s' = m_size s
    ∧ m_profiler_enable s' = true
    ∧ (m_stack_top s < frame → objects s' = objects s).
Proof.
  intros HM HS HF Hsep Hnone.
  destruct (collect_flags_phases frame flags s)
    as (s0 & Ho & Ha & Hf & Hsz & _ & _ & Hon & _ & ->).
  rewrite HM, HS, HF.
  destruct (mark_exact (m_allocated_chunks s) frame (m_stack_top s) s0)
    as (wl & s' & Hm & _ & Hexact).
  { by apply (separate_chunks_objects s). }
  { by apply (none_marked_objects s). }
  rewrite Hm. simpl. exists s'. split; [done|].
  pose proof (mark_rec_frame _ _ _ _ _ _ _ Hm)
    as ((_ & _ & Hon') & Hsz' & Ha' & Hf' & _).
  rewrite Ho in Hexact.
  split; [done|]. split; [congruence|]. split; [congruence|].
  split; [congruence|]. split; [congruence|].
  intros Hlt. rewrite mark_empty_range in Hm by done.
  injection Hm as _ <-. by rewrite record_objects.
Qed.

(** X18: a debug collection that sweeps without marking retires every
    allocated chunk.  With the flag [SWEEP], and either without the flag
    [MARK] or with a stack top below the frame (a null stack top is), on a
    heap that satisfies its invariant and has no marked chunk, it returns
    with an empty allocated list; without the flag [FREE] the allocated
    chunks are appended to the freed list as they are, with it each of them
    is in the freed list or deleted.  No assertion fails when the stack top
    is null. *)
Theorem collect_flags_sweeps_all (frame flags : Z) (s : State) :
  has_flag flags SWEEP = true →
  has_flag flags MARK = false ∨ m_stack_top s < frame →
  heap_wf s → none_marked s (m_allocated_chunks s) →
  ∃ s', collect_flags frame flags s = Done s'
    ∧ m_allocated_chunks s' = []
    ∧ (has_flag flags FREE = false →
       m_freed_chunks s' = m_freed_chunks s ++ m_allocated_chunks s
       ∧ objects s' = objects s)
    ∧ (∀ p, p ∈ m_allocated_chunks s →
            p ∈ m_freed_chunks s' ∨ objects s' !! p = None)
    ∧ m_size s' = m_size s.
Proof.
  intros HS Hnomark (Hnd & Hlivef & Hsep) Hnone.
  destruct (collect_flags_phases frame flags s)
    as (s0 & Ho & Ha & Hf & Hsz & _ & _ & _ & _ & ->).
  rewrite HS.
  assert (∃ s1, (if has_flag flags MARK then
                   '(_, s1) ← mark frame (m_stack_top s)
                                (vector_of (m_allocated_chunks s)) s0;
                   Done s1
                 else Done s0) = Done s1
                ∧ objects s1 = objects s
                ∧ m_allocated_chunks s1 = m_allocated_chunks s
                ∧ m_freed_chunks s1 = m_freed_chunks s
                ∧ m_size s1 = m_size s) as (s1 & -> & Ho1 & Ha1 & Hf1 & Hsz1).
  { destruct (has_flag flags MARK); [|by exists s0].
    destruct Hnomark as [|Hlt]; [done|].
    rewrite mark_empty_range by done. simpl. eexists. split; [done|].
    by simpl_state. }
  simpl. apply NoDup_app in Hnd as (Hnda & Hdisj & Hndf).
  destruct (sweep_spec s1) as (s2 & -> & Ha2 & Hf2 & Hu & _ & Hsz2 & _).
  { by rewrite Ha1. }
  { rewrite Ha1. eapply all_live_objects; [|apply Hsep]. intros q _.
    by rewrite Ho1. }
  simpl.
  assert (∀ q, is_marked s1 q = is_marked s q) as Hmk.
  { intros q. unfold is_marked. by rewrite Ho1. }
  rewrite Ha1 in Ha2, Hf2, Hu. rewrite Hf1 in Hf2.
  rewrite filter_none in Ha2.
  2: { intros q Hq. rewrite Hmk, (Hnone q Hq). done. }
  rewrite filter_all in Hf2.
  2: { intros q Hq. by rewrite Hmk, (Hnone q Hq). }
  assert (objects s2 = objects s) as Ho2.
  { apply map_eq. intros q. rewrite (Hu q), Ho1.
    destruct (decide _) as [Hq|]; [|done].
    specialize (Hnone q Hq). unfold is_marked in Hnone.
    destruct (objects s !! q) as [c|]; [|done]. simpl.
    by rewrite set_marked_same. }
  destruct (has_flag flags FREE).
  - destruct (free_lists s2)
      as (s3 & -> & (_ & Hsz3 & Ha3) & _ & _ & _ & Hdrop).
    { rewrite Hf2. apply NoDup_app. split; [done|]. split; [|done].
      intros q Hq Hq'. by apply (Hdisj q). }
    { rewrite Hf2. apply all_live_app. split.
      - eapply all_live_objects; [|exact Hlivef]. intros q _. by rewrite Ho2.
      - eapply all_live_objects; [|apply Hsep]. intros q _. by rewrite Ho2. }
    exists s3. split; [done|]. split; [congruence|]. split; [done|].
    split; [|congruence].
    intros p Hp. destruct (decide (p ∈ m_freed_chunks s3)); [by left|].
    right. apply Hdrop; [|done|].
    + rewrite Hf2. apply elem_of_app. by right.
    + unfold is_marked. rewrite Ho2. by apply Hnone.
  - exists s2. split; [done|]. split; [done|]. split; [done|].
    split; [|congruence]. intros p Hp. left. rewrite Hf2.
    apply elem_of_app. by right.
Qed.


(** ** The output does not steer the collection *)

Lemma modulo_bind {A B} (f : A → A) (g : B → B) (m1 m2 : outcome A)
    (k : A → outcome B) :
  modulo f m1 = modulo f m2 →
  (∀ a1 a2, f a1 = f a2 → modulo g (k a1) = modulo g (k a2)) →
  modulo g (m1 ≫= k) = modulo g (m2 ≫= k).
Proof.
  intros Hm Hk. destruct m1 as [a1| | |], m2 as [a2| | |]; simpl in *;
    try done; [|by injection Hm as ->].
  apply Hk. by injection Hm.
Qed.

Lemma modulo_Done {A} (f : A → A) (a1 a2 : A) :
  f a1 = f a2 → modulo f (Done a1) = modulo f (Done a2).
Proof. simpl. by intros ->. Qed.

Lemma pair_without_cout {A} (a1 a2 : A) (t1 t2 : State) :
  ((a1, t1).1, without_cout (a1, t1).2) = ((a2, t2).1, without_cout (a2, t2).2) →
  a1 = a2 ∧ without_cout t1 = without_cout t2.
Proof. simpl. intros H. split; congruence. Qed.

Ltac same_heap H :=
  match type of H with
  | without_cout ?a = without_cout ?b => destruct a, b
  end;
  unfold without_cout, with_cout in *; simpl in *;
  injection H as -> -> -> -> -> -> -> ->; repeat split; try reflexivity.

Lemma without_cout_fields s1 s2 :
  without_cout s1 = without_cout s2 →
  objects s1 = objects s2 ∧ m_allocated_chunks s1 = m_allocated_chunks s2
  ∧ m_freed_chunks s1 = m_freed_chunks s2
  ∧ m_profiler_enable s1 = m_profiler_enable s2.
Proof. intros H. by same_heap H. Qed.

Lemma without_cout_record e s1 s2 :
  without_cout s1 = without_cout s2 →
  without_cout (record e s1) = without_cout (record e s2).
Proof. intros H. unfold record. same_heap H. by destruct (_ : bool). Qed.

Lemma without_cout_set_marked p c b s1 s2 :
  without_cout s1 = without_cout s2 →
  without_cout (set_marked p c b s1) = without_cout (set_marked p c b s2).
Proof. intros H. unfold set_marked, with_objects. by same_heap H. Qed.

Lemma without_cout_with_freed l s1 s2 :
  without_cout s1 = without_cout s2 →
  without_cout (with_freed l s1) = without_cout (with_freed l s2).
Proof. intros H. unfold with_freed. by same_heap H. Qed.

Lemma without_cout_with_allocated l s1 s2 :
  without_cout s1 = without_cout s2 →
  without_cout (with_allocated l s1) = without_cout (with_allocated l s2).
Proof. intros H. unfold with_allocated. by same_heap H. Qed.

Lemma without_cout_print o1 o2 s1 s2 :
  without_cout s1 = without_cout s2 →
  without_cout (print o1 s1) = without_cout (print o2 s2).
Proof. intros H. unfold print. by same_heap H. Qed.

Lemma delete_chunk_cout p s1 s2 :
  without_cout s1 = without_cout s2 →
  heap_of (delete_chunk p s1) = heap_of (delete_chunk p s2).
Proof.
  intros H. unfold delete_chunk.
  destruct (without_cout_fields _ _ H) as (-> & _).
  destruct (objects s2 !! p); [|done]. apply modulo_Done.
  unfold with_objects. by same_heap H.
Qed.

Lemma mark_worklist_cout rec w fuel :
  (∀ a b wl s1 s2, without_cout s1 = without_cout s2 →
     worklist_and_heap_of (rec a b wl s1)
     = worklist_and_heap_of (rec a b wl s2)) →
  ∀ it stop wl s1 s2, without_cout s1 = without_cout s2 →
    worklist_and_heap_of (mark_worklist rec w fuel it stop wl s1)
    = worklist_and_heap_of (mark_worklist rec w fuel it stop wl s2).
Proof.
  intros Hrec. induction fuel as [|fuel IH]; intros it stop wl s1 s2 H; simpl.
  - destruct (decide (it = stop)); [|done]. apply modulo_Done. simpl.
    by rewrite H.
  - destruct (decide (it = stop)); [apply modulo_Done; simpl; by rewrite H|].
    destruct (slots wl !! it) as [p|]; [|done].
    destruct (without_cout_fields _ _ H) as (-> & _).
    destruct (objects s2 !! p) as [chunk|]; [|done].
    destruct (points_into w chunk); [|by apply IH].
    destruct (negb (Chunk.m_marked chunk)); [|by apply IH].
    destruct (erase it wl) as [wl1| | |]; simpl; try done.
    apply (modulo_bind (λ r, (r.1, without_cout r.2))).
    + apply Hrec. by apply without_cout_set_marked, without_cout_record.
    + intros [wl2 t1] [wl3 t2] [-> Ht]%pair_without_cout. by apply IH.
Qed.

Lemma mark_words_cout body fuel :
  (∀ a wl s1 s2, without_cout s1 = without_cout s2 →
     worklist_and_heap_of (body a wl s1) = worklist_and_heap_of (body a wl s2)) →
  ∀ start end_ wl s1 s2, without_cout s1 = without_cout s2 →
    worklist_and_heap_of (mark_words body fuel start end_ wl s1)
    = worklist_and_heap_of (mark_words body fuel start end_ wl s2).
Proof.
  intros Hbody. induction fuel as [|fuel IH]; intros start end_ wl s1 s2 H;
    simpl.
  - destruct (decide (start ≤ end_)); [done|]. apply modulo_Done. simpl.
    by rewrite H.
  - destruct (decide (start ≤ end_)); [|apply modulo_Done; simpl; by rewrite H].
    apply (modulo_bind (λ r, (r.1, without_cout r.2))).
    + by apply Hbody.
    + intros [wl2 t1] [wl3 t2] [-> Ht]%pair_without_cout. by apply IH.
Qed.

Lemma mark_rec_cout depth :
  ∀ start end_ wl s1 s2, without_cout s1 = without_cout s2 →
    worklist_and_heap_of (mark_rec depth start end_ wl s1)
    = worklist_and_heap_of (mark_rec depth start end_ wl s2).
Proof.
  induction depth as [|depth IH]; intros start end_ wl s1 s2 H; [done|].
  simpl. apply mark_words_cout; [|by apply without_cout_record].
  intros a wl0 t1 t2 Ht. by apply mark_worklist_cout.
Qed.

Lemma sweep_loop_cout todo :
  ∀ kept s1 s2, without_cout s1 = without_cout s2 →
    heap_of (sweep_loop kept todo s1) = heap_of (sweep_loop kept todo s2).
Proof.
  induction todo as [|p todo IH]; intros kept s1 s2 H; simpl.
  - by rewrite H.
  - destruct (without_cout_fields _ _ H) as (-> & _).
    destruct (objects s2 !! p) as [chunk|]; [|done].
    destruct (Chunk.m_marked chunk).
    + by apply IH, without_cout_set_marked.
    + apply IH, without_cout_with_allocated.
      rewrite !record_freed.
      destruct (without_cout_fields _ _ H) as (_ & _ & -> & _).
      by apply without_cout_with_freed, without_cout_record.
Qed.

Lemma sweep_cout s1 s2 :
  without_cout s1 = without_cout s2 → heap_of (sweep s1) = heap_of (sweep s2).
Proof.
  intros H. unfold sweep.
  destruct (without_cout_fields _ _ H) as (_ & -> & _).
  by apply sweep_loop_cout.
Qed.

Lemma free_all_cout fuel :
  ∀ s1 s2, without_cout s1 = without_cout s2 →
    heap_of (free_all fuel s1) = heap_of (free_all fuel s2).
Proof.
  induction fuel as [|fuel IH]; intros s1 s2 H; simpl;
    destruct (without_cout_fields _ _ H) as (Ho & _ & Hf & _); rewrite Hf.
  - destruct (last (m_freed_chunks s2)); [done|]. simpl. by rewrite H.
  - destruct (last (m_freed_chunks s2)) as [p|]; [|simpl; by rewrite H].
    rewrite Ho. destruct (objects s2 !! p) as [chunk|]; [|done].
    apply (modulo_bind without_cout); [|intros t1 t2 Ht; by apply IH].
    by apply delete_chunk_cout, without_cout_record, without_cout_with_freed.
Qed.

Lemma overlap_filter_cout todo :
  ∀ filtered s1 s2, without_cout s1 = without_cout s2 →
    modulo (λ r, (r.1, without_cout r.2)) (overlap_filter filtered todo s1)
    = modulo (λ r, (r.1, without_cout r.2)) (overlap_filter filtered todo s2).
Proof.
  induction todo as [|q todo IH]; intros filtered s1 s2 H; simpl.
  - by rewrite H.
  - destruct (last filtered) as [pr|]; [|done].
    destruct (without_cout_fields _ _ H) as (-> & _).
    destruct (objects s2 !! pr) as [prev|]; [|done].
    destruct (objects s2 !! q) as [next|]; [|done].
    destruct (_ <=? _); [|by apply IH].
    by apply IH, without_cout_set_marked.
Qed.

Lemma overlap_delete_cout l :
  ∀ s1 s2, without_cout s1 = without_cout s2 →
    heap_of (overlap_delete l s1) = heap_of (overlap_delete l s2).
Proof.
  induction l as [|p l IH]; intros s1 s2 H; simpl.
  - by rewrite H.
  - destruct (without_cout_fields _ _ H) as (-> & _).
    destruct (objects s2 !! p) as [chunk|]; [|done].
    destruct (negb (Chunk.m_marked chunk)).
    + apply (modulo_bind without_cout); [|intros t1 t2 Ht; by apply IH].
      by apply delete_chunk_cout, without_cout_record.
    + by apply IH, without_cout_set_marked.
Qed.

Lemma free_cout s1 s2 :
  without_cout s1 = without_cout s2 → heap_of (free s1) = heap_of (free s2).
Proof.
  intros H. unfold free.
  destruct (without_cout_fields _ _ H) as (Ho & _ & Hf & _). rewrite Hf.
  destruct (decide _); [by apply free_all_cout|].
  destruct (decide _); [|simpl; by rewrite H].
  unfold free_overlap. rewrite Hf, Ho.
  destruct (get_at _ _) as [p|]; [|done].
  destruct (objects s2 !! p) as [prev|]; [|done].
  apply (modulo_bind (λ r, (r.1, without_cout r.2))).
  - by apply overlap_filter_cout, without_cout_print, without_cout_set_marked.
  - intros [f1 t1] [f2 t2] [-> Ht]%pair_without_cout.
    by apply overlap_delete_cout, without_cout_with_freed.
Qed.

(** X19: a debug collection with all three flags is a collection with the
    profiler switched on.  With a stack top that is not null and the frame
    of [collect], [collect_flags] ends as [collect] does on the heap with
    the profiler switched on: with the same failure, or with the same heap
    and the same log of the profiler; the two differ in what they write to
    the output only. *)
Theorem collect_flags_all_is_collect (flags : Z) (s : State) :
  has_flag flags MARK = true → has_flag flags SWEEP = true →
  has_flag flags FREE = true → m_stack_top s ≠ 0 →
  heap_of (collect_flags stack_bottom flags s)
  = heap_of (collect (set_profiler true s)).
Proof.
  intros HM HS HF Htop.
  destruct (collect_flags_phases stack_bottom flags s)
    as (s0 & Ho & Ha & Hf & Hsz & Hh & Ht & Hon & He & ->).
  rewrite HM, HS, HF. unfold collect.
  set (s0' := record CollectStart (set_profiler true s)).
  assert (without_cout s0 = without_cout s0') as Hsame.
  { unfold s0', record, set_profiler, with_profiler_enable, with_events.
    simpl. destruct s0, s. unfold without_cout, with_cout. simpl in *.
    by subst. }
  assert (m_stack_top s0' = m_stack_top s) as -> by done.
  assert (m_allocated_chunks s0' = m_allocated_chunks s) as -> by done.
  rewrite decide_False by done.
  pose proof (mark_rec_cout
                (S (finish (vector_of (m_allocated_chunks s))))
                stack_bottom (m_stack_top s)
                (vector_of (m_allocated_chunks s)) s0 s0' Hsame) as Hm.
  unfold mark.
  destruct (mark_rec _ _ _ _ s0) as [[wl1 t1]| | |],
           (mark_rec _ _ _ _ s0') as [[wl2 t2]| | |]; simpl in Hm; try done.
  2: { simpl. by injection Hm as ->. }
  assert (without_cout t1 = without_cout t2) as Ht12 by congruence.
  simpl. apply (modulo_bind without_cout).
  - by apply sweep_cout.
  - intros u1 u2 Hu. by apply free_cout.
Qed.


(** ** The size classes of the earlier heap *)

(** X20: [getAllocator] returns the first allocator that is large enough.
    It passes over the allocators whose size is below the request and
    returns the first one whose size is not, without writing anything; when
    every allocator is too small it writes a line to the output and stops on
    its assertion. *)
Theorem getAllocator_first_fit
    {Allocator : Type} (getSize : Allocator → Z)
    (h_allocs : list Allocator) (size : Z) :
  (∀ pre alloc post,
     h_allocs = pre ++ alloc :: post →
     Forall (λ a, getSize a < size) pre → size ≤ getSize alloc →
     getAllocator Allocator getSize h_allocs size = ([], Done alloc))
  ∧ (Forall (λ a, getSize a < size) h_allocs →
     getAllocator Allocator getSize h_allocs size
     = ([OutLine "Object too big"], Abort "false")).
Proof.
  split.
  - intros pre alloc post -> Hpre Hfit.
    induction Hpre as [|a pre Ha Hpre IH]; simpl.
    + destruct (Z.leb_spec size (getSize alloc)); [done|lia].
    + destruct (Z.leb_spec size (getSize a)); [lia|done].
  - intros Hall. induction Hall as [|a l Ha Hl IH]; simpl; [done|].
    destruct (Z.leb_spec size (getSize a)); [lia|done].
Qed.

(** X21: the heap made by the constructor serves a request from the smallest
    of its size classes that is large enough.  When an allocator made for a
    number has that number as its size, a request of at most 1024 bytes gets
    the allocator of a class [c] among 16, 32, ..., 1024 with [size <= c],
    where [c] is 16 or less than twice the request; a larger request stops
    on the assertion, after the line about the object being too big. *)
Theorem Heap_getAllocator_size_class
    {Allocator : Type} (getSize : Allocator → Z)
    (new_Allocator : Z → Allocator) (size : Z) :
  (∀ n, getSize (new_Allocator n) = n) →
  (size ≤ 1024 →
   ∃ c, getAllocator Allocator getSize (Heap_h_allocs Allocator new_Allocator)
          size = ([], Done (new_Allocator c))
     ∧ c ∈ [16; 32; 64; 128; 256; 512; 1024]
     ∧ size ≤ c ∧ (c = 16 ∨ c < 2 * size))
  ∧ (1024 < size →
     getAllocator Allocator getSize (Heap_h_allocs Allocator new_Allocator)
       size = ([OutLine "Object too big"], Abort "false")).
Proof.
  intros Hsize. unfold Heap_h_allocs. simpl. rewrite !Hsize. split.
  - intros Hle.
    repeat match goal with
    | |- context [size <=? ?c] =>
        destruct (Z.leb_spec size c);
        [exists c; split; [done|]; split;
           [repeat first [apply list_elem_of_here|apply list_elem_of_further]|];
         split; [done|lia]|]
    end.
    lia.
  - intros Hgt.
    repeat match goal with
    | |- context [size <=? ?c] => destruct (Z.leb_spec size c); [lia|]
    end.
    done.
Qed.


(** ** The log of the profiler *)

Lemma swept_events_ext s s' l :
  (∀ q, q ∈ l → objects s' !! q = objects s !! q) →
  swept_events s' l = swept_events s l.
Proof.
  intros H. unfold swept_events.
  apply list_omap_ext, Forall_Forall2_diag, Forall_forall.
  intros q Hq. by rewrite H.
Qed.

Lemma sweep_loop_events todo :
  ∀ kept s s', NoDup todo → sweep_loop kept todo s = Done s' →
    events s' = events s
                ++ (if m_profiler_enable s then swept_events s todo else []).
Proof.
  induction todo as [|p todo IH]; intros kept s s' Hnd; simpl.
  - intros [= <-]. unfold swept_events. simpl.
    destruct (m_profiler_enable s); by rewrite app_nil_r.
  - apply NoDup_cons in Hnd as [Hp Hnd].
    destruct (objects s !! p) as [c|] eqn:Hc; [|done].
    unfold swept_events. simpl. fold (swept_events s todo).
    destruct (Chunk.m_marked c) eqn:Hm.
    + intros H. apply IH in H; [|done]. rewrite H. simpl.
      rewrite (swept_events_ext s); [done|].
      intros q Hq. simpl. rewrite lookup_insert_ne; [done|]. by intros ->.
    + intros H. apply IH in H; [|done]. rewrite H. simpl.
      rewrite record_events, <- app_assoc. f_equal.
      destruct (record_setup (ChunkSwept c) s) as (_ & _ & ->).
      rewrite (swept_events_ext s) by (intros q _; by simpl_state).
      by destruct (m_profiler_enable s).
Qed.

(** X22: [sweep] records each chunk that it retires.  On an allocated list
    without duplicates whose chunks are chunk objects, the log of the
    profiler, when it is switched on, grows by one event for each chunk that
    was not marked, in the order of the allocated list, and by nothing else;
    when it is switched off the log is as before. *)
Theorem sweep_records_swept_chunks (s : State) :
  NoDup (m_allocated_chunks s) → all_live s (m_allocated_chunks s) →
  ∃ s', sweep s = Done s'
    ∧ events s'
      = events s ++ (if m_profiler_enable s
                     then swept_events s (m_allocated_chunks s) else [])
    ∧ length (swept_events s (m_allocated_chunks s))
      = length (filter (λ p, is_marked s p = false) (m_allocated_chunks s)).
Proof.
  intros Hnd Hlive. destruct (sweep_spec s Hnd Hlive) as (s' & Hs & _).
  exists s'. split; [done|]. split; [by apply (sweep_loop_events _ [] s)|].
  clear Hs Hnd. unfold all_live in Hlive.
  induction Hlive as [|p l [c Hc] Hl IH]; [done|].
  rewrite filter_cons.
  destruct (decide (is_marked s p = false)) as [Hm|Hm];
    unfold is_marked in Hm; rewrite Hc in Hm;
    unfold swept_events; simpl; rewrite Hc.
  - rewrite Hm. simpl. f_equal. exact IH.
  - destruct (Chunk.m_marked c); [exact IH|done].
Qed.

Lemma freed_events_ext s s' l :
  (∀ q, q ∈ l → objects s' !! q = objects s !! q) →
  freed_events s' l = freed_events s l.
Proof.
  intros H. unfold freed_events.
  apply list_omap_ext, Forall_Forall2_diag, Forall_forall.
  intros q Hq. rewrite elem_of_reverse in Hq. by rewrite H.
Qed.

Lemma free_all_events l :
  ∀ s fuel s', m_freed_chunks s = l → NoDup l →
    free_all fuel s = Done s' →
    events s' = events s
                ++ (if m_profiler_enable s then freed_events s l else []).
Proof.
  induction l as [|p l IH] using rev_ind; intros s fuel s' Hl Hnd.
  { destruct fuel; simpl; rewrite Hl; simpl; intros [= <-];
      destruct (m_profiler_enable s); by rewrite app_nil_r. }
  apply NoDup_app in Hnd as (Hnd & Hp & _).
  destruct fuel as [|fuel]; simpl; rewrite Hl, last_snoc; [done|].
  rewrite removelast_last. simpl.
  destruct (objects s !! p) as [c|] eqn:Hc; [|done].
  rewrite (delete_chunk_Done p _ c) by by simpl_state. simpl.
  set (s1 := with_objects _ _).
  intros H. apply IH in H; [|unfold s1; by simpl_state|done]. rewrite H.
  assert (events s1
          = events s ++ (if m_profiler_enable s then [ChunkFreed c] else []))
    as -> by (unfold s1; simpl; by rewrite record_events).
  assert (m_profiler_enable s1 = m_profiler_enable s) as ->
    by apply (record_setup (ChunkFreed c) (with_freed l s)).
  assert (freed_events s1 l = freed_events s l) as ->.
  { apply freed_events_ext. intros q Hq. unfold s1. simpl_state.
    rewrite lookup_delete_ne; [done|].
    intros Heq. subst q.
    apply (Hp p); [done|apply list_elem_of_here]. }
  assert (freed_events s (l ++ [p]) = ChunkFreed c :: freed_events s l) as ->.
  { unfold freed_events. rewrite reverse_snoc. simpl. by rewrite Hc. }
  rewrite <- app_assoc. by destruct (m_profiler_enable s).
Qed.

(** X23: [free] records each chunk that it deletes when it drains the freed
    list.  With more than [FREE_THRESH] freed chunks, on a freed list without
    duplicates whose chunks are chunk objects, the log of the profiler, when
    it is switched on, grows by one event for each freed chunk, from the
    back of the list to its front; when it is switched off the log is as
    before. *)
Theorem free_records_freed_chunks (s : State) :
  NoDup (m_freed_chunks s) → all_live s (m_freed_chunks s) →
  (FREE_THRESH < length (m_freed_chunks s))%nat →
  ∃ s', free s = Done s'
    ∧ events s'
      = events s ++ (if m_profiler_enable s
                     then freed_events s (m_freed_chunks s) else [])
    ∧ length (freed_events s (m_freed_chunks s)) = length (m_freed_chunks s).
Proof.
  intros Hnd Hlive Hmany. unfold free. rewrite decide_True by done.
  destruct (free_all_spec (m_freed_chunks s) s (length (m_freed_chunks s)))
    as (s' & He & _); [done..|].
  exists s'. split; [done|].
  split; [by apply (free_all_events (m_freed_chunks s) s
                      (length (m_freed_chunks s)) s')|].
  unfold freed_events. rewrite <- (length_reverse (m_freed_chunks s)).
  assert (Forall (λ p, is_Some (objects s !! p)) (reverse (m_freed_chunks s)))
    as Hrev.
  { apply Forall_forall. intros q Hq. rewrite elem_of_reverse in Hq.
    unfold all_live in Hlive. rewrite Forall_forall in Hlive. by apply Hlive. }
  induction Hrev as [|q k [c Hc] Hk IH]; [done|].
  simpl. rewrite Hc. simpl. f_equal. exact IH.
Qed.


End Machine.

(** ** The theorems at work on the example states *)

Ltac decide_it := apply (bool_decide_unpack _); vm_compute; exact I.

(** Take a member of a list that is written out to be each of its elements in
    turn. *)
Ltac each_member H :=
  repeat (apply elem_of_cons in H as [->|H]);
  try (by apply not_elem_of_nil in H).

Ltac chunk_is H := vm_compute in H; injection H as <-.

Lemma two_chunks_separate : separate_chunks two_chunks [0%nat; 1%nat].
Proof.
  split; [unfold all_live; decide_it|]. split.
  - intros p c Hp Hc. each_member Hp; chunk_is Hc; by vm_compute.
  - intros p q cp cq Hp Hq Hne Hcp Hcq.
    each_member Hp; each_member Hq; try done; chunk_is Hcp; chunk_is Hcq.
    + left. by vm_compute.
    + right. by vm_compute.
Defined.

Lemma two_chunks_wf : heap_wf two_chunks.
Proof.
  split; [decide_it|]. split; [constructor|]. apply two_chunks_separate.
Defined.

Lemma reachable_chunk_survives_collect_witness :
  in_range (Chunk.new 100 4196) (sample_stack (100000 + WORD_BYTES * 1))
  ∧ ∃ s', collect 4 100000 sample_stack two_chunks = Done s'
          ∧ 1%nat ∈ m_allocated_chunks s'
          ∧ objects s' !! 1%nat
            = Some (Chunk.set_marked false (Chunk.new 100 4196)).
Proof.
  assert (in_range (Chunk.new 100 4196) (sample_stack (100000 + WORD_BYTES * 1)))
    as Hin by (by vm_compute).
  split; [exact Hin|].
  apply (reachable_chunk_survives_collect 4 100000 sample_stack two_chunks
           1%nat (Chunk.new 100 4196) 1).
  - apply two_chunks_wf.
  - by vm_compute.
  - apply list_elem_of_further, list_elem_of_here.
  - reflexivity.
  - lia.
  - by vm_compute.
  - exact Hin.
Defined.

Lemma sweep_keeps_marked_witness :
  ∃ s', sweep second_marked = Done s'
    ∧ m_allocated_chunks s'
      = filter (λ p, is_marked second_marked p = true)
          (m_allocated_chunks second_marked)
    ∧ m_freed_chunks s'
      = m_freed_chunks second_marked
        ++ filter (λ p, is_marked second_marked p = false)
             (m_allocated_chunks second_marked)
    ∧ (∀ p, p ∈ m_allocated_chunks s' →
         ∃ c, objects second_marked !! p = Some c
              ∧ objects s' !! p = Some (Chunk.set_marked false c)).
Proof.
  apply (sweep_keeps_marked second_marked).
  - decide_it.
  - unfold all_live. decide_it.
Defined.

Lemma three_freed_in_address_space :
  ∀ q c, q ∈ m_freed_chunks three_freed → objects three_freed !! q = Some c →
         in_address_space c.
Proof.
  intros q c Hq Hc. simpl in Hq. each_member Hq; chunk_is Hc; by vm_compute.
Defined.

Lemma free_overlap_disjoint_witness :
  ∃ s', free_overlap three_freed = Done s'
    ∧ m_freed_chunks s'
      = 0%nat :: keep_after (objects three_freed) (Chunk.new 100 0)
                   [1%nat; 2%nat]
    ∧ all_live s' (m_freed_chunks s')
    ∧ ascending (objects s') (m_freed_chunks s')
    ∧ ∀ i j p q cp cq, i ≠ j →
        m_freed_chunks s' !! i = Some p → m_freed_chunks s' !! j = Some q →
        objects s' !! p = Some cp → objects s' !! q = Some cq →
        disjoint cp cq.
Proof.
  apply (free_overlap_disjoint three_freed 0%nat [1%nat; 2%nat]
           (Chunk.new 100 0)).
  - reflexivity.
  - reflexivity.
  - decide_it.
  - unfold all_live. decide_it.
  - apply three_freed_in_address_space.
Defined.

Lemma free_drains_above_threshold_witness :
  (∃ s', free 2 three_freed = Done s' ∧ m_freed_chunks s' = []
     ∧ (∀ p, p ∈ m_freed_chunks three_freed → objects s' !! p = None)
     ∧ (∀ p, p ∉ m_freed_chunks three_freed →
             objects s' !! p = objects three_freed !! p)
     ∧ m_size s' = m_size three_freed
     ∧ m_allocated_chunks s' = m_allocated_chunks three_freed)
  ∧ (free 3 three_freed = free_overlap three_freed
     ∧ ∃ s' p0, free 3 three_freed = Done s'
         ∧ head (m_freed_chunks three_freed) = Some p0
         ∧ head (m_freed_chunks s') = Some p0
         ∧ is_Some (objects s' !! p0)
         ∧ m_size s' = m_size three_freed).
Proof.
  assert (NoDup (m_freed_chunks three_freed)) as Hnd by decide_it.
  assert (all_live three_freed (m_freed_chunks three_freed)) as Hlive
    by (unfold all_live; decide_it).
  split.
  - apply (free_drains_above_threshold 2 three_freed Hnd Hlive). simpl. lia.
  - apply (free_drains_above_threshold 3 three_freed Hnd Hlive). simpl. lia.
Defined.


Lemma alloc_capacity_check_example :
  alloc 4 8 100000 sample_stack 65536 two_bytes_used
  = Abort "Heap: Out Of Memory".
Proof.
  destruct (alloc_capacity_check 4 8 100000 sample_stack 65536 two_bytes_used)
    as [Hcheck _].
  destruct Hcheck as [Hexceeded _]; [done|].
  destruct Hexceeded as [_ Habort]; [by vm_compute|].
  eapply Habort; [by vm_compute|by vm_compute].
Defined.

Lemma one_freed_256_live : all_live one_freed_256 (m_freed_chunks one_freed_256).
Proof. unfold all_live. decide_it. Defined.

Lemma one_freed_256_no_fit_512 : no_fit 512 one_freed_256.
Proof.
  unfold no_fit. simpl. apply Forall_cons. split; [|constructor].
  exists (Chunk.new 256 4096). split; [reflexivity|]. simpl. lia.
Defined.

(** On the heap whose freed list holds one chunk of 256 bytes: a request of
    512 bytes finds no chunk, and [alloc] makes a new one behind the 256
    bytes in use; a request of 64 bytes finds the chunk. *)
Lemma recycle_null_then_fresh_chunk_witness :
  (try_recycle_chunks 8 512 one_freed_256 = Done (None, one_freed_256)
   ∧ ∃ r s', try_recycle_chunks 8 512 one_freed_256 = Done (r, s')
       ∧ (r = None ↔ ∀ p c, p ∈ m_freed_chunks one_freed_256 →
                        objects one_freed_256 !! p = Some c →
                        Chunk.m_size c < 512)
       ∧ (r = None → s' = one_freed_256))
  ∧ (∃ p s', alloc 4 8 100000 sample_stack 512 one_freed_256
             = Done (4096 + 256, s')
       ∧ objects one_freed_256 !! p = None
       ∧ objects s' = <[p := Chunk.new 512 (4096 + 256)]> (objects one_freed_256)
       ∧ m_allocated_chunks s' = [p]
       ∧ m_freed_chunks s' = [0%nat]
       ∧ m_size s' = 768)
  ∧ (∃ r s', try_recycle_chunks 8 64 one_freed_256 = Done (r, s')
       ∧ (r = None ↔ ∀ p c, p ∈ m_freed_chunks one_freed_256 →
                        objects one_freed_256 !! p = Some c →
                        Chunk.m_size c < 64)
       ∧ (r = None → s' = one_freed_256))
  ∧ ∃ s', try_recycle_chunks 8 64 one_freed_256 = Done (Some 0%nat, s').
Proof.
  split; [split; [reflexivity|]|split; [|split]].
  - apply (proj1 (recycle_null_then_fresh_chunk 4 8 100000 sample_stack 512
                    one_freed_256)), one_freed_256_live.
  - apply (proj2 (recycle_null_then_fresh_chunk 4 8 100000 sample_stack 512
                    one_freed_256)).
    + done.
    + by vm_compute.
    + apply one_freed_256_no_fit_512.
  - apply (proj1 (recycle_null_then_fresh_chunk 4 8 100000 sample_stack 64
                    one_freed_256)), one_freed_256_live.
  - eexists. reflexivity.
Defined.

(** ** The further properties at work on the example states *)

Lemma two_chunks_none_marked : none_marked two_chunks [0%nat; 1%nat].
Proof. intros p Hp. each_member Hp; reflexivity. Defined.

Lemma collect_keeps_heap_wf_witness :
  ∃ s', collect 4 100000 sample_stack two_chunks = Done s' ∧ heap_wf s'
    ∧ none_marked s' (m_allocated_chunks s')
    ∧ sublist (m_allocated_chunks s') (m_allocated_chunks two_chunks)
    ∧ (∀ q, q ∈ m_freed_chunks s' →
            q ∈ m_freed_chunks two_chunks ∨ q ∈ m_allocated_chunks two_chunks)
    ∧ m_size s' = m_size two_chunks
    ∧ m_stack_top s' = m_stack_top two_chunks.
Proof.
  apply (collect_keeps_heap_wf 4 100000 sample_stack two_chunks).
  - apply two_chunks_wf.
  - by vm_compute.
Defined.

Lemma second_chunk_reached :
  reachable linked_stack (objects two_chunks) [0%nat; 1%nat] 100000 100016
    1%nat.
Proof.
  apply (reachable_root _ _ _ _ _ 1 1%nat (Chunk.new 100 4196)).
  - lia.
  - by vm_compute.
  - apply list_elem_of_further, list_elem_of_here.
  - reflexivity.
  - by vm_compute.
Defined.

Lemma first_chunk_reached :
  reachable linked_stack (objects two_chunks) [0%nat; 1%nat] 100000 100016
    0%nat.
Proof.
  apply (reachable_step _ _ _ _ _ 1 1%nat (Chunk.new 100 4196)
           0%nat (Chunk.new 100 4096)).
  - apply second_chunk_reached.
  - reflexivity.
  - lia.
  - by vm_compute.
  - apply list_elem_of_here.
  - reflexivity.
  - by vm_compute.
Defined.

Lemma reached_chunks_survive_collect_witness :
  ∃ s' c, collect 4 100000 linked_stack two_chunks = Done s'
    ∧ 0%nat ∈ m_allocated_chunks s'
    ∧ objects two_chunks !! 0%nat = Some c
    ∧ objects s' !! 0%nat = Some (Chunk.set_marked false c).
Proof.
  apply (reached_chunks_survive_collect 4 100000 linked_stack two_chunks 0%nat).
  - apply two_chunks_wf.
  - by vm_compute.
  - apply two_chunks_none_marked.
  - apply first_chunk_reached.
Defined.

Lemma sample_stack_misses_first a :
  ¬ in_range (Chunk.new 100 4096) (sample_stack a).
Proof.
  unfold sample_stack, in_range. simpl. destruct (decide (a = 100008)); lia.
Defined.

Lemma first_chunk_not_reached :
  ¬ reachable sample_stack (objects two_chunks) [0%nat; 1%nat] 100000 100016
      0%nat.
Proof.
  intros H.
  inversion H as [k p c Hk Hend Hp Hc Hin|k p c q cq Hr Hc Hk Hsz Hq Hcq Hin];
    subst.
  - chunk_is Hc. by apply sample_stack_misses_first in Hin.
  - chunk_is Hcq. by apply sample_stack_misses_first in Hin.
Defined.

Lemma unreached_chunk_is_reclaimed_witness :
  ∃ s', collect 4 100000 sample_stack two_chunks = Done s'
    ∧ (0%nat ∉ m_allocated_chunks s')
    ∧ (0%nat ∈ m_freed_chunks s' ∨ objects s' !! 0%nat = None).
Proof.
  apply (unreached_chunk_is_reclaimed 4 100000 sample_stack two_chunks 0%nat).
  - apply two_chunks_wf.
  - by vm_compute.
  - apply list_elem_of_here.
  - reflexivity.
  - apply first_chunk_not_reached.
Defined.

Lemma mark_marks_reached_chunks_witness :
  ∃ wl' s', mark linked_stack 100000 100016 (vector_of [0%nat; 1%nat]) two_chunks
            = Done (wl', s')
    ∧ (∀ p, p ∈ [0%nat; 1%nat] →
         is_marked s' p = true
         ↔ reachable linked_stack (objects two_chunks) [0%nat; 1%nat]
             100000 100016 p)
    ∧ (∀ p, p ∉ [0%nat; 1%nat] → objects s' !! p = objects two_chunks !! p)
    ∧ marks_grow two_chunks s' ∧ mark_frame two_chunks s'.
Proof.
  apply (mark_marks_reached_chunks linked_stack [0%nat; 1%nat] 100000 100016
           two_chunks).
  - apply two_chunks_separate.
  - apply two_chunks_none_marked.
Defined.

Lemma mark_passes_over_marked_chunks_witness :
  mark sample_stack 100000 100016 (vector_of [0%nat; 1%nat]) second_marked
  = Done (vector_of [0%nat; 1%nat], record MarkStart second_marked).
Proof.
  apply (mark_passes_over_marked_chunks sample_stack [0%nat; 1%nat]
           100000 100016 second_marked).
  - unfold all_live. decide_it.
  - intros k p c _ _ Hp Hc. unfold sample_stack.
    destruct (decide _); each_member Hp; chunk_is Hc; by vm_compute.
Defined.

Lemma alloc_beyond_capacity_aborts_witness :
  (m_stack_top two_bytes_used = 0 →
   alloc 4 8 100000 sample_stack 65536 two_bytes_used
   = Abort "Heap is not initialized, read the docs!")
  ∧ (heap_wf two_bytes_used → m_stack_top two_bytes_used ≠ 0 →
     alloc 4 8 100000 sample_stack 65536 two_bytes_used
     = Abort "Heap: Out Of Memory")
  ∧ ∀ r, alloc 4 8 100000 sample_stack 65536 two_bytes_used ≠ Done r.
Proof.
  apply (alloc_beyond_capacity_aborts 4 8 100000 sample_stack 65536
           two_bytes_used).
  - done.
  - by vm_compute.
Defined.

Lemma init_makes_collect_return_witness :
  m_stack_top (init 100016 two_chunks) = 100016
  ∧ objects (init 100016 two_chunks) = objects two_chunks
  ∧ m_allocated_chunks (init 100016 two_chunks) = m_allocated_chunks two_chunks
  ∧ m_freed_chunks (init 100016 two_chunks) = m_freed_chunks two_chunks
  ∧ m_size (init 100016 two_chunks) = m_size two_chunks
  ∧ events (init 100016 two_chunks)
    = events two_chunks
      ++ (if m_profiler_enable two_chunks then [HeapInit] else [])
  ∧ (m_stack_top two_chunks = 0 →
     collect 4 100000 sample_stack two_chunks
     = Abort "Heap is not initialized, read the docs!")
  ∧ ∃ s', collect 4 100000 sample_stack (init 100016 two_chunks) = Done s'
          ∧ m_stack_top s' = 100016.
Proof.
  apply (init_makes_collect_return 4 100000 sample_stack 100016 two_chunks).
  - apply two_chunks_wf.
  - done.
Defined.



Lemma alloc_all_lays_out_blocks_witness :
  ∃ s', alloc_all 4 8 100000 sample_stack [16; 32] (new_heap 4096)
        = Done ([4096; 4112], s')
    ∧ bump_heap s'
    ∧ m_size s' = 48
    ∧ length (m_allocated_chunks s') = 2%nat.
Proof.
  apply (alloc_all_lays_out_blocks 4 8 100000 sample_stack [16; 32]
           (new_heap 4096)).
  - apply bump_heap_new; by vm_compute.
  - repeat constructor.
  - by vm_compute.
Defined.

Lemma profiler_off_records_nothing_witness :
  (∀ s', collect 4 100000 sample_stack two_bytes_used = Done s' →
         events s' = events two_bytes_used ∧ m_profiler_enable s' = false)
  ∧ (∀ size a s',
       alloc 4 8 100000 sample_stack size two_bytes_used = Done (a, s') →
       events s' = events two_bytes_used ∧ m_profiler_enable s' = false).
Proof.
  apply (profiler_off_records_nothing 4 8 100000 sample_stack two_bytes_used).
  reflexivity.
Defined.

Lemma alloc_records_start_and_chunk_witness :
  ∃ s', alloc 4 8 100000 sample_stack 64 two_bytes_profiled = Done (4098, s')
    ∧ ∃ c, Chunk.m_start c = 4098
      ∧ ((events s' = events two_bytes_profiled ++ [AllocStart 64; NewChunk c]
          ∧ c = Chunk.new 64 (m_heap two_bytes_profiled
                              + m_size two_bytes_profiled)
          ∧ no_fit 64 two_bytes_profiled)
         ∨ (events s'
            = events two_bytes_profiled ++ [AllocStart 64; ReusedChunk c]
            ∧ 64 ≤ Chunk.m_size c
            ∧ ∃ p, p ∈ m_freed_chunks two_bytes_profiled
                   ∧ objects two_bytes_profiled !! p = Some c)).
Proof.
  eexists. split; [reflexivity|].
  eapply (alloc_records_start_and_chunk 4 8 100000 sample_stack 64
            two_bytes_profiled 4098).
  - reflexivity.
  - done.
  - by vm_compute.
  - reflexivity.
Defined.

Lemma three_freed_no_duplicates : NoDup (m_freed_chunks three_freed).
Proof. decide_it. Defined.

Lemma three_freed_live : all_live three_freed (m_freed_chunks three_freed).
Proof. unfold all_live. decide_it. Defined.

Lemma free_overlap_twice_witness :
  ∃ s' s'', free_overlap three_freed = Done s' ∧ free_overlap s' = Done s''
    ∧ m_freed_chunks s'' = m_freed_chunks s'
    ∧ objects s'' = objects s'
    ∧ m_allocated_chunks s'' = m_allocated_chunks three_freed
    ∧ m_size s'' = m_size three_freed
    ∧ cout s'' = cout three_freed ++ [OutAddr 0; OutAddr 0].
Proof.
  apply (free_overlap_twice three_freed 0%nat [1%nat; 2%nat] (Chunk.new 100 0)).
  - reflexivity.
  - reflexivity.
  - apply three_freed_no_duplicates.
  - apply three_freed_live.
Defined.

Lemma free_overlap_deletes_dropped_witness :
  ∃ s', free_overlap three_freed = Done s'
    ∧ sublist (m_freed_chunks s') (m_freed_chunks three_freed)
    ∧ (∀ q, q ∈ m_freed_chunks three_freed → q ∉ m_freed_chunks s' →
         objects s' !! q
         = if is_marked three_freed q
           then Chunk.set_marked false <$> objects three_freed !! q
           else None)
    ∧ (∀ q, q ∈ m_freed_chunks s' →
         ∃ c, objects three_freed !! q = Some c
              ∧ objects s' !! q = Some (Chunk.set_marked false c))
    ∧ (∀ q, q ∉ m_freed_chunks three_freed →
            objects s' !! q = objects three_freed !! q)
    ∧ m_allocated_chunks s' = m_allocated_chunks three_freed
    ∧ m_size s' = m_size three_freed
    ∧ cout s' = cout three_freed ++ [OutAddr 0].
Proof.
  apply (free_overlap_deletes_dropped three_freed 0%nat [1%nat; 2%nat]
           (Chunk.new 100 0)).
  - reflexivity.
  - reflexivity.
  - apply three_freed_no_duplicates.
  - apply three_freed_live.
Defined.

Lemma mark_test_marks_worklist_witness :
  ∃ s', mark_test [Some 0%nat; None; Some 1%nat] two_chunks = Done ([], s')
    ∧ marked_in (chunks_of [Some 0%nat; None; Some 1%nat]) two_chunks s'
    ∧ s' = with_objects (objects s') two_chunks.
Proof.
  apply (mark_test_marks_worklist [Some 0%nat; None; Some 1%nat] two_chunks).
  intros p Hp.
  repeat (apply elem_of_cons in Hp as [Hp|Hp]); simplify_eq; try (by eexists).
  by apply not_elem_of_nil in Hp.
Defined.

Lemma mark_from_roots_marks_chunk_objects_witness :
  ∃ s', mark_from_roots sample_stack sample_chunk_at 100016 100000 two_chunks
        = Done s'
    ∧ marks_grow two_chunks s'
    ∧ (∀ a p, scanned_down 100016 100000 a →
              root_word sample_stack sample_chunk_at a p →
              objects s' !! p
              = Chunk.set_marked true <$> objects two_chunks !! p)
    ∧ (∀ p, objects s' !! p ≠ objects two_chunks !! p →
            ∃ a, scanned_down 100016 100000 a
                 ∧ root_word sample_stack sample_chunk_at a p)
    ∧ s' = with_objects (objects s') two_chunks
    ∧ (100016 ≤ 100000 → s' = two_chunks).
Proof.
  apply (mark_from_roots_marks_chunk_objects sample_stack sample_chunk_at
           100016 100000 two_chunks).
  intros a _ _. unfold sample_stack. destruct (decide (a = 100008)); [|done].
  intros _. exists 1%nat. split; [reflexivity|by eexists].
Defined.

Lemma collect_flags_mark_leaves_marks_witness :
  ∃ s', collect_flags 4 sample_stack 1 2 4 100000 1 two_chunks = Done s'
    ∧ (∀ p, p ∈ m_allocated_chunks two_chunks →
         is_marked s' p = true
         ↔ reachable sample_stack (objects two_chunks)
             (m_allocated_chunks two_chunks) 100000
             (m_stack_top two_chunks) p)
    ∧ m_allocated_chunks s' = m_allocated_chunks two_chunks
    ∧ m_freed_chunks s' = m_freed_chunks two_chunks
    ∧ m_size s' = m_size two_chunks
    ∧ m_profiler_enable s' = true
    ∧ (m_stack_top two_chunks < 100000 → objects s' = objects two_chunks).
Proof.
  apply (collect_flags_mark_leaves_marks 4 sample_stack 1 2 4 100000 1
           two_chunks).
  - reflexivity.
  - reflexivity.
  - reflexivity.
  - apply two_chunks_separate.
  - apply two_chunks_none_marked.
Defined.

Lemma collect_flags_sweeps_all_witness :
  ∃ s', collect_flags 4 sample_stack 1 2 4 100000 2 two_chunks = Done s'
    ∧ m_allocated_chunks s' = []
    ∧ (has_flag 2 4 = false →
       m_freed_chunks s'
       = m_freed_chunks two_chunks ++ m_allocated_chunks two_chunks
       ∧ objects s' = objects two_chunks)
    ∧ (∀ p, p ∈ m_allocated_chunks two_chunks →
            p ∈ m_freed_chunks s' ∨ objects s' !! p = None)
    ∧ m_size s' = m_size two_chunks.
Proof.
  apply (collect_flags_sweeps_all 4 sample_stack 1 2 4 100000 2 two_chunks).
  - reflexivity.
  - left. reflexivity.
  - apply two_chunks_wf.
  - apply two_chunks_none_marked.
Defined.

Lemma collect_flags_all_is_collect_witness :
  heap_of (collect_flags 4 sample_stack 1 2 4 100000 7 two_chunks)
  = heap_of (collect 4 100000 sample_stack (set_profiler true two_chunks)).
Proof.
  apply (collect_flags_all_is_collect 4 100000 sample_stack 1 2 4 7 two_chunks).
  - reflexivity.
  - reflexivity.
  - reflexivity.
  - by vm_compute.
Defined.

Lemma getAllocator_first_fit_witness :
  (∀ pre alloc post,
     [16; 32; 64] = pre ++ alloc :: post →
     Forall (λ a, a < 20) pre → 20 ≤ alloc →
     getAllocator Z (λ n, n) [16; 32; 64] 20 = ([], Done alloc))
  ∧ (Forall (λ a, a < 20) [16; 32; 64] →
     getAllocator Z (λ n, n) [16; 32; 64] 20
     = ([OutLine "Object too big"], Abort "false")).
Proof. apply (getAllocator_first_fit (λ n : Z, n) [16; 32; 64] 20). Defined.

Lemma sweep_records_swept_chunks_witness :
  ∃ s', sweep (set_profiler true second_marked) = Done s'
    ∧ events s'
      = events (set_profiler true second_marked)
        ++ (if m_profiler_enable (set_profiler true second_marked)
            then swept_events (set_profiler true second_marked)
                   (m_allocated_chunks (set_profiler true second_marked))
            else [])
    ∧ length (swept_events (set_profiler true second_marked)
                (m_allocated_chunks (set_profiler true second_marked)))
      = length (filter (λ p, is_marked (set_profiler true second_marked) p
                             = false)
                  (m_allocated_chunks (set_profiler true second_marked))).
Proof.
  apply (sweep_records_swept_chunks (set_profiler true second_marked)).
  - decide_it.
  - unfold all_live. decide_it.
Defined.

Lemma free_records_freed_chunks_witness :
  ∃ s', free 2 (set_profiler true three_freed) = Done s'
    ∧ events s'
      = events (set_profiler true three_freed)
        ++ (if m_profiler_enable (set_profiler true three_freed)
            then freed_events (set_profiler true three_freed)
                   (m_freed_chunks (set_profiler true three_freed))
            else [])
    ∧ length (freed_events (set_profiler true three_freed)
                (m_freed_chunks (set_profiler true three_freed)))
      = length (m_freed_chunks (set_profiler true three_freed)).
Proof.
  apply (free_records_freed_chunks 2 (set_profiler true three_freed)).
  - decide_it.
  - unfold all_live. decide_it.
  - simpl. lia.
Defined.

Lemma Heap_getAllocator_size_class_witness :
  (100 ≤ 1024 →
   ∃ c, getAllocator Z (λ n, n) (Heap_h_allocs Z (λ n, n)) 100 = ([], Done c)
     ∧ c ∈ [16; 32; 64; 128; 256; 512; 1024]
     ∧ 100 ≤ c ∧ (c = 16 ∨ c < 2 * 100))
  ∧ (1024 < 100 →
     getAllocator Z (λ n, n) (Heap_h_allocs Z (λ n, n)) 100
     = ([OutLine "Object too big"], Abort "false")).
Proof.
  apply (Heap_getAllocator_size_class (λ n : Z, n) (λ n : Z, n) 100).
  reflexivity.
Defined.


(** ** Chunks that leave the address space

    The check of the capacity in [alloc] adds the counter and the size as
    machine integers.  A request of 2^64 - 1 bytes on a heap with two bytes
    in use passes it, and [alloc] makes a chunk whose end, computed the same
    way in [mark] and in [free_overlap], lies below its start. *)

Lemma mark_then_sweep_huge_chunk_heap :
  ∃ s', ('(_, s) ← mark pinned_stack 100000 100016 (vector_of [0%nat; 1%nat])
                     huge_chunk_heap; sweep s) = Done s'
    ∧ m_allocated_chunks s' = [0%nat] ∧ m_freed_chunks s' = [1%nat]
    ∧ objects s' !! 1%nat = Some (Chunk.new (2 ^ 64 - 1) 4098).
Proof. eexists. split; [vm_compute; reflexivity|]. by vm_compute. Qed.

(** C1, evaluated where it fails: on a new heap at 4096 a client asks for 2
    bytes and for 2^64 - 1 bytes and keeps the two addresses it gets, 4096 and
    4098, in the words of its stack at 100000 and 100008.  The chunk of the
    second request is allocated, and the word at 100008, inside the scanned
    range, holds its start, an address of its range.  After [collect] the
    first chunk is still allocated and the second is not: its [c_end] is
    4097, below its start, so that [mark] finds no word that points into
    it. *)
Theorem pinned_chunk_is_swept (FREE_THRESH : nat) (START_STRIDE : Z) :
  ∃ s1 s3,
    alloc FREE_THRESH START_STRIDE 100000 pinned_stack 2 started_heap
    = Done (4096, s1)
    ∧ alloc FREE_THRESH START_STRIDE 100000 pinned_stack (2 ^ 64 - 1) s1
      = Done (4098, huge_chunk_heap)
    ∧ 1%nat ∈ m_allocated_chunks huge_chunk_heap
    ∧ objects huge_chunk_heap !! 1%nat = Some (Chunk.new (2 ^ 64 - 1) 4098)
    ∧ 100000 + WORD_BYTES * 1 ≤ m_stack_top huge_chunk_heap
    ∧ in_range (Chunk.new (2 ^ 64 - 1) 4098)
        (pinned_stack (100000 + WORD_BYTES * 1))
    ∧ c_end (Chunk.new (2 ^ 64 - 1) 4098) = 4097
    ∧ collect FREE_THRESH 100000 pinned_stack huge_chunk_heap = Done s3
    ∧ m_allocated_chunks s3 = [0%nat]
    ∧ 1%nat ∉ m_allocated_chunks s3.
Proof.
  destruct mark_then_sweep_huge_chunk_heap as (s' & Hs & Ha & Hf & Ho).
  destruct (free_spec FREE_THRESH s') as (s3 & He & (_ & _ & Ha3) & _).
  { rewrite Hf. apply NoDup_singleton. }
  { rewrite Hf. apply Forall_singleton. by rewrite Ho. }
  eexists _, s3. split; [reflexivity|]. split; [vm_compute; reflexivity|].
  split; [apply list_elem_of_further, list_elem_of_here|].
  split; [reflexivity|]. split; [by vm_compute|]. split; [by vm_compute|].
  split; [reflexivity|]. split.
  - unfold collect.
    change (record CollectStart huge_chunk_heap) with huge_chunk_heap.
    rewrite decide_False by (by vm_compute).
    change (m_stack_top huge_chunk_heap) with 100016.
    change (m_allocated_chunks huge_chunk_heap) with [0%nat; 1%nat].
    destruct (mark _ _ _ _ _) as [[wl sM]| | |]; try discriminate.
    simpl in Hs |- *. rewrite Hs. exact He.
  - rewrite Ha3, Ha. split; [done|].
    intros H. apply list_elem_of_singleton in H. done.
Qed.

(** C3, evaluated where it fails: the same client asks for 16 bytes more and
    gets 4097, and keeps none of the three addresses.  [mark] and [sweep]
    retire the three chunks, and [free_overlap], which [collect] runs on the
    freed list when [FREE_THRESH] is at least 3, keeps them all: the end of
    the chunk of 2^64 - 1 bytes wraps around to 4097, where the third chunk
    starts.  The first chunk and the third, both in the freed list
    afterwards, have the address 4097 in common, and the third chunk starts
    below the end of the second, the last chunk kept before it. *)
Theorem free_overlap_keeps_overlapping_chunks
    (FREE_THRESH : nat) (START_STRIDE : Z) :
  ∃ s1 s',
    alloc FREE_THRESH START_STRIDE 100000 idle_stack 2 started_heap
    = Done (4096, s1)
    ∧ alloc FREE_THRESH START_STRIDE 100000 idle_stack (2 ^ 64 - 1) s1
      = Done (4098, huge_chunk_heap)
    ∧ alloc FREE_THRESH START_STRIDE 100000 idle_stack 16 huge_chunk_heap
      = Done (4097, wrapped_heap)
    ∧ ('(_, s) ← mark idle_stack 100000 100016
                   (vector_of (m_allocated_chunks wrapped_heap)) wrapped_heap;
       sweep s) = Done wrapped_heap_swept
    ∧ free_overlap wrapped_heap_swept = Done s'
    ∧ ((3 ≤ FREE_THRESH)%nat →
       collect FREE_THRESH 100000 idle_stack wrapped_heap = Done s')
    ∧ m_freed_chunks s' = [0%nat; 1%nat; 2%nat]
    ∧ objects s' !! 0%nat = Some (Chunk.new 2 4096)
    ∧ objects s' !! 1%nat = Some (Chunk.new (2 ^ 64 - 1) 4098)
    ∧ objects s' !! 2%nat = Some (Chunk.new 16 4097)
    ∧ in_range (Chunk.new 2 4096) 4097 ∧ in_range (Chunk.new 16 4097) 4097
    ∧ ¬ disjoint (Chunk.new 2 4096) (Chunk.new 16 4097)
    ∧ Chunk.m_start (Chunk.new 16 4097)
      < Chunk.m_start (Chunk.new (2 ^ 64 - 1) 4098)
        + Chunk.m_size (Chunk.new (2 ^ 64 - 1) 4098).
Proof.
  assert (('(_, s) ← mark idle_stack 100000 100016
                      (vector_of [0%nat; 1%nat; 2%nat]) wrapped_heap; sweep s)
          = Done wrapped_heap_swept) as Hs by (vm_compute; reflexivity).
  eexists _, _. split; [reflexivity|]. split; [vm_compute; reflexivity|].
  split; [vm_compute; reflexivity|]. split; [exact Hs|].
  split; [vm_compute; reflexivity|]. split.
  - intros Hthresh. unfold collect.
    change (record CollectStart wrapped_heap) with wrapped_heap.
    rewrite decide_False by (by vm_compute).
    change (m_stack_top wrapped_heap) with 100016.
    change (m_allocated_chunks wrapped_heap) with [0%nat; 1%nat; 2%nat].
    destruct (mark _ _ _ _ _) as [[wl sM]| | |]; try discriminate.
    simpl in Hs |- *. rewrite Hs. simpl. unfold free.
    rewrite decide_False by (simpl; lia). rewrite decide_True by (simpl; lia).
    vm_compute; reflexivity.
  - split; [reflexivity|]. split; [reflexivity|]. split; [reflexivity|].
    split; [reflexivity|]. split; [by vm_compute|]. split; [by vm_compute|].
    split; [|by vm_compute].
    unfold disjoint, before. simpl. lia.
Qed.
